(** * Work-history matching, achievement de-duplication and merge pipeline

    A shallow embedding of [src/server/api/routers/document/work-history.ts]
    together with the properties its specification states about it.

    Conventions of the embedding:
    - A text is a [string] holding its UTF-8 bytes. The string methods of
      the engine work on UTF-16 code units, which [JS.codeUnits] reads off
      the bytes; [trim] and the class [\s] are the ones of ECMAScript.
      [toLowerCase] follows the Unicode tables of the engine and is a
      parameter of whatever uses it.
    - A [Date] is kept as the local-time fields the code reads
      ([getFullYear], [getMonth]) plus the remainder of the instant inside
      that month; the invalid date is a value of its own and its getters
      yield NaN.
    - Asynchronous database code is written in a state-and-exception monad
      over an explicit database; the LLM and the fault behaviour of the
      database are inputs of the model, and so is the order in which the
      database lists the rows of a [findMany] that asks for none. *)

From Stdlib Require Import ZArith Ascii String List Lia Bool.
From stdpp Require Import base decidable option list gmap sets strings pretty sorting.

Local Open Scope string_scope.
Local Open Scope Z_scope.
Local Open Scope list_scope.

(** ** JavaScript values used by the router *)

Module JS.

(** [Number] results of the [Date] getters: [None] is NaN. *)
Definition number := option Z.

Definition mul (a b : number) : number :=
  match a, b with Some x, Some y => Some (x * y) | _, _ => None end.

Definition add (a b : number) : number :=
  match a, b with Some x, Some y => Some (x + y) | _, _ => None end.

(** [a === b] on numbers: NaN is equal to nothing, itself included. *)
Definition strict_eq (a b : number) : bool :=
  match a, b with Some x, Some y => x =? y | _, _ => false end.

(** [a !== b]. *)
Definition strict_neq (a b : number) : bool := negb (strict_eq a b).

Inductive Date :=
| InvalidDate
| LocalDate (fullYear month restOfMonth : Z).

Definition getFullYear (d : Date) : number :=
  match d with InvalidDate => None | LocalDate y _ _ => Some y end.

Definition getMonth (d : Date) : number :=
  match d with InvalidDate => None | LocalDate _ m _ => Some m end.

(** What the language guarantees of a [Date]: [getMonth] is 0..11. *)
Definition date_wf (d : Date) : Prop :=
  match d with InvalidDate => True | LocalDate _ m _ => 0 <= m <= 11 end.

(** *** Strings

    The code units of a text. A byte below 128 is a code unit; a lead byte
    announces one to three continuation bytes, whose bits make a code point;
    a code point beyond the basic plane is a surrogate pair. A byte that is
    out of place reads as U+FFFD. *)

Definition byte (c : ascii) : Z := Z.of_N (N_of_ascii c).

Definition replacementCharacter : Z := 65533.

Definition ofCodePoint (cp : Z) : list Z :=
  if cp <? 65536 then [cp]
  else if cp <? 1114112
  then [55296 + (cp - 65536) / 1024; 56320 + (cp - 65536) mod 1024]
  else [replacementCharacter].

(** What a byte at the start of a sequence gives: the code units it stands
    for, the number of continuation bytes it announces and its payload. *)
Definition lead (b : Z) : list Z * nat * Z :=
  if b <? 128 then ([b], 0%nat, 0)
  else if b <? 192 then ([replacementCharacter], 0%nat, 0)
  else if b <? 224 then ([], 1%nat, b - 192)
  else if b <? 240 then ([], 2%nat, b - 224)
  else if b <? 248 then ([], 3%nat, b - 240)
  else ([replacementCharacter], 0%nat, 0).

Fixpoint decode (pending : nat) (bits : Z) (s : string) : list Z :=
  match s with
  | EmptyString => match pending with O => [] | S _ => [replacementCharacter] end
  | String c s' =>
      let b := byte c in
      match pending with
      | S k =>
          if (128 <=? b) && (b <? 192)
          then
            match k with
            | O => ofCodePoint (bits * 64 + (b - 128)) ++ decode 0 0 s'
            | S _ => decode k (bits * 64 + (b - 128)) s'
            end
          else
            let '(out, k', bits') := lead b in
            replacementCharacter :: out ++ decode k' bits' s'
      | O =>
          let '(out, k', bits') := lead b in
          out ++ decode k' bits' s'
      end
  end.

Definition codeUnits (s : string) : list Z := decode 0 0 s.

(** WhiteSpace and LineTerminator of ECMAScript: what the class [\s]
    matches and what [trim] strips. Tab to carriage return, space, no-break
    space, U+1680, U+2000 to U+200A, U+2028, U+2029, U+202F, U+205F,
    U+3000 and U+FEFF. *)
Definition isWhiteSpace (c : Z) : bool :=
  ((9 <=? c) && (c <=? 13)) || (c =? 32) || (c =? 160) || (c =? 5760)
  || ((8192 <=? c) && (c <=? 8202)) || (c =? 8232) || (c =? 8233)
  || (c =? 8239) || (c =? 8287) || (c =? 12288) || (c =? 65279).

(** [s.replace(/\s/g, "")] *)
Fixpoint removeWhitespace (s : list Z) : list Z :=
  match s with
  | [] => []
  | c :: s' =>
      if isWhiteSpace c then removeWhitespace s' else c :: removeWhitespace s'
  end.

Fixpoint trimStart (s : list Z) : list Z :=
  match s with
  | [] => []
  | c :: s' => if isWhiteSpace c then trimStart s' else s
  end.

(** Drops the white space at the end: a code unit is kept when it is not
    white space or when something is kept after it. *)
Fixpoint trimEnd (s : list Z) : list Z :=
  match s with
  | [] => []
  | c :: s' =>
      match trimEnd s' with
      | [] => if isWhiteSpace c then [] else [c]
      | t => c :: t
      end
  end.

(** [s.trim()] *)
Definition trim (s : list Z) : list Z := trimEnd (trimStart s).

(** [s.toLowerCase()] as far as ASCII goes: A to Z become a to z and no
    other code unit below 128 changes. The engine agrees with this on ASCII
    text; beyond it, it follows the Unicode tables. *)
Definition asciiToLowerCase (s : list Z) : list Z :=
  (λ c, if (65 <=? c) && (c <=? 90) then c + 32 else c) <$> s.

(** [a ?? b] *)
Definition nullish {A} (a : option A) (b : A) : A :=
  match a with Some x => x | None => b end.

End JS.

(** ** [distance] of the package fastest-levenshtein

    The package computes the Levenshtein distance of two strings, compared
    code unit by code unit; the embedding is the Wagner-Fischer recurrence
    on the code units. *)

Fixpoint distance (a : list Z) : list Z -> nat :=
  match a with
  | [] => length
  | x :: a' =>
      fix against (b : list Z) : nat :=
        match b with
        | [] => S (length a')
        | y :: b' =>
            let deletion := S (distance a' b) in
            let insertion := S (against b') in
            let substitution :=
              ((if (x =? y)%Z then 0 else 1) + distance a' b')%nat in
            Nat.min (Nat.min deletion insertion) substitution
        end
  end.

(** ** Records the matcher reads *)

(** The [existing] argument of [doWorkHistoryRecordsMatch]. *)
Module Existing.
Record t := mk {
  companyName : string;
  startDate : JS.Date;
  endDate : option JS.Date   (* Date | null *)
}.
End Existing.

(** A parsed work-experience entry ([newRecord], and the elements of the
    [workExperience] batch). Every field is optional. *)
Module Parsed.
Record t := mk {
  company : option string;
  jobTitle : option string;
  startDate : option JS.Date;
  endDate : option JS.Date;
  achievements : option (list string);
  skills : option (list string)
}.
End Parsed.

(** [existingStart.getFullYear() * 12 + existingStart.getMonth()] *)
Definition monthIndex (d : JS.Date) : JS.number :=
  JS.add (JS.mul (JS.getFullYear d) (Some 12)) (JS.getMonth d).

(** [name.toLowerCase().replace(/\s/g, "")] *)
Definition normalizeCompany (toLowerCase : list Z → list Z) (s : string) : list Z :=
  JS.removeWhitespace (toLowerCase (JS.codeUnits s)).

Definition doWorkHistoryRecordsMatch (toLowerCase : list Z → list Z)
    (existing : Existing.t) (newRecord : Parsed.t) : bool :=
  let existingCompany :=
    normalizeCompany toLowerCase (Existing.companyName existing) in
  let newCompany :=
    normalizeCompany toLowerCase (JS.nullish (Parsed.company newRecord) "") in
  let nameDistance := distance existingCompany newCompany in
  if (5 <? nameDistance)%nat then false
  else
    let existingStart := Existing.startDate existing in
    match Parsed.startDate newRecord with
    | None => false                                   (* if (!newStart) *)
    | Some newStart =>
        if JS.strict_neq (monthIndex existingStart) (monthIndex newStart)
        then false
        else
          let existingEnd := Existing.endDate existing in
          let newEnd := Parsed.endDate newRecord in   (* ?? null *)
          match existingEnd, newEnd with
          | None, None => true
          | None, Some _ | Some _, None => false
          | Some existingEnd, Some newEnd =>
              JS.strict_eq (monthIndex existingEnd) (monthIndex newEnd)
          end
    end.

(** ** The database (prisma/schema.prisma)

    Only the three models the router touches, with the columns it reads or
    writes. A table is the list of its rows in insertion order. *)

Module WorkHistory.
Record t := mk {
  id : string;
  userId : string;
  companyName : string;
  jobTitle : string;
  startDate : JS.Date;
  endDate : option JS.Date
}.
End WorkHistory.

Module WorkAchievement.
Record t := mk {
  id : string;
  description : string;
  createdAt : Z;                  (* the stored instant *)
  workHistoryId : string
}.
End WorkAchievement.

Module UserSkill.
Record t := mk {
  id : string;
  userId : string;
  skillId : string;
  proficiency : string;
  source : string;
  notes : option string;
  workHistoryId : option string
}.

(** [{ ...s, workHistoryId: h }] *)
Definition withWorkHistory (h : option string) (s : t) : t :=
  mk (id s) (userId s) (skillId s) (proficiency s) (source s) (notes s) h.
End UserSkill.

Record DB := mkDB {
  workHistories : list WorkHistory.t;
  workAchievements : list WorkAchievement.t;
  userSkills : list UserSkill.t;
  sequence : nat;                   (* source of fresh cuid()s *)
  clock : Z                         (* now() *)
}.

Definition set_workHistories (d : DB) (l : list WorkHistory.t) : DB :=
  mkDB l (workAchievements d) (userSkills d) (sequence d) (clock d).
Definition set_workAchievements (d : DB) (l : list WorkAchievement.t) : DB :=
  mkDB (workHistories d) l (userSkills d) (sequence d) (clock d).
Definition set_userSkills (d : DB) (l : list UserSkill.t) : DB :=
  mkDB (workHistories d) (workAchievements d) l (sequence d) (clock d).
Definition advance (n : nat) (d : DB) : DB :=
  mkDB (workHistories d) (workAchievements d) (userSkills d)
       (sequence d + n) (clock d + 1).

Definition cuid (n : nat) : string := "c" +:+ pretty n.

(** ** Effects

    What a request can observe or cause besides its result: the database,
    the sequence of calls it made, the replies of the LLM and the faults of
    the database (both scripted: each call consumes the head). *)

Inductive Model := WorkHistoryModel | WorkAchievementModel | UserSkillModel.

Inductive Action :=
| FindMany | FindFirst | Create | CreateMany | Update | Delete | DeleteMany.

Definition isWrite (a : Action) : bool :=
  match a with FindMany | FindFirst => false | _ => true end.

(** A thrown JavaScript [Error]. *)
Record Exn := Error { message : string }.

(** The [action] of a final achievement. *)
Inductive MergeAction := merged | optimized.

(** The structured output of the model ([WorkAchievementMergeResultSchema]).
    The code re-checks at run time that [finalAchievements] and
    [originalIndices] are there, so both may be missing here. An index is a
    JavaScript number; one that is not an integer equals no expected index
    and is represented by any integer out of range. *)
Module FinalAchievement.
Record t := mk {
  description : string;
  originalIndices : option (list Z);
  action : MergeAction
}.
End FinalAchievement.

Record WorkAchievementMergeResult := mkMergeResult {
  finalAchievements : option (list FinalAchievement.t);
  reasoning : option string
}.

Inductive LlmReply :=
| Throws (e : Exn)
| Replies (r : WorkAchievementMergeResult).

Inductive Event :=
| Prisma (m : Model) (a : Action)              (* a call on the client *)
| TxBegin | TxCommit | TxRollback              (* db.$transaction *)
| LlmInvoke (achievementsList : string)        (* llm.invoke(prompt) *)
| LlmMerger (existing new : list string)       (* mergeWorkAchievements *)
| NormalizeSkills (skills : list string)       (* normalizeSkills *)
| Match (found : option string)                (* find(doWorkHistoryRecordsMatch) *)
| Dedupe                                       (* removeExactDuplicateWorkAchievements *)
| ConsoleLog (text : string)
| ConsoleError (text : string).

Record World := mkWorld {
  db : DB;
  trace : list Event;
  llm : list LlmReply;
  faults : list (option Exn)
}.

Definition M (A : Type) : Type := World -> (Exn + A) * World.

#[global] Instance M_ret : MRet M := fun A a w => (inr a, w).

#[global] Instance M_bind : MBind M := fun A B k m w =>
  match m w with
  | (inr a, w') => k a w'
  | (inl e, w') => (inl e, w')
  end.

Definition throw {A} (e : Exn) : M A := fun w => (inl e, w).

(** [try { body } catch (error) { handler }] *)
Definition tryCatch {A} (body : M A) (handler : Exn -> M A) : M A := fun w =>
  match body w with
  | (inr a, w') => (inr a, w')
  | (inl e, w') => handler e w'
  end.

Definition emit (ev : Event) : M unit := fun w =>
  (inr tt, mkWorld (db w) (trace w ++ [ev]) (llm w) (faults w)).

(** [for (const x of xs) { await body(x) }] *)
Fixpoint forEach {A} (xs : list A) (body : A -> M unit) : M unit :=
  match xs with
  | [] => mret tt
  | x :: xs' => body x ;; forEach xs' body
  end.

(** The next fault of the script, if any, is raised in place of the call. *)
Definition faultPoint : M unit := fun w =>
  let w' := mkWorld (db w) (trace w) (llm w) (tail (faults w)) in
  match faults w with
  | Some e :: _ => (inl e, w')
  | _ => (inr tt, w')
  end.

(** What a call does to the database once it got through. *)
Definition act {A} (f : DB -> Exn + A * DB) : M A := fun w =>
  match f (db w) with
  | inl e => (inl e, w)
  | inr (x, d) => (inr x, mkWorld d (trace w) (llm w) (faults w))
  end.

(** A client call: it is recorded, may fault, and otherwise acts on the
    database as [f] says. *)
Definition call {A} (m : Model) (a : Action) (f : DB -> Exn + A * DB) : M A :=
  emit (Prisma m a) ;; faultPoint ;; act f.

(** A read never changes the database. *)
Definition query {A} (m : Model) (a : Action) (f : DB -> A) : M A :=
  call m a (fun d => inr (f d, d)).

(** [db.$transaction(async (tx) => body)]: all of [body] or nothing. Opening
    and committing can fail like any other call. *)
Definition transaction {A} (body : M A) : M A := fun w =>
  let start := db w in
  let rollback (e : Exn) : M A := fun w' =>
    (inl e, mkWorld start (trace w' ++ [TxRollback]) (llm w') (faults w')) in
  (emit TxBegin ;;
   faultPoint ;;
   tryCatch
     (r ← body; emit TxCommit ;; faultPoint ;; mret r)
     rollback) w.

Definition nextReply : M WorkAchievementMergeResult := fun w =>
  let w' := mkWorld (db w) (trace w) (tail (llm w)) (faults w) in
  match llm w with
  | Replies r :: _ => (inr r, w')
  | Throws e :: _ => (inl e, w')
  | [] => (inl (Error "fetch failed"), w')
  end.

(** [llm.invoke(prompt)]: the prompt is the fixed instruction text around
    the numbered list of achievements. *)
Definition invoke (achievementsList : string) : M WorkAchievementMergeResult :=
  emit (LlmInvoke achievementsList) ;; nextReply.

(** ** The Prisma client calls the router makes *)

(** A work-history row together with the relations an [include] asks for. *)
Module Included.
Record t := mk {
  record : WorkHistory.t;
  achievements : list WorkAchievement.t;
  userSkills : list UserSkill.t
}.
End Included.

Module Client.

Definition achievementsOf (d : DB) (whId : string) : list WorkAchievement.t :=
  filter (λ a, WorkAchievement.workHistoryId a = whId) (workAchievements d).

Definition userSkillsOf (d : DB) (whId : string) : list UserSkill.t :=
  filter (λ s, UserSkill.workHistoryId s = Some whId) (userSkills d).

Definition hasWorkHistory (d : DB) (whId : string) : bool :=
  bool_decide (whId ∈ WorkHistory.id <$> workHistories d).

(** The client refuses an invalid [Date] as a column value. *)
Definition validDate (x : JS.Date) : bool :=
  match x with JS.InvalidDate => false | _ => true end.

Definition validDates (r : WorkHistory.t) : bool :=
  validDate (WorkHistory.startDate r)
  && from_option validDate true (WorkHistory.endDate r).

(** A read that asks for no order gets its rows in the order the database
    pleases: [listed] is that order, an argument of the read. *)
Definition withRelations (listed : ∀ A : Type, list A → list A)
    (skills : bool) (d : DB) (r : WorkHistory.t) : Included.t :=
  Included.mk r (listed _ (achievementsOf d (WorkHistory.id r)))
              (if skills then listed _ (userSkillsOf d (WorkHistory.id r)) else []).

(** [workHistory.findMany({ where, include })] *)
Definition workHistory_findMany (listed : ∀ A : Type, list A → list A)
    (P : WorkHistory.t → Prop)
    `{!∀ r, Decision (P r)} (skills : bool) : M (list Included.t) :=
  query WorkHistoryModel FindMany
        (λ d, withRelations listed skills d <$> listed _ (filter P (workHistories d))).

(** [workHistory.findFirst({ where })] *)
Definition workHistory_findFirst (P : WorkHistory.t → Prop)
    `{!∀ r, Decision (P r)} : M (option WorkHistory.t) :=
  query WorkHistoryModel FindFirst (λ d, head (filter P (workHistories d))).

(** [workHistory.create({ data })] with a fresh id. *)
Definition workHistory_create (data : string → WorkHistory.t) : M WorkHistory.t :=
  call WorkHistoryModel Create (λ d,
    let r := data (cuid (sequence d)) in
    if validDates r
    then inr (r, advance 1 (set_workHistories d (workHistories d ++ [r])))
    else inl (Error "Invalid value for argument: Provided Date object is invalid")).

(** [workHistory.update({ where: { id }, data })] *)
Definition workHistory_update (whId : string)
    (data : WorkHistory.t → WorkHistory.t) : M WorkHistory.t :=
  call WorkHistoryModel Update (λ d,
    match head (filter (λ r, WorkHistory.id r = whId) (workHistories d)) with
    | None => inl (Error "Record to update not found")
    | Some r =>
        if validDates (data r)
        then inr (data r,
                  advance 0 (set_workHistories d
                    ((λ r, if decide (WorkHistory.id r = whId) then data r else r)
                       <$> workHistories d)))
        else inl (Error "Invalid value for argument: Provided Date object is invalid")
    end).

(** [onDelete: SetNull]: a user skill of a deleted work history loses its
    link. *)
Definition detachFrom (gone : list string) (s : UserSkill.t) : UserSkill.t :=
  match UserSkill.workHistoryId s with
  | Some h => if decide (h ∈ gone) then UserSkill.withWorkHistory None s else s
  | None => s
  end.

(** [workHistory.deleteMany({ where })]. The schema deletes the
    achievements of a deleted work history with it ([onDelete: Cascade])
    and detaches its user skills ([onDelete: SetNull]). *)
Definition workHistory_deleteMany (P : WorkHistory.t → Prop)
    `{!∀ r, Decision (P r)} : M unit :=
  call WorkHistoryModel DeleteMany (λ d,
    let gone := WorkHistory.id <$> filter P (workHistories d) in
    let d1 := set_workHistories d (filter (λ r, ¬ P r) (workHistories d)) in
    let d2 := set_workAchievements d1
                (filter (λ a, WorkAchievement.workHistoryId a ∉ gone)
                        (workAchievements d)) in
    inr (tt, advance 0 (set_userSkills d2 (detachFrom gone <$> userSkills d)))).

Definition createdNotAfter (a b : WorkAchievement.t) : Prop :=
  WorkAchievement.createdAt a ≤ WorkAchievement.createdAt b.

#[global] Instance createdNotAfter_dec a b : Decision (createdNotAfter a b).
Proof. unfold createdNotAfter. apply _. Defined.

(** [workAchievement.findMany({ where: { workHistoryId },
     orderBy: { createdAt: "asc" } })] *)
Definition workAchievement_findMany (whId : string) : M (list WorkAchievement.t) :=
  query WorkAchievementModel FindMany (λ d,
    merge_sort createdNotAfter (achievementsOf d whId)).

(** The rows a [create] or [createMany] inserts for these descriptions:
    fresh ids, [createdAt] defaulting to now. *)
Definition newAchievements (d : DB) (whId : string) (descriptions : list string)
    : list WorkAchievement.t :=
  imap (λ i description,
          WorkAchievement.mk (cuid (sequence d + i)) description (clock d) whId)
       descriptions.

(** [workAchievement.createMany({ data })], every row for [whId]. *)
Definition workAchievement_createMany (whId : string)
    (descriptions : list string) : M unit :=
  call WorkAchievementModel CreateMany (λ d,
    if hasWorkHistory d whId || bool_decide (descriptions = [])
    then inr (tt, advance (length descriptions)
                    (set_workAchievements d
                       (workAchievements d ++ newAchievements d whId descriptions)))
    else inl (Error "Foreign key constraint failed")).

(** [workAchievement.create({ data: { description,
     workHistory: { connect: { id } } } })] *)
Definition workAchievement_create (whId description : string) : M unit :=
  call WorkAchievementModel Create (λ d,
    if hasWorkHistory d whId
    then inr (tt, advance 1
                    (set_workAchievements d
                       (workAchievements d ++ newAchievements d whId [description])))
    else inl (Error "No WorkHistory record was found for a nested connect")).

(** [workAchievement.deleteMany({ where })] *)
Definition workAchievement_deleteMany (P : WorkAchievement.t → Prop)
    `{!∀ a, Decision (P a)} : M unit :=
  call WorkAchievementModel DeleteMany (λ d,
    inr (tt, advance 0 (set_workAchievements d
                          (filter (λ a, ¬ P a) (workAchievements d))))).

(** [userSkill.findFirst({ where })] *)
Definition userSkill_findFirst (P : UserSkill.t → Prop)
    `{!∀ s, Decision (P s)} : M (option UserSkill.t) :=
  query UserSkillModel FindFirst (λ d, head (filter P (userSkills d))).

(** [userSkill.update({ where: { id }, data })] *)
Definition userSkill_update (usId : string)
    (data : UserSkill.t → UserSkill.t) : M unit :=
  call UserSkillModel Update (λ d,
    match head (filter (λ s, UserSkill.id s = usId) (userSkills d)) with
    | None => inl (Error "Record to update not found")
    | Some s =>
        if from_option (hasWorkHistory d) true (UserSkill.workHistoryId (data s))
        then inr (tt, advance 0 (set_userSkills d
                   ((λ s, if decide (UserSkill.id s = usId) then data s else s)
                      <$> userSkills d)))
        else inl (Error "Foreign key constraint failed")
    end).

(** [userSkill.delete({ where: { id } })] *)
Definition userSkill_delete (usId : string) : M unit :=
  call UserSkillModel Delete (λ d,
    match head (filter (λ s, UserSkill.id s = usId) (userSkills d)) with
    | None => inl (Error "Record to delete does not exist")
    | Some _ =>
        inr (tt, advance 0 (set_userSkills d
               (filter (λ s, UserSkill.id s ≠ usId) (userSkills d))))
    end).

(** [userSkill.create({ data })]; the schema has
    [@@unique([userId, skillId])]. *)
Definition userSkill_create (data : string → UserSkill.t) : M unit :=
  call UserSkillModel Create (λ d,
    let s := data (cuid (sequence d)) in
    if bool_decide (Exists (λ s', UserSkill.userId s' = UserSkill.userId s
                                  ∧ UserSkill.skillId s' = UserSkill.skillId s)
                           (userSkills d))
    then inl (Error "Unique constraint failed on the fields: (userId, skillId)")
    else if from_option (hasWorkHistory d) true (UserSkill.workHistoryId s)
    then inr (tt, advance 1 (set_userSkills d (userSkills d ++ [s])))
    else inl (Error "Foreign key constraint failed")).

End Client.

(** ** Exact de-duplication *)

(** The variables of the loop of [removeExactDuplicateWorkAchievements]. *)
Record Scan := mkScan {
  seen : gset (list Z);
  uniqueAchievements : list WorkAchievement.t;
  exactDuplicatesRemoved : nat
}.

Section ExactDuplicates.

(** [String.prototype.toLowerCase] of the engine. *)
Variable toLowerCase : list Z → list Z.

(** [achievement.description.trim().toLowerCase()] *)
Definition normalizedDescription (a : WorkAchievement.t) : list Z :=
  toLowerCase (JS.trim (JS.codeUnits (WorkAchievement.description a))).

Definition scanStep (s : Scan) (achievement : WorkAchievement.t) : Scan :=
  let n := normalizedDescription achievement in
  if decide (n ∈ seen s)
  then mkScan (seen s) (uniqueAchievements s) (S (exactDuplicatesRemoved s))
  else mkScan ({[n]} ∪ seen s) (uniqueAchievements s ++ [achievement])
              (exactDuplicatesRemoved s).

Definition removeExactDuplicateWorkAchievements
    (achievements : list WorkAchievement.t) : list WorkAchievement.t * nat :=
  let s := foldl scanStep (mkScan ∅ [] 0) achievements in
  (uniqueAchievements s, exactDuplicatesRemoved s).

End ExactDuplicates.

(** ** Merging with the LLM *)

(** The value [mergeWorkAchievementsWithAI] resolves to; an element
    [{ description }] of [finalAchievements] is kept as its description. *)
Module Merged.
Record t := mk {
  finalAchievements : list string;
  groupsMerged : nat
}.
End Merged.

Definition newline : string := String (ascii_of_nat 10) EmptyString.

(** [achievements.map((a, index) => `${index + 1}. ${a.description}`).join("\n")] *)
Definition achievementsList (achievements : list WorkAchievement.t) : string :=
  String.concat newline
    (imap (λ index a, pretty (index + 1)%nat +:+ ". " +:+ WorkAchievement.description a)
          achievements).

(** The loop that fills [allReferencedIndices]. *)
Fixpoint collectIndices (finals : list FinalAchievement.t)
    (allReferencedIndices : gset Z) : M (gset Z) :=
  match finals with
  | [] => mret allReferencedIndices
  | achievement :: rest =>
      match FinalAchievement.originalIndices achievement with
      | None | Some [] =>
          throw (Error "Each final achievement must have originalIndices")
      | Some indices =>
          collectIndices rest
            (foldl (λ s index, {[index]} ∪ s) allReferencedIndices indices)
      end
  end.

Definition missingIndices (n : nat) (allReferencedIndices : gset Z) : list Z :=
  filter (λ i, i ∉ allReferencedIndices) (seqZ 1 (Z.of_nat n)).

(** The part of the [try] block that follows the call: the validation of
    the reply and the value built from it. *)
Definition validated (achievements : list WorkAchievement.t)
    (aiResult : WorkAchievementMergeResult) : M Merged.t :=
  match finalAchievements aiResult with
  | None => throw (Error "Invalid AI response structure")
  | Some finals =>
      allReferencedIndices ← collectIndices finals ∅;
      let missing := missingIndices (length achievements) allReferencedIndices in
      if (0 <? length missing)%nat
      then
        emit (ConsoleError "Missing achievement indices:") ;;
        throw (Error ("AI failed to account for achievements: "
                      +:+ String.concat ", " (pretty <$> missing)))
      else
        let groupsMerged :=
          Z.to_nat (Z.max 0 (Z.of_nat (length achievements)
                             - Z.of_nat (length finals))) in
        emit (ConsoleLog "AI Work Achievement Merging Result:") ;;
        mret (Merged.mk (FinalAchievement.description <$> finals) groupsMerged)
  end.

(** The [try] block of [mergeWorkAchievementsWithAI]. *)
Definition mergeAttempt (achievements : list WorkAchievement.t) : M Merged.t :=
  aiResult ← invoke (achievementsList achievements);
  validated achievements aiResult.

Definition mergeWorkAchievementsWithAI
    (achievements : list WorkAchievement.t) : M Merged.t :=
  if (length achievements <=? 1)%nat
  then mret (Merged.mk (WorkAchievement.description <$> achievements) 0)
  else
    tryCatch (mergeAttempt achievements)
      (λ error,
         emit (ConsoleError "Error in AI work achievement merging:") ;;
         mret (Merged.mk (WorkAchievement.description <$> achievements) 0)).

(** ** De-duplicating and merging the achievements of a work history *)

Inductive PreviewAction := Kept | MergedEntry | Final.

Module Deduplication.
Record t := mk {
  success : bool;
  message : string;
  originalCount : nat;
  finalCount : nat;
  exactDuplicatesRemoved : nat;
  similarGroupsMerged : nat;
  preview : list (string * PreviewAction)
}.
End Deduplication.

Definition deduplicateAndMergeWorkAchievements (toLowerCase : list Z → list Z)
    (userId workHistoryId : string) (dryRun : bool) : M Deduplication.t :=
  workHistory ← Client.workHistory_findFirst
    (λ r, WorkHistory.id r = workHistoryId ∧ WorkHistory.userId r = userId);
  match workHistory with
  | None => throw (Error "Work history not found or access denied")
  | Some _ =>
      achievements ← Client.workAchievement_findMany workHistoryId;
      if (length achievements <=? 1)%nat
      then
        mret (Deduplication.mk true
                "No deduplication needed - this work history has 1 or fewer achievements."
                (length achievements) (length achievements) 0 0 [])
      else
        emit Dedupe ;;
        let '(uniqueAchievements, exactDuplicatesRemoved) :=
          removeExactDuplicateWorkAchievements toLowerCase achievements in
        if (length uniqueAchievements <=? 1)%nat
        then
          (if negb dryRun && (0 <? exactDuplicatesRemoved)%nat
           then
             transaction (
               let duplicateIds :=
                 WorkAchievement.id <$>
                   filter (λ a, WorkAchievement.id a
                                ∉ WorkAchievement.id <$> uniqueAchievements)
                          achievements in
               Client.workAchievement_deleteMany
                 (λ a, WorkAchievement.id a ∈ duplicateIds
                       ∧ WorkAchievement.workHistoryId a = workHistoryId))
           else mret tt) ;;
          mret (Deduplication.mk true
                  ("Removed " +:+ pretty exactDuplicatesRemoved
                   +:+ " exact duplicates. No similar achievements to merge.")
                  (length achievements) (length uniqueAchievements)
                  exactDuplicatesRemoved 0
                  ((λ a, (WorkAchievement.description a, Kept)) <$> uniqueAchievements))
        else
          mergeResult ← mergeWorkAchievementsWithAI uniqueAchievements;
          if dryRun
          then
            mret (Deduplication.mk true
                    "Preview of work achievement deduplication and merge process"
                    (length achievements)
                    (length (Merged.finalAchievements mergeResult))
                    exactDuplicatesRemoved (Merged.groupsMerged mergeResult)
                    ((λ a, (a, MergedEntry)) <$> Merged.finalAchievements mergeResult))
          else
            transaction (
              Client.workAchievement_deleteMany
                (λ a, WorkAchievement.workHistoryId a = workHistoryId) ;;
              Client.workAchievement_createMany workHistoryId
                (Merged.finalAchievements mergeResult)) ;;
            mret (Deduplication.mk true
                    ("Successfully deduplicated and merged work achievements. Removed "
                     +:+ pretty exactDuplicatesRemoved
                     +:+ " exact duplicates and merged "
                     +:+ pretty (Merged.groupsMerged mergeResult)
                     +:+ " groups of similar achievements.")
                    (length achievements)
                    (length (Merged.finalAchievements mergeResult))
                    exactDuplicatesRemoved (Merged.groupsMerged mergeResult)
                    ((λ a, (a, Final)) <$> Merged.finalAchievements mergeResult))
  end.

(** ** Applying the achievements the user approved *)

Module Applied.
Record t := mk {
  success : bool;
  message : string;
  appliedCount : nat
}.
End Applied.

Definition applyApprovedWorkAchievements
    (userId workHistoryId : string) (approvedAchievements : list string)
    : M Applied.t :=
  workHistory ← Client.workHistory_findFirst
    (λ r, WorkHistory.id r = workHistoryId ∧ WorkHistory.userId r = userId);
  match workHistory with
  | None => throw (Error "Work history not found or access denied")
  | Some _ =>
      transaction (
        Client.workAchievement_deleteMany
          (λ a, WorkAchievement.workHistoryId a = workHistoryId) ;;
        Client.workAchievement_createMany workHistoryId approvedAchievements) ;;
      mret (Applied.mk true
              ("Successfully applied " +:+ pretty (length approvedAchievements)
               +:+ " approved achievements.")
              (length approvedAchievements))
  end.

(** ** Merging work-history records *)

Module MergedDetails.
Record t := mk {
  companyName : string;
  jobTitle : string;
  startDate : string;
  endDate : option string
}.
End MergedDetails.

Module MergedRecord.
Record t := mk {
  id : string;
  companyName : string;
  jobTitle : string;
  startDate : JS.Date;
  endDate : option JS.Date
}.
End MergedRecord.

Module Merge.
Record t := mk {
  success : bool;
  message : string;
  mergedRecord : MergedRecord.t
}.
End Merge.

Section MergeRecords.

(** [new Date(text)]: the parser of the JavaScript engine. *)
Variable newDate : string → JS.Date.

(** The order in which the database lists the rows of [findMany]. *)
Variable listed : ∀ A : Type, list A → list A.

(** [mergedDetails.endDate ? new Date(mergedDetails.endDate) : null];
    the empty string is falsy. *)
Definition endDateOf (mergedDetails : MergedDetails.t) : option JS.Date :=
  match MergedDetails.endDate mergedDetails with
  | None => None
  | Some text => if bool_decide (text = "") then None else Some (newDate text)
  end.

Definition withMergedDetails (mergedDetails : MergedDetails.t)
    (r : WorkHistory.t) : WorkHistory.t :=
  WorkHistory.mk (WorkHistory.id r) (WorkHistory.userId r)
    (MergedDetails.companyName mergedDetails)
    (MergedDetails.jobTitle mergedDetails)
    (newDate (MergedDetails.startDate mergedDetails))
    (endDateOf mergedDetails).

Definition asMergedRecord (r : WorkHistory.t) : MergedRecord.t :=
  MergedRecord.mk (WorkHistory.id r) (WorkHistory.companyName r)
    (WorkHistory.jobTitle r) (WorkHistory.startDate r) (WorkHistory.endDate r).

(** The callback of [db.$transaction] in [mergeWorkHistoryRecords]. *)
Definition mergeInTransaction (userId primaryRecordId : string)
    (secondaryRecordIds : list string) (mergedDetails : MergedDetails.t)
    (primaryRecord : Included.t) (secondaryRecords : list Included.t)
    : M WorkHistory.t :=
  (* 1. update the primary record with the merged details *)
  updatedPrimary ← Client.workHistory_update primaryRecordId
                     (withMergedDetails mergedDetails);
  (* 2. achievements of the secondary records the primary does not have *)
  let allAchievements :=
    secondaryRecords ≫= (λ record,
      WorkAchievement.description <$> Included.achievements record) in
  let existingAchievements :=
    WorkAchievement.description <$> Included.achievements primaryRecord in
  let uniqueNewAchievements :=
    filter (λ achievement, achievement ∉ existingAchievements) allAchievements in
  (if (0 <? length uniqueNewAchievements)%nat
   then Client.workAchievement_createMany primaryRecordId uniqueNewAchievements
   else mret tt) ;;
  (* 3. skills of the secondary records *)
  let allSecondarySkills := secondaryRecords ≫= Included.userSkills in
  let existingPrimarySkillIds : gset string :=
    list_to_set (UserSkill.skillId <$> Included.userSkills primaryRecord) in
  forEach allSecondarySkills (λ userSkill,
    if decide (UserSkill.skillId userSkill ∉ existingPrimarySkillIds)
    then
      Client.userSkill_update (UserSkill.id userSkill)
        (UserSkill.withWorkHistory (Some primaryRecordId))
    else Client.userSkill_delete (UserSkill.id userSkill)) ;;
  (* 4. delete the secondary records *)
  Client.workHistory_deleteMany
    (λ r, WorkHistory.id r ∈ secondaryRecordIds ∧ WorkHistory.userId r = userId) ;;
  mret updatedPrimary.

(** The [try] block of [mergeWorkHistoryRecords]. *)
Definition mergeRecordsAttempt (userId primaryRecordId : string)
    (secondaryRecordIds : list string) (mergedDetails : MergedDetails.t)
    : M Merge.t :=
  let allRecordIds := primaryRecordId :: secondaryRecordIds in
  workHistories ← Client.workHistory_findMany listed
    (λ r, WorkHistory.id r ∈ allRecordIds ∧ WorkHistory.userId r = userId)
    true;
  if negb (length workHistories =? length allRecordIds)%nat
  then throw (Error
         "One or more work history records not found or don't belong to user")
  else
    let primaryRecord :=
      head (filter (λ wh, WorkHistory.id (Included.record wh) = primaryRecordId)
                   workHistories) in
    let secondaryRecords :=
      filter (λ wh, WorkHistory.id (Included.record wh) ∈ secondaryRecordIds)
             workHistories in
    match primaryRecord with
    | None => throw (Error "Primary record not found")
    | Some primaryRecord =>
        result ← transaction
          (mergeInTransaction userId primaryRecordId secondaryRecordIds
             mergedDetails primaryRecord secondaryRecords);
        mret (Merge.mk true
                ("Successfully merged " +:+ pretty (length secondaryRecordIds)
                 +:+ " work history records")
                (asMergedRecord result))
    end.

Definition mergeWorkHistoryRecords (userId primaryRecordId : string)
    (secondaryRecordIds : list string) (mergedDetails : MergedDetails.t)
    : M Merge.t :=
  tryCatch
    (mergeRecordsAttempt userId primaryRecordId secondaryRecordIds mergedDetails)
    (λ error,
       emit (ConsoleError "Error merging work history records:") ;;
       mret (Merge.mk false
               ("Failed to merge work history records: " +:+ message error)
               (MergedRecord.mk primaryRecordId
                  (MergedDetails.companyName mergedDetails)
                  (MergedDetails.jobTitle mergedDetails)
                  (newDate (MergedDetails.startDate mergedDetails))
                  (endDateOf mergedDetails)))).

End MergeRecords.

(** ** Processing the work experience of a parsed resume *)

Module NormalizedSkill.
Record t := mk {
  baseSkillId : string;
  detailedVariant : option string
}.
End NormalizedSkill.

Section ProcessWorkExperience.

(** [mergeWorkAchievements] of [./utils/llm-merger] and [normalizeSkills]
    of the skill-normalization service: what they answer, or the error
    they throw, for given arguments. *)
Variable mergeWorkAchievements : list string → list string → Exn + list string.
Variable normalizeSkills : list string → Exn + list NormalizedSkill.t.

(** [new Date()] *)
Variable now : JS.Date.

(** [String.prototype.toLowerCase] of the engine. *)
Variable toLowerCase : list Z → list Z.

(** The order in which the database lists the rows of [findMany]. *)
Variable listed : ∀ A : Type, list A → list A.

Definition await {A} (r : Exn + A) : M A := fun w => (r, w).

Definition asExisting (wh : Included.t) : Existing.t :=
  let r := Included.record wh in
  Existing.mk (WorkHistory.companyName r) (WorkHistory.startDate r)
              (WorkHistory.endDate r).

(** An optional string inside a template literal. *)
Definition shown (o : option string) : string := default "undefined" o.

(** [!existingUserSkill.workHistoryId] *)
Definition unlinked (s : UserSkill.t) : bool :=
  match UserSkill.workHistoryId s with
  | None => true
  | Some h => bool_decide (h = "")
  end.

(** The part of the loop body that stores the skills of one entry. *)
Definition processSkills (userId workHistoryId : string) (exp : Parsed.t) : M unit :=
  let skills := default [] (Parsed.skills exp) in
  if (0 <? length skills)%nat
  then
    emit (NormalizeSkills (filter (λ s, JS.trim (JS.codeUnits s) ≠ []) skills)) ;;
    normalizedSkills ←
      await (normalizeSkills (filter (λ s, JS.trim (JS.codeUnits s) ≠ []) skills));
    forEach normalizedSkills (λ normalizedSkill,
      existingUserSkill ← Client.userSkill_findFirst
        (λ s, UserSkill.userId s = userId
              ∧ UserSkill.skillId s = NormalizedSkill.baseSkillId normalizedSkill);
      match existingUserSkill with
      | Some existingUserSkill =>
          if unlinked existingUserSkill
          then
            Client.userSkill_update (UserSkill.id existingUserSkill)
              (λ s, UserSkill.mk (UserSkill.id s) (UserSkill.userId s)
                      (UserSkill.skillId s) (UserSkill.proficiency s)
                      (UserSkill.source s)
                      (Some ("Used at " +:+ shown (Parsed.company exp) +:+ " - "
                             +:+ shown (Parsed.jobTitle exp)))
                      (Some workHistoryId))
          else mret tt
      | None =>
          Client.userSkill_create (λ id,
            UserSkill.mk id userId
              (NormalizedSkill.baseSkillId normalizedSkill)
              "INTERMEDIATE" "WORK_EXPERIENCE"
              (Some ("Used at " +:+ shown (Parsed.company exp) +:+ " - "
                     +:+ shown (Parsed.jobTitle exp)
                     +:+ match NormalizedSkill.detailedVariant normalizedSkill with
                         | Some v => if bool_decide (v = "") then ""
                                     else " (" +:+ v +:+ ")"
                         | None => ""
                         end))
              (Some workHistoryId))
      end)
  else mret tt.

(** The body of the loop over the parsed entries. *)
Definition processEntry (userId : string)
    (existingWorkHistory : list Included.t) (exp : Parsed.t) : M unit :=
  let matchingRecord :=
    List.find (λ existing,
                 doWorkHistoryRecordsMatch toLowerCase (asExisting existing) exp)
              existingWorkHistory in
  emit (Match ((λ m, WorkHistory.id (Included.record m)) <$> matchingRecord)) ;;
  workHistoryId ←
    match matchingRecord with
    | Some matchingRecord =>
        let found := Included.record matchingRecord in
        emit (ConsoleLog ("Found matching work history: "
                          +:+ WorkHistory.companyName found +:+ " - "
                          +:+ WorkHistory.jobTitle found)) ;;
        let existingAchievements :=
          WorkAchievement.description <$> Included.achievements matchingRecord in
        let newAchievements := default [] (Parsed.achievements exp) in
        emit (LlmMerger existingAchievements newAchievements) ;;
        mergedAchievements ←
          await (mergeWorkAchievements existingAchievements newAchievements);
        Client.workHistory_update (WorkHistory.id found)
          (λ r, WorkHistory.mk (WorkHistory.id r) (WorkHistory.userId r)
                  (WorkHistory.companyName r)
                  (JS.nullish (Parsed.jobTitle exp) (WorkHistory.jobTitle found))
                  (JS.nullish (Parsed.startDate exp) (WorkHistory.startDate found))
                  (match Parsed.endDate exp with
                   | Some e => Some e
                   | None => WorkHistory.endDate found
                   end)) ;;
        forEach mergedAchievements
          (Client.workAchievement_create (WorkHistory.id found)) ;;
        mret (WorkHistory.id found)
    | None =>
        wh ← Client.workHistory_create (λ id,
               WorkHistory.mk id userId
                 (JS.nullish (Parsed.company exp) "")
                 (JS.nullish (Parsed.jobTitle exp) "")
                 (JS.nullish (Parsed.startDate exp) now)
                 (Parsed.endDate exp));
        let responsibilities := default [] (Parsed.achievements exp) in
        forEach responsibilities
          (Client.workAchievement_create (WorkHistory.id wh)) ;;
        mret (WorkHistory.id wh)
    end;
  processSkills userId workHistoryId exp.

Definition processWorkExperience (workExperience : list Parsed.t)
    (userId : string) : M unit :=
  existingWorkHistory ← Client.workHistory_findMany listed
    (λ r, WorkHistory.userId r = userId) false;
  forEach workExperience (processEntry userId existingWorkHistory).

End ProcessWorkExperience.

(** ** Notions the stated properties are phrased in *)

(** "Falls in the same calendar month and year". *)
Definition sameCalendarMonth (a b : JS.Date) : Prop :=
  match a, b with
  | JS.LocalDate y m _, JS.LocalDate y' m' _ => y = y' /\ m = m'
  | _, _ => False
  end.

Definition optionDateWf (o : option JS.Date) : Prop :=
  match o with Some d => JS.date_wf d | None => True end.

Section Occurrences.

(** Lower-casing, as the engine does it. *)
Variable toLowerCase : list Z → list Z.

(** A description as it is compared: trimmed, then lower-cased. *)
Definition compared (a : WorkAchievement.t) : list Z :=
  toLowerCase (JS.trim (JS.codeUnits (WorkAchievement.description a))).

(** The achievement at position [i] of [l] repeats the compared
    description of an achievement at an earlier position. *)
Definition seenEarlier (l : list WorkAchievement.t) (i : nat)
    (a : WorkAchievement.t) : Prop :=
  compared a ∈ compared <$> take i l.

#[global] Instance seenEarlier_dec l i a : Decision (seenEarlier l i a).
Proof. unfold seenEarlier. apply _. Defined.

(** The achievements that are the first of their compared description, in
    the order of the list. *)
Definition firstOccurrences (l : list WorkAchievement.t) : list WorkAchievement.t :=
  concat (imap (λ i a, if decide (seenEarlier l i a) then [] else [a]) l).

(** The number of positions holding a description seen earlier. *)
Definition laterOccurrences (l : list WorkAchievement.t) : nat :=
  length (concat (imap (λ i a, if decide (seenEarlier l i a) then [a] else []) l)).

End Occurrences.

(** Every final achievement of a reply names at least one original, and
    every original from 1 to [n] is named by some final achievement. *)
Definition accountsForAll (n : nat) (finals : list FinalAchievement.t) : Prop :=
  (∀ fa, fa ∈ finals →
         ∃ indices, FinalAchievement.originalIndices fa = Some indices
                    ∧ indices ≠ [])
  ∧ (∀ i : Z, 1 ≤ i ≤ Z.of_nat n →
         ∃ fa indices, fa ∈ finals
                       ∧ FinalAchievement.originalIndices fa = Some indices
                       ∧ i ∈ indices).

(** The reply passes the validation of [mergeWorkAchievementsWithAI]. *)
Definition accepted (n : nat) (r : WorkAchievementMergeResult) : Prop :=
  ∃ finals, finalAchievements r = Some finals ∧ accountsForAll n finals.

Definition named (fa : FinalAchievement.t) : Prop :=
  ∃ indices, FinalAchievement.originalIndices fa = Some indices ∧ indices ≠ [].

Definition namedBy (finals : list FinalAchievement.t) (i : Z) : Prop :=
  ∃ fa indices, fa ∈ finals
                ∧ FinalAchievement.originalIndices fa = Some indices
                ∧ i ∈ indices.

(** The world right after [llm.invoke] was called. *)
Definition afterInvoke (achievements : list WorkAchievement.t) (w : World) : World :=
  mkWorld (db w) (trace w ++ [LlmInvoke (achievementsList achievements)])
          (tail (llm w)) (faults w).

(** The value of the early return and of the [catch] block. *)
Definition inputDescriptions (achievements : list WorkAchievement.t) : Merged.t :=
  Merged.mk (WorkAchievement.description <$> achievements) 0.

(** A quantity written in a bullet: a non-empty run of digits, as in a
    percentage, an amount, a time frame or a head count. *)
Definition isDigit (c : ascii) : bool :=
  let n := nat_of_ascii c in (48 <=? n)%nat && (n <=? 57)%nat.

Fixpoint allDigits (t : string) : bool :=
  match t with
  | EmptyString => true
  | String c t' => isDigit c && allDigits t'
  end.

Definition metric (t : string) : bool :=
  negb (String.eqb t "") && allDigits t.

(** [t] occurs in [s]. *)
Fixpoint occursIn (t s : string) : bool :=
  String.prefix t s
  || match s with
     | EmptyString => false
     | String _ s' => occursIn t s'
     end.

Definition mentions (bullets : list string) (t : string) : bool :=
  existsb (occursIn t) bullets.

(** Every quantity of the input bullets is in the output bullets, and the
    output bullets state no quantity the input did not. *)
Definition preservesFacts (inputs outputs : list string) : Prop :=
  ∀ t, metric t = true →
       (mentions inputs t = true → mentions outputs t = true)
       ∧ (mentions outputs t = true → mentions inputs t = true).

(** ** Relating the world before and after a run *)

(** Every run of [m] takes a world to one related to it by [R]. *)
Definition sat {A} (R : World → World → Prop) (m : M A) : Prop :=
  ∀ w, R w (m w).2.

(** An event that writes nothing: anything but a writing client call or a
    transaction. *)
Definition quiet (ev : Event) : bool :=
  match ev with
  | Prisma _ a => negb (isWrite a)
  | TxBegin | TxCommit | TxRollback => false
  | _ => true
  end.

(** [w'] is [w] after reads only: the database is the same and the calls
    made in between are quiet. *)
Definition readOnly (w w' : World) : Prop :=
  db w' = db w
  ∧ ∃ t, trace w' = trace w ++ t ∧ Forall (λ ev, quiet ev = true) t.

(** No scripted fault among the next [n] calls. *)
Definition faultFree (n : nat) (w : World) : Prop :=
  Forall (λ f, f = None) (take n (faults w)).

(** No scripted fault at all: no call to the database is made to fail. *)
Definition faultless (w : World) : Prop := Forall (λ f, f = None) (faults w).

(** Whatever order the database lists rows in, it lists the rows that
    qualify, each once. *)
Definition arrangement (listed : ∀ A : Type, list A → list A) : Prop :=
  ∀ A (l : list A), listed A l ≡ₚ l.

(** Started where no call fails and the database satisfies [P], [m]
    returns, in a world where still no call fails, a result and a database
    that satisfy [Q]. *)
Definition succeeds {A} (P : DB → Prop) (m : M A) (Q : A → DB → Prop) : Prop :=
  ∀ w, faultless w → P (db w) →
    ∃ a w', m w = (inr a, w') ∧ faultless w' ∧ Q a (db w').

(** ** The state a merge of work-history records leaves *)

(** Primary keys: no two rows of a table share their [id]. *)
Definition wellKeyed (d : DB) : Prop :=
  NoDup (WorkHistory.id <$> workHistories d)
  ∧ NoDup (UserSkill.id <$> userSkills d).

(** The descriptions of the achievements of the secondary records, record
    by record. *)
Definition secondaryDescriptions (d : DB) (secondaryRecordIds : list string)
    : list string :=
  filter (λ r, WorkHistory.id r ∈ secondaryRecordIds) (workHistories d)
    ≫= (λ r, WorkAchievement.description
               <$> Client.achievementsOf d (WorkHistory.id r)).

(** The row of the primary record after the merge, any other row as it
    is. *)
Definition mergedRow (newDate : string → JS.Date) (primaryRecordId : string)
    (mergedDetails : MergedDetails.t) (r : WorkHistory.t) : WorkHistory.t :=
  if decide (WorkHistory.id r = primaryRecordId)
  then withMergedDetails newDate mergedDetails r else r.

(** The ids handed to the merge are pairwise distinct and each is the id of
    a work history of the user. *)
Definition selected (userId primaryRecordId : string)
    (secondaryRecordIds : list string) (d : DB) : Prop :=
  NoDup (primaryRecordId :: secondaryRecordIds)
  ∧ ∀ i, i ∈ primaryRecordId :: secondaryRecordIds →
         ∃ r, r ∈ workHistories d ∧ WorkHistory.id r = i
              ∧ WorkHistory.userId r = userId.

(** Between [w] and [w'] some calls were made and none of them hit a fault
    of the script. *)
Definition faultsPassed (w w' : World) : Prop :=
  ∃ n, faults w' = drop n (faults w) ∧ Forall (λ f, f = None) (take n (faults w)).

(** Every run of [m] that returns relates the worlds before and after by
    [R]. *)
Definition onReturn {A} (R : World → World → Prop) (m : M A) : Prop :=
  ∀ w a w', m w = (inr a, w') → R w w'.

(** What becomes of a user skill: one of a secondary record moves to the
    primary record, unless the primary record has the same skill, in which
    case it is deleted; any other stays as it is. *)
Definition mergedSkill (d : DB) (primaryRecordId : string)
    (secondaryRecordIds : list string) (s : UserSkill.t) : option UserSkill.t :=
  match UserSkill.workHistoryId s with
  | Some h =>
      if decide (h ∈ secondaryRecordIds)
      then
        if decide (UserSkill.skillId s
                   ∈ UserSkill.skillId <$> Client.userSkillsOf d primaryRecordId)
        then None
        else Some (UserSkill.withWorkHistory (Some primaryRecordId) s)
      else Some s
  | None => Some s
  end.

(** The merged details hold dates the client accepts as column values. *)
Definition validMergedDates (newDate : string → JS.Date)
    (mergedDetails : MergedDetails.t) : Prop :=
  Client.validDate (newDate (MergedDetails.startDate mergedDetails)) = true
  ∧ from_option Client.validDate true (endDateOf newDate mergedDetails) = true.

(** [d'] is [d] with the secondary records merged into the primary one:
    the primary row carries the merged details and the secondary rows are
    gone; the achievements of the secondary rows are gone and the primary
    row got a new achievement for each of their descriptions it did not
    have, in the order the database listed them; the user skills are as
    [mergedSkill] says. *)
Definition mergedInto (newDate : string → JS.Date) (primaryRecordId : string)
    (secondaryRecordIds : list string) (mergedDetails : MergedDetails.t)
    (d d' : DB) : Prop :=
  workHistories d'
  = mergedRow newDate primaryRecordId mergedDetails
      <$> filter (λ r, WorkHistory.id r ∉ secondaryRecordIds) (workHistories d)
  ∧ (∃ rows,
        workAchievements d'
        = filter (λ a, WorkAchievement.workHistoryId a ∉ secondaryRecordIds)
                 (workAchievements d) ++ rows
        ∧ Forall (λ a, WorkAchievement.workHistoryId a = primaryRecordId) rows
        ∧ WorkAchievement.description <$> rows
          ≡ₚ filter (λ x, x ∉ WorkAchievement.description
                                <$> Client.achievementsOf d primaryRecordId)
                    (secondaryDescriptions d secondaryRecordIds))
  ∧ userSkills d'
    = omap (mergedSkill d primaryRecordId secondaryRecordIds) (userSkills d).

(** One turn of the loop over the skills of the secondary records, seen from
    a row [t] of the table: the turn for [s] moves or deletes the row with
    the id of [s]. *)
Definition skillStep (existingPrimarySkillIds : gset string)
    (primaryRecordId : string) (s t : UserSkill.t) : option UserSkill.t :=
  if decide (UserSkill.id t = UserSkill.id s)
  then
    if decide (UserSkill.skillId s ∉ existingPrimarySkillIds)
    then Some (UserSkill.withWorkHistory (Some primaryRecordId) t)
    else None
  else Some t.

(** The whole loop, seen from a row. *)
Definition skillSteps (existingPrimarySkillIds : gset string)
    (primaryRecordId : string) (skills : list UserSkill.t)
    (o : option UserSkill.t) : option UserSkill.t :=
  foldl (λ o s, o ≫= skillStep existingPrimarySkillIds primaryRecordId s) o skills.

(** ** The order of the stages of the workflow *)

(** The stages the specification names. *)
Inductive Stage :=
| Matching | Normalizing | Deduplicating | Merging | Persisting.

(** The stage an event belongs to: the match of an entry, the
    normalisation of skills, the exact de-duplication, a call to the LLM, a
    write to the database; reads and console output belong to none. *)
Definition stageOf (ev : Event) : option Stage :=
  match ev with
  | Match _ => Some Matching
  | NormalizeSkills _ => Some Normalizing
  | Dedupe => Some Deduplicating
  | LlmInvoke _ | LlmMerger _ _ => Some Merging
  | Prisma _ a => if isWrite a then Some Persisting else None
  | _ => None
  end.

(** The order as the specification states it: matching comes first, every
    normalisation comes before every de-duplication and merge, and nothing
    but persistence follows a persistence. *)
Definition statedOrder (l : list Stage) : Prop :=
  (l = [] ∨ head l = Some Matching)
  ∧ (∀ i j, l !! i = Some Normalizing →
            l !! j = Some Deduplicating ∨ l !! j = Some Merging → (i < j)%nat)
  ∧ (∀ i j s, l !! i = Some Persisting → (i < j)%nat → l !! j = Some s →
              s = Persisting).

(** The place of an event in the handling of one parsed entry by
    [processWorkExperience]: the match, the merge of the achievements by
    the LLM, the writes of the work history and its achievements, the
    normalisation of the skills, the writes of the user skills. *)
Definition entryRank (ev : Event) : option nat :=
  match ev with
  | Match _ => Some 0%nat
  | LlmMerger _ _ => Some 1%nat
  | Prisma UserSkillModel a => if isWrite a then Some 4%nat else None
  | Prisma _ a => if isWrite a then Some 2%nat else None
  | NormalizeSkills _ => Some 3%nat
  | _ => None
  end.

(** The place of an event in [deduplicateAndMergeWorkAchievements]: the
    exact de-duplication, the merge by the LLM, the writes. *)
Definition dedupeRank (ev : Event) : option nat :=
  match ev with
  | Dedupe => Some 0%nat
  | LlmInvoke _ => Some 1%nat
  | Prisma _ a => if isWrite a then Some 2%nat else None
  | _ => None
  end.

(** The ranked events of [t] come in non-decreasing rank. *)
Definition inOrder (rank : Event → option nat) (t : list Event) : Prop :=
  StronglySorted le (omap rank t).

(** As [inOrder], with every rank between [lo] and [hi]. *)
Definition phase (rank : Event → option nat) (lo hi : nat) (t : list Event) : Prop :=
  inOrder rank t ∧ Forall (λ r, (lo ≤ r ≤ hi)%nat) (omap rank t).

(** The events of the handling of one entry: they start with its match and
    are in the order of [entryRank]. *)
Definition entrySegment (t : list Event) : Prop :=
  (∃ found rest, t = Match found :: rest) ∧ inOrder entryRank t.

(** Every run of [m] adds to the trace events that satisfy [P]. *)
Definition emits {A} (P : list Event → Prop) (m : M A) : Prop :=
  ∀ w, ∃ t, trace (m w).2 = trace w ++ t ∧ P t.

(** ** Further relations between the world before and after a run *)

(** Only the trace differs: no database call was made and no reply of the
    LLM was taken. *)
Definition onlyTraced (w w' : World) : Prop :=
  db w' = db w ∧ llm w' = llm w ∧ faults w' = faults w.

(** The database is the same. *)
Definition sameDb (w w' : World) : Prop := db w' = db w.

(** Every run of [m] that throws relates the worlds before and after by
    [R]. *)
Definition onThrow {A} (R : World → World → Prop) (m : M A) : Prop :=
  ∀ w e w', m w = (inl e, w') → R w w'.

(** ** What an import keeps *)

(** [d'] has kept the rows of [d]: the achievements of [d] are the first
    rows of the table of [d'], as they were, and the work histories and
    user skills of [d] are, by their ids, the first of [d']. *)
Definition keptIn (d d' : DB) : Prop :=
  workAchievements d `prefix_of` workAchievements d'
  ∧ WorkHistory.id <$> workHistories d `prefix_of` WorkHistory.id <$> workHistories d'
  ∧ UserSkill.id <$> userSkills d `prefix_of` UserSkill.id <$> userSkills d'.

Definition keepsRows (w w' : World) : Prop := keptIn (db w) (db w').

(** ** Sample data *)

Module Sample.

Definition january2020 : JS.Date := JS.LocalDate 2020 0 86400000.
Definition lateJanuary2020 : JS.Date := JS.LocalDate 2020 0 2500000000.

Definition acme : Existing.t := Existing.mk "Acme Corp" january2020 None.

Definition parsedAcme : Parsed.t :=
  Parsed.mk (Some "ACME  corp.") (Some "Developer") (Some lateJanuary2020) None
            (Some ["Shipped the billing service"]) (Some ["rust"; " "; "ocaml"]).

Definition achievement (id description : string) (createdAt : Z)
    (workHistoryId : string) : WorkAchievement.t :=
  WorkAchievement.mk id description createdAt workHistoryId.

Definition bullets : list WorkAchievement.t :=
  [ achievement "a1" "Increased revenue by 20%" 1 "wh1";
    achievement "a3" "Led a team of 5" 3 "wh1" ].

(** A reply that accounts for both bullets. *)
Definition complete : WorkAchievementMergeResult :=
  mkMergeResult
    (Some [ FinalAchievement.mk "Increased revenue by 35% leading a team of 5"
              (Some [1; 2]) merged ])
    None.

(** A reply that leaves the second bullet out. *)
Definition partial : WorkAchievementMergeResult :=
  mkMergeResult
    (Some [ FinalAchievement.mk "Grew revenue by 20%" (Some [1]) optimized ])
    None.

Definition emptyDB : DB := mkDB [] [] [] 0 0.

Definition answering (replies : list LlmReply) : World :=
  mkWorld emptyDB [] replies [].

(** A user with two work-history records at the same company, their
    achievements and skills. *)
Definition store : DB :=
  mkDB
    [ WorkHistory.mk "wh1" "u1" "Acme Corp" "Engineer" january2020 None;
      WorkHistory.mk "wh2" "u1" "ACME corp." "Senior Engineer"
                     (JS.LocalDate 2021 5 0) None ]
    [ achievement "a1" "Increased revenue by 20%" 1 "wh1";
      achievement "a2" "  increased revenue BY 20% " 2 "wh1";
      achievement "a3" "Led a team of 5" 3 "wh1";
      achievement "a4" "Shipped the billing service" 4 "wh2";
      achievement "a5" "Led a team of 5" 5 "wh2" ]
    [ UserSkill.mk "s1" "u1" "rust" "EXPERT" "MANUAL" None (Some "wh1");
      UserSkill.mk "s2" "u1" "go" "ADVANCED" "MANUAL" None (Some "wh2") ]
    10 100.

Definition serving (replies : list LlmReply) (script : list (option Exn)) : World :=
  mkWorld store [] replies script.

Definition details : MergedDetails.t :=
  MergedDetails.mk "Acme Corporation" "Staff Engineer" "2020-01-15" None.

(** Stand-ins for the engine's date parser and the two services. *)
Definition parse (text : string) : JS.Date := january2020.

Definition concatenating (existing new : list string) : Exn + list string :=
  inr (existing ++ new).

Definition verbatim (skills : list string) : Exn + list NormalizedSkill.t :=
  inr ((λ s, NormalizedSkill.mk s None) <$> skills).

(** The database listing rows as they are stored. *)
Definition asStored (A : Type) (l : list A) : list A := l.

(** A user with a single work history that has a single achievement. *)
Definition small : DB :=
  mkDB [ WorkHistory.mk "wh9" "u2" "Initech" "Analyst" january2020 None ]
       [ achievement "a9" "Filed the TPS reports" 1 "wh9" ]
       [] 3 50.

End Sample.

(** * Properties *)

Lemma monthIndex_eq a b :
  JS.date_wf a -> JS.date_wf b ->
  JS.strict_eq (monthIndex a) (monthIndex b) = true <-> sameCalendarMonth a b.
Proof.
  destruct a as [|y m r], b as [|y' m' r']; simpl; intros Ha Hb;
    try (split; [discriminate | tauto]).
  rewrite Z.eqb_eq. split; [intros H | intros [-> ->]; reflexivity].
  split; lia.
Qed.

(** C1. Whatever the lower-casing of the engine, [doWorkHistoryRecordsMatch]
    answers [true] exactly when the two company names, lower-cased and with
    all white space removed (a missing one read as the empty string), are
    within Levenshtein distance 5 of each other, the new
    entry has a start date in the same calendar month and year as the
    existing one, and the end dates are both absent or both present in the
    same calendar month and year. *)
Theorem doWorkHistoryRecordsMatch_iff (toLowerCase : list Z → list Z)
    (existing : Existing.t) (newRecord : Parsed.t)
    (Hes : JS.date_wf (Existing.startDate existing))
    (Hee : optionDateWf (Existing.endDate existing))
    (Hns : optionDateWf (Parsed.startDate newRecord))
    (Hne : optionDateWf (Parsed.endDate newRecord)) :
  doWorkHistoryRecordsMatch toLowerCase existing newRecord = true <->
    (distance
       (JS.removeWhitespace
          (toLowerCase (JS.codeUnits (Existing.companyName existing))))
       (JS.removeWhitespace
          (toLowerCase (JS.codeUnits (default "" (Parsed.company newRecord)))))
     <= 5)%nat
    /\ (exists newStart, Parsed.startDate newRecord = Some newStart
                         /\ sameCalendarMonth (Existing.startDate existing) newStart)
    /\ ((Existing.endDate existing = None /\ Parsed.endDate newRecord = None)
        \/ (exists existingEnd newEnd,
               Existing.endDate existing = Some existingEnd
               /\ Parsed.endDate newRecord = Some newEnd
               /\ sameCalendarMonth existingEnd newEnd)).
Proof.
  unfold doWorkHistoryRecordsMatch, normalizeCompany, JS.nullish, JS.strict_neq.
  destruct existing as [cn es ee], newRecord as [co jt ns ne ac sk]; simpl in *.
  set (d := distance _ _).
  destruct (Nat.ltb_spec 5 d) as [Hd | Hd].
  { split; [discriminate | intros [? _]; lia]. }
  destruct ns as [ns|]; simpl in Hns.
  2:{ split; [discriminate | intros (_ & (? & ? & _) & _); discriminate]. }
  destruct (JS.strict_eq (monthIndex es) (monthIndex ns)) eqn:Hstart; simpl.
  2:{ split; [discriminate |].
      intros (_ & (s & Hs & Hsame) & _). injection Hs as <-.
      apply monthIndex_eq in Hsame; congruence. }
  apply monthIndex_eq in Hstart; [| assumption ..].
  destruct ee as [ee|], ne as [ne|]; simpl in Hee, Hne.
  - rewrite monthIndex_eq by assumption. split.
    + intros Hsame. split; [assumption |]. split; [eauto |].
      right. eauto.
    + intros (_ & _ & [[? _] | (e & e' & He & He' & Hsame)]); [discriminate |].
      congruence.
  - split; [discriminate |].
    intros (_ & _ & [[? _] | (e & e' & _ & ? & _)]); discriminate.
  - split; [discriminate |].
    intros (_ & _ & [[_ ?] | (e & e' & ? & _ & _)]); discriminate.
  - split; [| reflexivity]. intros _. split; [assumption |]. split; eauto.
Qed.

Lemma doWorkHistoryRecordsMatch_iff_witness :
  JS.date_wf (Existing.startDate Sample.acme)
  /\ doWorkHistoryRecordsMatch JS.asciiToLowerCase Sample.acme Sample.parsedAcme
     = true.
Proof.
  split; [simpl; lia |].
  apply (doWorkHistoryRecordsMatch_iff JS.asciiToLowerCase
           Sample.acme Sample.parsedAcme);
    simpl; try lia; try exact I.
  split; [vm_compute; lia |].
  split; [exists Sample.lateJanuary2020; simpl; auto | left; auto].
Defined.

(** ** Exact de-duplication keeps first occurrences *)

Section FirstOccurrences.

Variable toLowerCase : list Z → list Z.

Implicit Types (l : list WorkAchievement.t) (a : WorkAchievement.t).

Lemma occurrences_snoc {B} (f g : WorkAchievement.t → list B) l a :
  concat (imap (λ i x, if decide (seenEarlier toLowerCase (l ++ [a]) i x)
                       then f x else g x)
               (l ++ [a]))
  = concat (imap (λ i x, if decide (seenEarlier toLowerCase l i x)
                         then f x else g x) l)
    ++ (if decide (compared toLowerCase a ∈ compared toLowerCase <$> l)
        then f a else g a).
Proof.
  rewrite imap_app, concat_app. f_equal.
  - f_equal. apply imap_ext. intros i x Hi.
    apply lookup_lt_Some in Hi. apply decide_ext.
    unfold seenEarlier. by rewrite take_app_le by lia.
  - simpl. rewrite app_nil_r. apply decide_ext. unfold seenEarlier.
    by rewrite Nat.add_0_r, take_app_length.
Qed.

Lemma firstOccurrences_snoc l a :
  firstOccurrences toLowerCase (l ++ [a])
  = firstOccurrences toLowerCase l
    ++ (if decide (compared toLowerCase a ∈ compared toLowerCase <$> l)
        then [] else [a]).
Proof. apply (occurrences_snoc (λ _, []) (λ x, [x])). Qed.

Lemma laterOccurrences_snoc l a :
  laterOccurrences toLowerCase (l ++ [a])
  = (laterOccurrences toLowerCase l
     + (if decide (compared toLowerCase a ∈ compared toLowerCase <$> l)
        then 1 else 0))%nat.
Proof.
  unfold laterOccurrences.
  rewrite (occurrences_snoc (λ x, [x]) (λ _, [])), length_app.
  destruct (decide _); reflexivity.
Qed.

Lemma firstOccurrences_subseteq l : firstOccurrences toLowerCase l ⊆ l.
Proof.
  induction l as [|a l IH] using rev_ind; [done |].
  rewrite firstOccurrences_snoc. intros x.
  rewrite !elem_of_app. intros [Hx | Hx]; [left; by apply IH |].
  destruct (decide _); [by apply elem_of_nil in Hx | by right].
Qed.

Lemma firstOccurrences_NoDup l :
  NoDup (compared toLowerCase <$> firstOccurrences toLowerCase l).
Proof.
  induction l as [|a l IH] using rev_ind; [constructor |].
  rewrite firstOccurrences_snoc.
  destruct (decide _) as [|Hnew]; [by rewrite app_nil_r |].
  rewrite fmap_app. apply NoDup_app. split; [done |].
  split; [| apply NoDup_singleton].
  intros x Hx. simpl. rewrite list_elem_of_singleton. intros ->.
  apply Hnew. apply list_elem_of_fmap in Hx as (b & -> & Hb).
  apply list_elem_of_fmap. exists b. split; [done |].
  by apply firstOccurrences_subseteq.
Qed.

Lemma occurrences_length l :
  (length (firstOccurrences toLowerCase l) + laterOccurrences toLowerCase l = length l)%nat.
Proof.
  induction l as [|a l IH] using rev_ind; [done |].
  rewrite firstOccurrences_snoc, laterOccurrences_snoc, !length_app.
  destruct (decide _); simpl; lia.
Qed.

(** The loop invariant of [removeExactDuplicateWorkAchievements]. *)
Lemma scan_invariant l :
  foldl (scanStep toLowerCase) (mkScan ∅ [] 0) l
  = mkScan (list_to_set (compared toLowerCase <$> l))
           (firstOccurrences toLowerCase l) (laterOccurrences toLowerCase l).
Proof.
  induction l as [|a l IH] using rev_ind; [done |].
  rewrite foldl_snoc, IH, firstOccurrences_snoc, laterOccurrences_snoc.
  unfold scanStep; simpl.
  change (normalizedDescription toLowerCase a) with (compared toLowerCase a).
  rewrite fmap_app, list_to_set_app_L; simpl.
  destruct (decide (compared toLowerCase a ∈ _)) as [Hin | Hin];
    destruct (decide (compared toLowerCase a ∈ compared toLowerCase <$> l))
      as [Hin' | Hin'].
  - rewrite app_nil_r. f_equal; [| lia].
    apply set_eq. intros x. rewrite !elem_of_union, elem_of_singleton.
    rewrite elem_of_empty. split; [tauto |].
    intros [? | [-> | []]]; [done | done].
  - exfalso. apply Hin'. by apply elem_of_list_to_set in Hin.
  - exfalso. apply Hin. by apply elem_of_list_to_set.
  - f_equal; [| lia].
    apply set_eq. intros x. rewrite !elem_of_union, !elem_of_singleton.
    rewrite elem_of_empty. tauto.
Qed.

End FirstOccurrences.

(** C4. Whatever the lower-casing of the engine,
    [removeExactDuplicateWorkAchievements] keeps, in input order, exactly
    the first achievement of every description compared after trimming and
    lower-casing, and counts every later one; so the kept list and the count
    add up to the input length and the kept normalised descriptions are
    pairwise distinct. *)
Theorem removeExactDuplicateWorkAchievements_first_occurrences
    (toLowerCase : list Z → list Z) (achievements : list WorkAchievement.t) :
  let '(kept, removed) :=
    removeExactDuplicateWorkAchievements toLowerCase achievements in
  kept = firstOccurrences toLowerCase achievements
  ∧ removed = laterOccurrences toLowerCase achievements
  ∧ (length kept + removed = length achievements)%nat
  ∧ NoDup ((λ a, toLowerCase
                   (JS.trim (JS.codeUnits (WorkAchievement.description a))))
             <$> kept).
Proof.
  unfold removeExactDuplicateWorkAchievements.
  rewrite scan_invariant; simpl.
  split; [done |]. split; [done |].
  split; [apply occurrences_length | apply firstOccurrences_NoDup].
Qed.

(** ** Running the monad *)

Lemma bind_run {A B} (m : M A) (k : A → M B) (w : World) :
  (m ≫= k) w = match m w with
               | (inr a, w') => k a w'
               | (inl e, w') => (inl e, w')
               end.
Proof. reflexivity. Qed.

Lemma tryCatch_run {A} (body : M A) (handler : Exn → M A) (w : World) :
  tryCatch body handler w = match body w with
                            | (inr a, w') => (inr a, w')
                            | (inl e, w') => handler e w'
                            end.
Proof. reflexivity. Qed.

(** ** Validation of the reply of the LLM *)

Lemma elem_of_added (indices : list Z) (s : gset Z) (i : Z) :
  i ∈ foldl (λ s index, {[index]} ∪ s) s indices ↔ i ∈ s ∨ i ∈ indices.
Proof.
  revert s. induction indices as [|j indices IH]; intros s; simpl.
  - rewrite elem_of_nil. tauto.
  - rewrite IH, elem_of_union, elem_of_singleton, elem_of_cons. tauto.
Qed.

Lemma collectIndices_spec (finals : list FinalAchievement.t) (s : gset Z) (w : World) :
  match collectIndices finals s w with
  | (inr all, w') =>
      w' = w ∧ Forall named finals ∧ ∀ i, i ∈ all ↔ i ∈ s ∨ namedBy finals i
  | (inl _, w') => w' = w ∧ ¬ Forall named finals
  end.
Proof.
  revert s. induction finals as [|fa finals IH]; intros s; simpl.
  - split; [done |]. split; [constructor |]. intros i. split; [tauto |].
    intros [? | (fa & ? & Hfa & _)]; [done | by apply elem_of_nil in Hfa].
  - destruct (FinalAchievement.originalIndices fa) as [[|j indices]|] eqn:Hfa.
    + split; [done |]. intros Hall. apply Forall_cons in Hall as [(ix & ? & ?) _].
      congruence.
    + specialize (IH (foldl (λ s index, {[index]} ∪ s) s (j :: indices))).
      destruct (collectIndices finals _ w) as [[e | all] w'].
      * destruct IH as [-> Hno]. split; [done |].
        intros Hall. apply Forall_cons in Hall as [_ ?]. tauto.
      * destruct IH as (-> & Hall & Hin). split; [done |]. split.
        { constructor; [| done]. exists (j :: indices). by split. }
        intros i. rewrite Hin, elem_of_added. split.
        -- intros [[? | Hi] | (fb & ix & Hfb & Hix & Hi)]; [by left | |].
           ++ right. exists fa, (j :: indices). split; [left | done].
           ++ right. exists fb, ix. split; [by right | done].
        -- intros [? | (fb & ix & Hfb & Hix & Hi)]; [by left; left |].
           apply elem_of_cons in Hfb as [-> | Hfb].
           ++ left; right. congruence.
           ++ right. by exists fb, ix.
    + split; [done |]. intros Hall. apply Forall_cons in Hall as [(ix & ? & ?) _].
      congruence.
Qed.

Lemma missingIndices_nil (n : nat) (all : gset Z) :
  missingIndices n all = [] ↔ ∀ i, 1 ≤ i ≤ Z.of_nat n → i ∈ all.
Proof.
  unfold missingIndices. split.
  - intros Hnil i Hi. destruct (decide (i ∈ all)) as [| Hout]; [done |].
    exfalso. eapply filter_nil_not_elem_of; [exact Hnil | exact Hout |].
    apply elem_of_seqZ. lia.
  - intros Hall. apply elem_of_nil_inv. intros i Hi.
    apply list_elem_of_filter in Hi as [Hout Hi].
    apply elem_of_seqZ in Hi. apply Hout, Hall. lia.
Qed.

Lemma positive_length {A} (l : list A) : (0 <? length l)%nat = false ↔ l = [].
Proof. destruct l; simpl; split; (done || lia || discriminate). Qed.

(** What the validation answers, in terms of [accountsForAll]. *)
Lemma validated_spec (achievements : list WorkAchievement.t)
    (r : WorkAchievementMergeResult) (w : World) :
  match validated achievements r w with
  | (inr out, _) =>
      ∃ finals, finalAchievements r = Some finals
                ∧ accountsForAll (length achievements) finals
                ∧ out = Merged.mk (FinalAchievement.description <$> finals)
                          (length achievements - length finals)
  | (inl _, _) => ¬ accepted (length achievements) r
  end.
Proof.
  unfold validated, accepted.
  destruct (finalAchievements r) as [finals|]; simpl.
  2:{ intros (? & ? & _). discriminate. }
  rewrite bind_run.
  pose proof (collectIndices_spec finals ∅ w) as Hc.
  destruct (collectIndices finals ∅ w) as [[e | all] w'].
  { destruct Hc as [_ Hno]. intros (fs & [= <-] & Hnamed & _).
    apply Hno, Forall_forall. exact Hnamed. }
  destruct Hc as (-> & Hnamed & Hall).
  destruct (0 <? length (missingIndices _ all))%nat eqn:Hmissing.
  - rewrite bind_run; simpl. intros (fs & [= <-] & _ & Hcover).
    assert (missingIndices (length achievements) all = []) as Hnil.
    { apply missingIndices_nil. intros i Hi. apply Hall. right.
      apply Hcover, Hi. }
    rewrite Hnil in Hmissing. discriminate.
  - rewrite bind_run; simpl. exists finals. split; [done |].
    apply positive_length in Hmissing.
    pose proof (proj1 (missingIndices_nil _ _) Hmissing) as Hcover. split.
    + split.
      * intros fa Hfa. eapply Forall_forall in Hnamed; eauto.
      * intros i Hi. apply Hcover, Hall in Hi as [Hi | Hi]; [| exact Hi].
        by apply elem_of_empty in Hi.
    + f_equal. lia.
Qed.

Lemma mergeAttempt_replies achievements r rest w :
  llm w = Replies r :: rest →
  mergeAttempt achievements w = validated achievements r (afterInvoke achievements w).
Proof.
  intros Hllm. unfold mergeAttempt, invoke. rewrite !bind_run. simpl.
  unfold nextReply, afterInvoke. simpl. rewrite Hllm. reflexivity.
Qed.

Lemma mergeAttempt_throws achievements e rest w :
  llm w = Throws e :: rest →
  mergeAttempt achievements w = (inl e, afterInvoke achievements w).
Proof.
  intros Hllm. unfold mergeAttempt, invoke. rewrite !bind_run. simpl.
  unfold nextReply, afterInvoke. simpl. rewrite Hllm. reflexivity.
Qed.

(** The [catch] block answers with the input whatever was thrown. *)
Lemma fallback_of_raise achievements w e w' :
  mergeAttempt achievements w = (inl e, w') →
  ∃ w'', mergeWorkAchievementsWithAI achievements w
         = (inr (inputDescriptions achievements), w'').
Proof.
  intros Hraise. unfold mergeWorkAchievementsWithAI.
  destruct (length achievements <=? 1)%nat; [by eexists |].
  rewrite tryCatch_run, Hraise, bind_run. simpl. by eexists.
Qed.

(** The function always answers, either with the input descriptions or with
    what its [try] block returned. *)
Lemma mergeWorkAchievementsWithAI_cases achievements w :
  ∃ out w', mergeWorkAchievementsWithAI achievements w = (inr out, w')
    ∧ (out = inputDescriptions achievements
       ∨ ((1 < length achievements)%nat
          ∧ mergeAttempt achievements w = (inr out, w'))).
Proof.
  unfold mergeWorkAchievementsWithAI.
  destruct (Nat.leb_spec (length achievements) 1) as [Hn | Hn].
  { eexists _, _. split; [reflexivity | by left]. }
  rewrite tryCatch_run.
  destruct (mergeAttempt achievements w) as [[e | out] w'] eqn:Hattempt.
  - rewrite bind_run. simpl. eexists _, _. split; [reflexivity | by left].
  - eexists _, _. split; [reflexivity | by right].
Qed.

(** C2. The descriptions of a reply become the result only when every final
    achievement carries a non-empty [originalIndices] and every index from 1
    to N is in one of them; a reply with an empty [originalIndices] or a
    missing index is rejected: the [try] block throws and the function
    answers from its [catch] block. *)
Theorem mergeWorkAchievementsWithAI_validates_reply
    (achievements : list WorkAchievement.t) (r : WorkAchievementMergeResult)
    (rest : list LlmReply) (w : World)
    (Hreply : llm w = Replies r :: rest) :
  (∀ out w', mergeAttempt achievements w = (inr out, w') →
     ∃ finals, finalAchievements r = Some finals
       ∧ accountsForAll (length achievements) finals
       ∧ Merged.finalAchievements out = FinalAchievement.description <$> finals)
  ∧ (∀ finals, finalAchievements r = Some finals →
       (∃ fa, fa ∈ finals
              ∧ default [] (FinalAchievement.originalIndices fa) = [])
       ∨ (∃ i : Z, 1 ≤ i ≤ Z.of_nat (length achievements)
                   ∧ ∀ fa indices, fa ∈ finals →
                       FinalAchievement.originalIndices fa = Some indices →
                       i ∉ indices) →
       (∃ e w', mergeAttempt achievements w = (inl e, w'))
       ∧ ∃ w', mergeWorkAchievementsWithAI achievements w
               = (inr (Merged.mk (WorkAchievement.description <$> achievements) 0),
                  w')).
Proof.
  rewrite (mergeAttempt_replies _ _ _ _ Hreply).
  pose proof (validated_spec achievements r (afterInvoke achievements w)) as Hv.
  split.
  - intros out w' Hrun. rewrite Hrun in Hv.
    destruct Hv as (finals & Hf & Hall & ->). by exists finals.
  - intros finals Hfinals Hbad.
    assert (¬ accepted (length achievements) r) as Hrejected.
    { intros (fs & Hfs & Hnamed & Hcover).
      rewrite Hfinals in Hfs. injection Hfs as <-.
      destruct Hbad as [(fa & Hfa & Hempty) | (i & Hi & Hout)].
      - destruct (Hnamed fa Hfa) as (ix & Hix & Hne).
        rewrite Hix in Hempty. simpl in Hempty. done.
      - destruct (Hcover i Hi) as (fa & ix & Hfa & Hix & Hin).
        by apply (Hout fa ix). }
    destruct (validated achievements r _) as [[e | out] w'] eqn:Hrun.
    + split; [by exists e, w' |].
      apply (fallback_of_raise achievements w e w').
      by rewrite (mergeAttempt_replies _ _ _ _ Hreply).
    + exfalso. apply Hrejected.
      destruct Hv as (fs & Hfs & Hall & _). by exists fs.
Qed.

Lemma mergeWorkAchievementsWithAI_validates_reply_witness :
  llm (Sample.answering [Replies Sample.partial]) = [Replies Sample.partial]
  ∧ ∃ w', mergeWorkAchievementsWithAI Sample.bullets
            (Sample.answering [Replies Sample.partial])
          = (inr (Merged.mk ["Increased revenue by 20%"; "Led a team of 5"] 0), w').
Proof.
  split; [reflexivity |].
  refine (proj2 (proj2 (mergeWorkAchievementsWithAI_validates_reply
                          Sample.bullets Sample.partial []
                          (Sample.answering [Replies Sample.partial]) eq_refl)
                   _ eq_refl _)).
  right. exists 2. split; [simpl; lia |].
  intros fa indices Hfa Hix.
  apply list_elem_of_singleton in Hfa as ->. injection Hix as <-.
  intros Hin. apply list_elem_of_singleton in Hin. discriminate.
Defined.

(** C3. When the call to the LLM fails or its reply is rejected, that is,
    when the [try] block throws, the function answers with the input
    descriptions in input order and [groupsMerged] 0. *)
Theorem mergeWorkAchievementsWithAI_falls_back
    (achievements : list WorkAchievement.t) (w : World) (e : Exn) (w' : World)
    (Hraise : mergeAttempt achievements w = (inl e, w')) :
  ∃ w'', mergeWorkAchievementsWithAI achievements w
         = (inr (Merged.mk (WorkAchievement.description <$> achievements) 0), w'').
Proof. exact (fallback_of_raise achievements w e w' Hraise). Qed.

Lemma mergeWorkAchievementsWithAI_falls_back_witness :
  ∃ w'', mergeWorkAchievementsWithAI Sample.bullets
           (Sample.answering [Throws (Error "503 Service Unavailable")])
         = (inr (Merged.mk ["Increased revenue by 20%"; "Led a team of 5"] 0), w'').
Proof.
  apply (mergeWorkAchievementsWithAI_falls_back Sample.bullets
           (Sample.answering [Throws (Error "503 Service Unavailable")])
           (Error "503 Service Unavailable")
           (afterInvoke Sample.bullets
              (Sample.answering [Throws (Error "503 Service Unavailable")]))).
  reflexivity.
Defined.

(** ** Factual content *)

Lemma preservesFacts_refl (bullets : list string) : preservesFacts bullets bullets.
Proof. intros t _. tauto. Qed.

(** The claim C7 fails on the code: a reply that accounts for both indices
    is accepted although it drops the 20 of the first bullet and states a
    35 that no input bullet has. *)
Lemma mergeWorkAchievementsWithAI_alters_metrics :
  ∃ out w',
    mergeWorkAchievementsWithAI Sample.bullets
      (Sample.answering [Replies Sample.complete]) = (inr out, w')
    ∧ ¬ preservesFacts (WorkAchievement.description <$> Sample.bullets)
                       (Merged.finalAchievements out).
Proof.
  eexists _, _. split; [vm_compute; reflexivity |].
  intros Hkeeps. destruct (Hkeeps "20" eq_refl) as [Hdrop _].
  specialize (Hdrop eq_refl). vm_compute in Hdrop. discriminate.
Qed.

(** C7, as the code has it. The function always answers, and with one of two
    lists: the input descriptions unchanged (one bullet or none, a failed
    call or a rejected reply), whose quantities are then trivially the
    input's; or the descriptions of a reply that passed the index
    validation, taken as they are. The prompt asks the LLM to preserve
    metrics; the code does not compare the contents of the bullets. *)
Theorem mergeWorkAchievementsWithAI_result_origin
    (achievements : list WorkAchievement.t) (w : World) :
  ∃ out w',
    mergeWorkAchievementsWithAI achievements w = (inr out, w')
    ∧ ((Merged.finalAchievements out = WorkAchievement.description <$> achievements
        ∧ preservesFacts (WorkAchievement.description <$> achievements)
                         (Merged.finalAchievements out))
       ∨ (∃ r finals,
             head (llm w) = Some (Replies r)
             ∧ finalAchievements r = Some finals
             ∧ accountsForAll (length achievements) finals
             ∧ Merged.finalAchievements out
               = FinalAchievement.description <$> finals)).
Proof.
  destruct (mergeWorkAchievementsWithAI_cases achievements w)
    as (out & w' & Hrun & [-> | [Hn Hattempt]]).
  { exists (inputDescriptions achievements), w'. split; [done |].
    left. split; [done | apply preservesFacts_refl]. }
  exists out, w'. split; [done |]. right.
  destruct (llm w) as [|[e | r] rest] eqn:Hllm.
  - unfold mergeAttempt, invoke in Hattempt. rewrite !bind_run in Hattempt.
    simpl in Hattempt. unfold nextReply in Hattempt. simpl in Hattempt.
    rewrite Hllm in Hattempt. discriminate.
  - rewrite (mergeAttempt_throws _ _ _ _ Hllm) in Hattempt. discriminate.
  - rewrite (mergeAttempt_replies _ _ _ _ Hllm) in Hattempt.
    pose proof (validated_spec achievements r (afterInvoke achievements w)) as Hv.
    rewrite Hattempt in Hv. destruct Hv as (finals & Hf & Hall & ->).
    exists r, finals. split; [done |]. split; [done |]. by split.
Qed.

(** ** Steps of a run *)

Lemma bind_inr {A B} (m : M A) (k : A → M B) w b w'' :
  (m ≫= k) w = (inr b, w'') →
  ∃ a w', m w = (inr a, w') ∧ k a w' = (inr b, w'').
Proof.
  rewrite bind_run. destruct (m w) as [[e | a] w']; [discriminate |].
  intros Hk. by exists a, w'.
Qed.

Lemma bind_inl {A B} (m : M A) (k : A → M B) w e w'' :
  (m ≫= k) w = (inl e, w'') →
  m w = (inl e, w'') ∨ ∃ a w', m w = (inr a, w') ∧ k a w' = (inl e, w'').
Proof.
  rewrite bind_run. destruct (m w) as [[e' | a] w'].
  - intros [= -> ->]. by left.
  - intros Hk. right. by exists a, w'.
Qed.

Lemma call_run {A} (m : Model) (a : Action) (f : DB → Exn + A * DB) w :
  call m a f w =
  let t := trace w ++ [Prisma m a] in
  match faults w with
  | Some e :: rest => (inl e, mkWorld (db w) t (llm w) rest)
  | _ =>
      match f (db w) with
      | inl e => (inl e, mkWorld (db w) t (llm w) (tail (faults w)))
      | inr (x, d) => (inr x, mkWorld d t (llm w) (tail (faults w)))
      end
  end.
Proof.
  unfold call. rewrite !bind_run. unfold emit, faultPoint, act. simpl.
  destruct (faults w) as [|[e|] rest]; simpl; try reflexivity;
    destruct (f (db w)) as [e' | [x d]]; reflexivity.
Qed.

Lemma query_run {A} (m : Model) (a : Action) (f : DB → A) w :
  query m a f w =
  let t := trace w ++ [Prisma m a] in
  match faults w with
  | Some e :: rest => (inl e, mkWorld (db w) t (llm w) rest)
  | _ => (inr (f (db w)), mkWorld (db w) t (llm w) (tail (faults w)))
  end.
Proof.
  unfold query. rewrite call_run. simpl.
  destruct (faults w) as [|[e|] rest]; reflexivity.
Qed.

Lemma call_inr {A} (m : Model) (a : Action) (f : DB → Exn + A * DB) w x w' :
  call m a f w = (inr x, w') →
  f (db w) = inr (x, db w') ∧ trace w' = trace w ++ [Prisma m a] ∧ llm w' = llm w.
Proof.
  rewrite call_run. simpl.
  destruct (faults w) as [|[e|] rest]; try discriminate;
    destruct (f (db w)) as [e' | [y d]]; try discriminate;
    intros [= -> <-]; done.
Qed.

Lemma call_inl {A} (m : Model) (a : Action) (f : DB → Exn + A * DB) w e w' :
  call m a f w = (inl e, w') → db w' = db w.
Proof.
  rewrite call_run. simpl.
  destruct (faults w) as [|[e0|] rest]; try (intros [= _ <-]; done);
    destruct (f (db w)) as [e' | [y d]]; try discriminate;
    intros [= _ <-]; done.
Qed.

Lemma transaction_run {A} (body : M A) w :
  transaction body w =
  match faults w with
  | Some e :: rest => (inl e, mkWorld (db w) (trace w ++ [TxBegin]) (llm w) rest)
  | _ =>
      match body (mkWorld (db w) (trace w ++ [TxBegin]) (llm w) (tail (faults w))) with
      | (inl e, w1) =>
          (inl e, mkWorld (db w) (trace w1 ++ [TxRollback]) (llm w1) (faults w1))
      | (inr r, w1) =>
          match faults w1 with
          | Some e :: rest =>
              (inl e, mkWorld (db w) ((trace w1 ++ [TxCommit]) ++ [TxRollback])
                              (llm w1) rest)
          | _ => (inr r, mkWorld (db w1) (trace w1 ++ [TxCommit]) (llm w1)
                                 (tail (faults w1)))
          end
      end
  end.
Proof.
  unfold transaction, tryCatch, emit, faultPoint. rewrite !bind_run.
  destruct (faults w) as [|[e0|] rest]; simpl; try reflexivity.
  - rewrite !bind_run.
    match goal with |- context [body ?w0] =>
      destruct (body w0) as [[e1 | r] w1] end; [reflexivity |].
    rewrite !bind_run. simpl. destruct (faults w1) as [|[e2|] rest2]; reflexivity.
  - rewrite !bind_run.
    match goal with |- context [body ?w0] =>
      destruct (body w0) as [[e1 | r] w1] end; [reflexivity |].
    rewrite !bind_run. simpl. destruct (faults w1) as [|[e2|] rest2]; reflexivity.
Qed.

(** A transaction that throws leaves the database as it found it. *)
Lemma transaction_inl {A} (body : M A) w e w' :
  transaction body w = (inl e, w') → db w' = db w.
Proof.
  rewrite transaction_run.
  destruct (faults w) as [|[e0|] rest]; try (intros [= _ <-]; done);
    match goal with |- context [body ?w0] =>
      destruct (body w0) as [[e1 | r] w1] end;
    try (intros [= _ <-]; done);
    destruct (faults w1) as [|[e2|] rest2];
    try discriminate; intros [= _ <-]; done.
Qed.

(** A transaction that returns ran its body to the end, from the database
    it found, and kept what the body made of it. *)
Lemma transaction_inr {A} (body : M A) w x w' :
  transaction body w = (inr x, w') →
  ∃ w1 w2, db w1 = db w ∧ body w1 = (inr x, w2) ∧ db w' = db w2.
Proof.
  rewrite transaction_run.
  destruct (faults w) as [|[e0|] rest]; try discriminate;
    match goal with |- context [body ?w0] =>
      destruct (body w0) as [[e1 | r] w1] eqn:Hbody end;
    try discriminate;
    destruct (faults w1) as [|[e2|] rest2];
    try discriminate; intros [= <- <-];
    eexists _, _; (split; [| split; [exact Hbody | done]]); done.
Qed.

Lemma query_ok {A} (m : Model) (a : Action) (f : DB → A) (n : nat) w :
  faultFree (S n) w →
  query m a f w
  = (inr (f (db w)),
     mkWorld (db w) (trace w ++ [Prisma m a]) (llm w) (tail (faults w)))
  ∧ faultFree n (mkWorld (db w) (trace w ++ [Prisma m a]) (llm w) (tail (faults w))).
Proof.
  unfold faultFree. rewrite query_run. simpl.
  destruct (faults w) as [|[e|] rest]; simpl.
  - intros _. split; [done |]. by rewrite take_nil.
  - intros Hfree. apply Forall_cons in Hfree as [? _]. discriminate.
  - intros Hfree. apply Forall_cons in Hfree as [_ ?]. done.
Qed.

Lemma head_filter_is_Some {A} (P : A → Prop) `{!∀ x, Decision (P x)}
    (l : list A) (x : A) :
  x ∈ l → P x → is_Some (head (filter P l)).
Proof.
  intros Hin HP.
  assert (x ∈ filter P l) as Hx by (by apply list_elem_of_filter).
  destruct (filter P l); [by apply elem_of_nil in Hx | by eexists].
Qed.

Lemma findMany_length (d : DB) (whId : string) :
  length (merge_sort Client.createdNotAfter (Client.achievementsOf d whId))
  = length (Client.achievementsOf d whId).
Proof. apply Permutation_length, merge_sort_Permutation. Qed.

(** C10. When the work history is the user's and has at most one
    achievement, [deduplicateAndMergeWorkAchievements] returns at once:
    success, both counts equal to the number of achievements, nothing
    removed or merged, an empty preview; it has made its two reads and
    nothing else: no call to the LLM, no write. *)
Theorem deduplicateAndMergeWorkAchievements_nothing_to_do
    (toLowerCase : list Z → list Z)
    (userId workHistoryId : string) (dryRun : bool) (w : World)
    (r : WorkHistory.t)
    (Hrecord : r ∈ workHistories (db w))
    (Hid : WorkHistory.id r = workHistoryId)
    (Howner : WorkHistory.userId r = userId)
    (Hfew : (length (Client.achievementsOf (db w) workHistoryId) ≤ 1)%nat)
    (Hreads : faultFree 2 w) :
  ∃ w',
    deduplicateAndMergeWorkAchievements toLowerCase userId workHistoryId dryRun w
    = (inr (Deduplication.mk true
              "No deduplication needed - this work history has 1 or fewer achievements."
              (length (Client.achievementsOf (db w) workHistoryId))
              (length (Client.achievementsOf (db w) workHistoryId))
              0 0 []), w')
    ∧ db w' = db w
    ∧ llm w' = llm w
    ∧ trace w' = trace w ++ [Prisma WorkHistoryModel FindFirst;
                             Prisma WorkAchievementModel FindMany].
Proof.
  unfold deduplicateAndMergeWorkAchievements, Client.workHistory_findFirst,
    Client.workAchievement_findMany.
  rewrite bind_run.
  destruct (query_ok WorkHistoryModel FindFirst
              (λ d, head (filter (λ r, WorkHistory.id r = workHistoryId
                                       ∧ WorkHistory.userId r = userId)
                                 (workHistories d))) 1 w Hreads) as [-> Hreads'].
  destruct (head_filter_is_Some
              (λ r, WorkHistory.id r = workHistoryId ∧ WorkHistory.userId r = userId)
              (workHistories (db w)) r Hrecord (conj Hid Howner)) as [found ->].
  rewrite bind_run.
  destruct (query_ok WorkAchievementModel FindMany
              (λ d, merge_sort Client.createdNotAfter
                               (Client.achievementsOf d workHistoryId))
              0 _ Hreads') as [-> _].
  simpl. rewrite findMany_length.
  destruct (Nat.leb_spec (length (Client.achievementsOf (db w) workHistoryId)) 1);
    [| lia].
  eexists. split; [reflexivity |]. simpl.
  split; [done |]. split; [done |]. by rewrite <- app_assoc.
Qed.

(** ** Runs that only read *)

Section Sat.

Context (R : World → World → Prop) `{!PreOrder R}.

Lemma sat_ret {A} (a : A) : sat R (mret a).
Proof. intros w. simpl. reflexivity. Qed.

Lemma sat_throw {A} (e : Exn) : sat R (throw (A := A) e).
Proof. intros w. simpl. reflexivity. Qed.

Lemma sat_bind {A B} (m : M A) (k : A → M B) :
  sat R m → (∀ a, sat R (k a)) → sat R (m ≫= k).
Proof.
  intros Hm Hk w. rewrite bind_run. specialize (Hm w).
  destruct (m w) as [[e | a] w']; simpl in *; [done |].
  etrans; [exact Hm | apply Hk].
Qed.

Lemma sat_tryCatch {A} (body : M A) (handler : Exn → M A) :
  sat R body → (∀ e, sat R (handler e)) → sat R (tryCatch body handler).
Proof.
  intros Hb Hh w. rewrite tryCatch_run. specialize (Hb w).
  destruct (body w) as [[e | a] w']; simpl in *; [| done].
  etrans; [exact Hb | apply Hh].
Qed.

Lemma sat_forEach {A} (xs : list A) (body : A → M unit) :
  (∀ x, sat R (body x)) → sat R (forEach xs body).
Proof.
  intros Hbody. induction xs as [|x xs IH]; simpl.
  - apply sat_ret.
  - apply sat_bind; [apply Hbody | intros _; apply IH].
Qed.

End Sat.

#[global] Instance readOnly_preorder : PreOrder readOnly.
Proof.
  split.
  - intros w. split; [done |]. exists []. by rewrite app_nil_r.
  - intros w1 w2 w3 (Hdb & t & Ht & Hq) (Hdb' & t' & Ht' & Hq').
    split; [congruence |]. exists (t ++ t').
    rewrite Ht', Ht, app_assoc. split; [done | by apply Forall_app].
Qed.

Lemma readOnly_emit (ev : Event) : quiet ev = true → sat readOnly (emit ev).
Proof.
  intros Hq w. simpl. split; [done |]. exists [ev]. split; [done |].
  by constructor.
Qed.

Lemma readOnly_faultPoint : sat readOnly faultPoint.
Proof.
  intros w. unfold faultPoint.
  assert (readOnly w (mkWorld (db w) (trace w) (llm w) (tail (faults w)))) as H.
  { split; [done |]. exists []. by rewrite app_nil_r. }
  destruct (faults w) as [|[e|] rest]; exact H.
Qed.

Lemma readOnly_query {A} (m : Model) (a : Action) (f : DB → A) :
  isWrite a = false → sat readOnly (query m a f).
Proof.
  intros Ha. unfold query, call.
  apply sat_bind; [apply _ | |].
  { apply readOnly_emit. simpl. by rewrite Ha. }
  intros _. apply sat_bind; [apply _ | apply readOnly_faultPoint |].
  intros _ w. unfold act. simpl. split; [done |]. exists []. by rewrite app_nil_r.
Qed.

Lemma readOnly_invoke (text : string) : sat readOnly (invoke text).
Proof.
  unfold invoke. apply sat_bind; [apply _ | by apply readOnly_emit |].
  intros _ w. unfold nextReply.
  assert (readOnly w (mkWorld (db w) (trace w) (tail (llm w)) (faults w))) as H.
  { split; [done |]. exists []. by rewrite app_nil_r. }
  destruct (llm w) as [|[e | r] rest]; exact H.
Qed.

Lemma readOnly_collectIndices finals s : sat readOnly (collectIndices finals s).
Proof.
  intros w. pose proof (collectIndices_spec finals s w) as H.
  destruct (collectIndices finals s w) as [[e | all] w']; simpl;
    destruct H as [-> _]; reflexivity.
Qed.

Lemma readOnly_validated achievements r : sat readOnly (validated achievements r).
Proof.
  unfold validated. destruct (finalAchievements r); [| apply sat_throw; apply _].
  apply sat_bind; [apply _ | apply readOnly_collectIndices |].
  intros all. destruct (0 <? _)%nat.
  - apply sat_bind; [apply _ | by apply readOnly_emit |].
    intros _. apply sat_throw; apply _.
  - apply sat_bind; [apply _ | by apply readOnly_emit |].
    intros _. apply sat_ret; apply _.
Qed.

Lemma readOnly_mergeWorkAchievementsWithAI achievements :
  sat readOnly (mergeWorkAchievementsWithAI achievements).
Proof.
  unfold mergeWorkAchievementsWithAI.
  destruct (length achievements <=? 1)%nat; [apply sat_ret; apply _ |].
  apply sat_tryCatch; [apply _ | |].
  - unfold mergeAttempt.
    apply sat_bind; [apply _ | apply readOnly_invoke |].
    intros r. apply readOnly_validated.
  - intros e. apply sat_bind; [apply _ | by apply readOnly_emit |].
    intros _. apply sat_ret; apply _.
Qed.

(** C8. With [dryRun = true], [deduplicateAndMergeWorkAchievements] writes
    nothing: the database after the call, and so the stored achievements,
    is the database before it, and the calls it made are reads, the LLM and
    the console. What it returns, when it returns, are counts and the
    preview. *)
Theorem deduplicateAndMergeWorkAchievements_dryRun_writes_nothing
    (toLowerCase : list Z → list Z) (userId workHistoryId : string) (w : World) :
  let w' := (deduplicateAndMergeWorkAchievements toLowerCase
               userId workHistoryId true w).2 in
  db w' = db w
  ∧ workAchievements (db w') = workAchievements (db w)
  ∧ ∃ t, trace w' = trace w ++ t ∧ Forall (λ ev, quiet ev = true) t.
Proof.
  assert (sat readOnly
            (deduplicateAndMergeWorkAchievements toLowerCase userId workHistoryId true)) as Hsat.
  { unfold deduplicateAndMergeWorkAchievements, Client.workHistory_findFirst,
      Client.workAchievement_findMany.
    apply sat_bind; [apply _ | by apply readOnly_query |].
    intros [found|]; [| apply sat_throw; apply _].
    apply sat_bind; [apply _ | by apply readOnly_query |].
    intros achievements.
    destruct (length achievements <=? 1)%nat; [apply sat_ret; apply _ |].
    apply sat_bind; [apply _ | by apply readOnly_emit |]. intros _.
    destruct (removeExactDuplicateWorkAchievements toLowerCase achievements) as [kept removed].
    destruct (length kept <=? 1)%nat.
    - simpl. apply sat_bind; [apply _ | apply sat_ret; apply _ |].
      intros _. apply sat_ret; apply _.
    - apply sat_bind; [apply _ | apply readOnly_mergeWorkAchievementsWithAI |].
      intros mergeResult. apply sat_ret; apply _. }
  destruct (Hsat w) as (Hdb & t & Ht & Hquiet). simpl.
  split; [done |]. split; [by rewrite Hdb |]. by exists t.
Qed.

(** ** Applying approved achievements *)

Lemma query_inr {A} (m : Model) (a : Action) (f : DB → A) w x w' :
  query m a f w = (inr x, w') → x = f (db w) ∧ db w' = db w.
Proof.
  unfold query. intros Hrun. apply call_inr in Hrun as [Hf _].
  injection Hf as -> ->. done.
Qed.

Lemma head_filter_elem {A} (P : A → Prop) `{!∀ x, Decision (P x)}
    (l : list A) (x : A) :
  head (filter P l) = Some x → x ∈ l ∧ P x.
Proof.
  intros Hhead.
  assert (x ∈ filter P l) as Hx.
  { destruct (filter P l) as [|y k]; [discriminate |].
    injection Hhead as ->. by left. }
  apply list_elem_of_filter in Hx. tauto.
Qed.

Lemma filter_all {A} (P : A → Prop) `{!∀ x, Decision (P x)} (l : list A) :
  Forall P l → filter P l = l.
Proof.
  induction 1 as [|x l Hx _ IH]; [done |].
  by rewrite filter_cons_True, IH.
Qed.

Lemma achievementsOf_newAchievements (d : DB) (whId : string)
    (descriptions : list string) :
  filter (λ a, WorkAchievement.workHistoryId a = whId)
         (Client.newAchievements d whId descriptions)
  = Client.newAchievements d whId descriptions.
Proof.
  apply filter_all, Forall_forall. intros a Ha.
  apply elem_of_lookup_imap_1 in Ha as (i & x & -> & _). done.
Qed.

Lemma newAchievements_descriptions (d : DB) (whId : string)
    (descriptions : list string) :
  WorkAchievement.description <$> Client.newAchievements d whId descriptions
  = descriptions.
Proof.
  unfold Client.newAchievements. rewrite fmap_imap.
  rewrite (imap_ext _ (const id)) by done.
  by rewrite imap_const, list_fmap_id.
Qed.

Lemma filter_filter_not {A} (P : A → Prop) `{!∀ x, Decision (P x)} (l : list A) :
  filter P (filter (λ x, ¬ P x) l) = [].
Proof.
  induction l as [|x l IH]; [done |].
  destruct (decide (P x)).
  - by rewrite (filter_cons_False (λ x, ¬ P x)) by tauto.
  - rewrite (filter_cons_True (λ x, ¬ P x)) by done.
    by rewrite filter_cons_False by done.
Qed.

(** What the transaction of [applyApprovedWorkAchievements] (and of the last
    step of [deduplicateAndMergeWorkAchievements]) leaves when it returns. *)
Lemma replace_achievements_inr (whId : string) (descriptions : list string) w w' :
  (Client.workAchievement_deleteMany
     (λ a, WorkAchievement.workHistoryId a = whId) ;;
   Client.workAchievement_createMany whId descriptions) w = (inr tt, w') →
  ∃ rows,
    workAchievements (db w')
    = filter (λ a, WorkAchievement.workHistoryId a ≠ whId) (workAchievements (db w))
      ++ rows
    ∧ Client.achievementsOf (db w') whId = rows
    ∧ WorkAchievement.description <$> rows = descriptions
    ∧ workHistories (db w') = workHistories (db w)
    ∧ userSkills (db w') = userSkills (db w).
Proof.
  intros Hrun. apply bind_inr in Hrun as ([] & w1 & Hdelete & Hcreate).
  apply call_inr in Hdelete as [Hdelete _]. injection Hdelete as Hd1.
  apply call_inr in Hcreate as [Hcreate _].
  destruct (_ || _) in Hcreate; [| discriminate]. injection Hcreate as Hd'.
  exists (Client.newAchievements (db w1) whId descriptions).
  unfold Client.achievementsOf. rewrite <- Hd'. simpl.
  rewrite filter_app, achievementsOf_newAchievements, newAchievements_descriptions.
  rewrite <- Hd1. simpl.
  rewrite (filter_filter_not (λ a, WorkAchievement.workHistoryId a = whId)).
  done.
Qed.


(** ** Merging work-history records *)

Section ListFacts.

Context {A B : Type}.

Lemma key_inj {K} (f : A → K) (l : list A) (x y : A) :
  NoDup (f <$> l) → x ∈ l → y ∈ l → f x = f y → x = y.
Proof.
  induction l as [|z l IH]; simpl; intros Hnd Hx Hy Hxy.
  { by apply elem_of_nil in Hx. }
  apply NoDup_cons in Hnd as [Hz Hnd].
  apply elem_of_cons in Hx as [-> | Hx], Hy as [-> | Hy]; [done | | | by apply IH].
  - exfalso. apply Hz. rewrite Hxy. apply list_elem_of_fmap. by exists y.
  - exfalso. apply Hz. rewrite <- Hxy. apply list_elem_of_fmap. by exists x.
Qed.

Lemma filter_ext_in (P Q : A → Prop) `{!∀ x, Decision (P x)}
    `{!∀ x, Decision (Q x)} (l : list A) :
  (∀ x, x ∈ l → P x ↔ Q x) → filter P l = filter Q l.
Proof.
  induction l as [|x l IH]; intros Hext; [done |].
  assert (filter P l = filter Q l) as Hl.
  { apply IH. intros y Hy. apply Hext. by right. }
  destruct (decide (P x)) as [HP | HP].
  - rewrite !filter_cons_True, Hl; [done | | done]. apply Hext; [by left | done].
  - rewrite !filter_cons_False, Hl; [done | | done].
    intros HQ. apply HP, Hext; [by left | done].
Qed.

Lemma omap_ext_in (f g : A → option B) (l : list A) :
  (∀ x, x ∈ l → f x = g x) → omap f l = omap g l.
Proof.
  induction l as [|x l IH]; intros Hext; [done |].
  assert (omap f l = omap g l) as Hl.
  { apply IH. intros y Hy. apply Hext. by right. }
  change (match f x with Some y => y :: omap f l | None => omap f l end
          = match g x with Some y => y :: omap g l | None => omap g l end).
  rewrite (Hext x) by by left. by rewrite Hl.
Qed.

Lemma fmap_as_omap (f : A → B) (l : list A) : f <$> l = omap (λ x, Some (f x)) l.
Proof.
  induction l as [|x l IH]; [done |].
  change (f x :: (f <$> l) = f x :: omap (λ x, Some (f x)) l). by rewrite IH.
Qed.

Lemma filter_as_omap (P : A → Prop) `{!∀ x, Decision (P x)} (l : list A) :
  filter P l = omap (λ x, if decide (P x) then Some x else None) l.
Proof.
  induction l as [|x l IH]; [done |].
  change (filter P (x :: l)
          = match (if decide (P x) then Some x else None) with
            | Some y => y :: omap (λ x, if decide (P x) then Some x else None) l
            | None => omap (λ x, if decide (P x) then Some x else None) l
            end).
  destruct (decide (P x)).
  - by rewrite filter_cons_True, IH.
  - by rewrite filter_cons_False, IH.
Qed.

Lemma filter_fmap_in (f : A → B) (P : B → Prop) (Q : A → Prop)
    `{!∀ y, Decision (P y)} `{!∀ x, Decision (Q x)} (l : list A) :
  (∀ x, x ∈ l → P (f x) ↔ Q x) → filter P (f <$> l) = f <$> filter Q l.
Proof.
  induction l as [|x l IH]; intros Hext; [done |].
  assert (filter P (f <$> l) = f <$> filter Q l) as Hl.
  { apply IH. intros y Hy. apply Hext. by right. }
  rewrite fmap_cons. destruct (decide (Q x)) as [HQ | HQ].
  - rewrite !filter_cons_True, Hl; [done | done |]. apply Hext; [by left | done].
  - rewrite !filter_cons_False, Hl; [done | done |].
    intros HP. apply HQ, Hext; [by left | done].
Qed.

End ListFacts.

Lemma omap_omap {A B C} (f : A → option B) (g : B → option C) (l : list A) :
  omap g (omap f l) = omap (λ x, f x ≫= g) l.
Proof.
  induction l as [|x l IH]; [done |].
  change (omap g (match f x with Some y => y :: omap f l | None => omap f l end)
          = match f x ≫= g with
            | Some z => z :: omap (λ x, f x ≫= g) l
            | None => omap (λ x, f x ≫= g) l
            end).
  destruct (f x) as [y|]; simpl; [| done].
  change (match g y with
          | Some z => z :: omap g (omap f l)
          | None => omap g (omap f l)
          end
          = match g y with
            | Some z => z :: omap (λ x, f x ≫= g) l
            | None => omap (λ x, f x ≫= g) l
            end).
  by rewrite IH.
Qed.

(** When the query found as many records as ids were asked for, the ids
    are pairwise distinct and each is the id of a record of the user. *)
Lemma selected_all (tbl : list WorkHistory.t) (all : list string) (u : string) :
  NoDup (WorkHistory.id <$> tbl) →
  length (filter (λ r, WorkHistory.id r ∈ all ∧ WorkHistory.userId r = u) tbl)
  = length all →
  NoDup all
  ∧ ∀ i, i ∈ all → ∃ r, r ∈ tbl ∧ WorkHistory.id r = i ∧ WorkHistory.userId r = u.
Proof.
  intros Hkeys Hlen.
  set (found := filter (λ r, WorkHistory.id r ∈ all ∧ WorkHistory.userId r = u) tbl)
    in *.
  assert (NoDup (WorkHistory.id <$> found)) as Hnd.
  { eapply sublist_NoDup; [exact Hkeys |]. apply fmap_sublist, sublist_filter. }
  assert (WorkHistory.id <$> found ≡ₚ all) as Hperm.
  { apply submseteq_length_Permutation.
    - apply NoDup_submseteq; [done |]. intros i Hi.
      apply list_elem_of_fmap in Hi as (r & -> & Hr).
      apply list_elem_of_filter in Hr. tauto.
    - rewrite length_fmap. lia. }
  split; [by rewrite <- Hperm |].
  intros i Hi. rewrite <- Hperm in Hi.
  apply list_elem_of_fmap in Hi as (r & -> & Hr).
  apply list_elem_of_filter in Hr as [[_ Hu] Hr]. by exists r.
Qed.

Lemma omap_Some {A} (l : list A) : omap Some l = l.
Proof.
  induction l as [|x l IH]; [done |].
  change (x :: omap Some l = x :: l). by rewrite IH.
Qed.

Section SkillLoop.

Variables (P : gset string) (p : string).

Lemma skillSteps_None (S : list UserSkill.t) : skillSteps P p S None = None.
Proof. induction S as [|s S IH]; [done | exact IH]. Qed.

Lemma skillSteps_Some (S : list UserSkill.t) (t t' : UserSkill.t) :
  UserSkill.id t' = UserSkill.id t →
  (∀ s, s ∈ S → UserSkill.id s = UserSkill.id t →
        UserSkill.skillId s = UserSkill.skillId t) →
  skillSteps P p S (Some t')
  = if decide (Exists (λ s, UserSkill.id s = UserSkill.id t) S)
    then if decide (UserSkill.skillId t ∈ P) then None
         else Some (UserSkill.withWorkHistory (Some p) t')
    else Some t'.
Proof.
  revert t'. induction S as [|s S IH]; intros t' Hid Hsame.
  { rewrite decide_False; [done |]. intros Hex. by apply Exists_nil in Hex. }
  assert (∀ s0, s0 ∈ S → UserSkill.id s0 = UserSkill.id t →
                UserSkill.skillId s0 = UserSkill.skillId t) as Hsame'.
  { intros s0 Hs0. apply Hsame. by right. }
  change (skillSteps P p (s :: S) (Some t'))
    with (skillSteps P p S (skillStep P p s t')).
  unfold skillStep. destruct (decide (UserSkill.id t' = UserSkill.id s)) as [Hs | Hs].
  - assert (UserSkill.skillId s = UserSkill.skillId t) as Hskill.
    { apply Hsame; [by left | congruence]. }
    destruct (decide (Exists (λ s0, UserSkill.id s0 = UserSkill.id t) (s :: S)))
      as [_ | Hno]; [| exfalso; apply Hno, Exists_cons; left; congruence].
    rewrite Hskill. destruct (decide (UserSkill.skillId t ∉ P)) as [Hout | Hin].
    + destruct (decide (UserSkill.skillId t ∈ P)) as [? | _]; [done |].
      rewrite IH by done.
      destruct (decide (Exists _ S)); [| done].
      destruct (decide (UserSkill.skillId t ∈ P)); done.
    + rewrite skillSteps_None.
      destruct (decide (UserSkill.skillId t ∈ P)) as [_ | ?]; done.
  - rewrite IH by done.
    apply decide_ext. rewrite Exists_cons. split; [tauto |].
    intros [? | ?]; [congruence | done].
Qed.

(** The loop over the secondary skills, when it returns, has applied every
    turn to the table of user skills and touched nothing else. *)
Lemma skill_loop_inr (S : list UserSkill.t) w w' :
  forEach S (λ userSkill,
    if decide (UserSkill.skillId userSkill ∉ P)
    then Client.userSkill_update (UserSkill.id userSkill)
           (UserSkill.withWorkHistory (Some p))
    else Client.userSkill_delete (UserSkill.id userSkill)) w = (inr tt, w') →
  workHistories (db w') = workHistories (db w)
  ∧ workAchievements (db w') = workAchievements (db w)
  ∧ userSkills (db w') = omap (λ t, skillSteps P p S (Some t)) (userSkills (db w)).
Proof.
  revert w. induction S as [|s S IH]; intros w Hrun.
  { injection Hrun as <-. split; [done |]. split; [done |].
    symmetry. exact (omap_Some (userSkills (db w))). }
  simpl in Hrun. apply bind_inr in Hrun as ([] & w1 & Hturn & Hrest).
  apply IH in Hrest as (Hwh & Hwa & Hus). rewrite Hwh, Hwa, Hus. clear IH Hwh Hwa Hus.
  assert (workHistories (db w1) = workHistories (db w)
          ∧ workAchievements (db w1) = workAchievements (db w)
          ∧ userSkills (db w1) = omap (skillStep P p s) (userSkills (db w)))
    as (-> & -> & ->).
  { unfold skillStep. destruct (decide (UserSkill.skillId s ∉ P)) as [Hout | Hin].
    - apply call_inr in Hturn as [Hturn _].
      destruct (head _) in Hturn; [| discriminate].
      destruct (from_option _ _ _) in Hturn; [| discriminate].
      injection Hturn as <-. simpl. split; [done |]. split; [done |].
      rewrite fmap_as_omap. apply omap_ext_in. intros x _.
      by destruct (decide (UserSkill.id x = UserSkill.id s)).
    - apply call_inr in Hturn as [Hturn _].
      destruct (head _) in Hturn; [| discriminate].
      injection Hturn as <-. simpl. split; [done |]. split; [done |].
      rewrite filter_as_omap. apply omap_ext_in. intros x _.
      destruct (decide (UserSkill.id x = UserSkill.id s)).
      + by rewrite decide_False by tauto.
      + by rewrite decide_True by done. }
  split; [done |]. split; [done |].
  rewrite omap_omap. apply omap_ext_in. intros t _.
  change (skillSteps P p (s :: S) (Some t))
    with (skillSteps P p S (skillStep P p s t)).
  destruct (skillStep P p s t); [done | by rewrite skillSteps_None].
Qed.

End SkillLoop.

(** Seen from the table before the merge, the loop does to every user
    skill what [mergedSkill] says, in whatever order it meets the skills of
    the secondary records. *)
Lemma merged_skills (d : DB) (p : string) (sec : list string)
    (P : gset string) (S : list UserSkill.t) :
  NoDup (UserSkill.id <$> userSkills d) →
  (∀ x, x ∈ P ↔ x ∈ UserSkill.skillId <$> Client.userSkillsOf d p) →
  (∀ s, s ∈ S ↔ s ∈ userSkills d
                 ∧ ∃ h, h ∈ sec ∧ UserSkill.workHistoryId s = Some h) →
  omap (λ t, skillSteps P p S (Some t)) (userSkills d)
  = omap (mergedSkill d p sec) (userSkills d).
Proof.
  intros Hkeys HP HS. apply omap_ext_in. intros t Ht.
  rewrite (skillSteps_Some _ p S t t eq_refl).
  2:{ intros s Hs Hid. apply HS in Hs as [Hin _].
      by rewrite (key_inj UserSkill.id (userSkills d) s t Hkeys Hin Ht Hid). }
  unfold mergedSkill.
  destruct (decide (Exists _ S)) as [Hex | Hno].
  - apply Exists_exists in Hex as (s & Hs & Hid).
    apply HS in Hs as [Hin (h & Hh & Hwh)].
    assert (s = t) as -> by exact (key_inj UserSkill.id _ s t Hkeys Hin Ht Hid).
    rewrite Hwh. destruct (decide (h ∈ sec)) as [_ | ?]; [| done].
    destruct (decide (UserSkill.skillId t ∈ P)) as [Hp | Hp];
      destruct (decide (UserSkill.skillId t
                        ∈ UserSkill.skillId <$> Client.userSkillsOf d p))
        as [Hp' | Hp']; try done.
    + exfalso. apply Hp'. by apply HP.
    + exfalso. apply Hp. by apply HP.
  - destruct (UserSkill.workHistoryId t) as [h|] eqn:Hwh; [| done].
    destruct (decide (h ∈ sec)) as [Hh | Hh]; [| done].
    exfalso. apply Hno, Exists_exists. exists t. split; [| done].
    apply HS. split; [done |]. by exists h.
Qed.

Section MergeTransaction.

Variable newDate : string → JS.Date.
Variables (u p : string) (sec : list string) (md : MergedDetails.t).

(** What the callback of the transaction leaves when it returns. *)
Lemma mergeInTransaction_inr (pr : Included.t) (srs : list Included.t)
    w result w' :
  mergeInTransaction newDate u p sec md pr srs w = (inr result, w') →
  let gone :=
    WorkHistory.id <$> filter (λ r, WorkHistory.id r ∈ sec ∧ WorkHistory.userId r = u)
                              (mergedRow newDate p md <$> workHistories (db w)) in
  (∃ r0, r0 ∈ workHistories (db w) ∧ WorkHistory.id r0 = p
         ∧ result = withMergedDetails newDate md r0)
  ∧ workHistories (db w')
    = filter (λ r, ¬ (WorkHistory.id r ∈ sec ∧ WorkHistory.userId r = u))
             (mergedRow newDate p md <$> workHistories (db w))
  ∧ (∃ rows,
        Forall (λ a, WorkAchievement.workHistoryId a = p) rows
        ∧ WorkAchievement.description <$> rows
          = filter (λ x, x ∉ WorkAchievement.description <$> Included.achievements pr)
                   (srs ≫= (λ r, WorkAchievement.description
                                    <$> Included.achievements r))
        ∧ workAchievements (db w')
          = filter (λ a, WorkAchievement.workHistoryId a ∉ gone)
                   (workAchievements (db w) ++ rows))
  ∧ userSkills (db w')
    = Client.detachFrom gone
        <$> omap (λ t, skillSteps
                         (list_to_set (UserSkill.skillId <$> Included.userSkills pr))
                         p (srs ≫= Included.userSkills) (Some t))
                 (userSkills (db w)).
Proof.
  intros Hrun. unfold mergeInTransaction in Hrun.
  apply bind_inr in Hrun as (updated & w1 & Hupdate & Hrun).
  apply call_inr in Hupdate as [Hupdate _].
  destruct (head _) as [r0|] eqn:Hhead in Hupdate; [| discriminate].
  destruct (Client.validDates _) in Hupdate; [| discriminate].
  injection Hupdate as <- Hd1.
  apply head_filter_elem in Hhead as [Hr0 Hp].
  apply bind_inr in Hrun as ([] & w2 & Hcreate & Hrun).
  set (uniqueNew := filter _ (srs ≫= _)) in *.
  assert (workHistories (db w2) = workHistories (db w1)
          ∧ userSkills (db w2) = userSkills (db w1)
          ∧ workAchievements (db w2)
            = workAchievements (db w1) ++ Client.newAchievements (db w1) p uniqueNew)
    as (Hwh2 & Hus2 & Hwa2).
  { destruct (0 <? length uniqueNew)%nat eqn:Hany.
    - apply call_inr in Hcreate as [Hcreate _].
      destruct (_ || _) in Hcreate; [| discriminate].
      injection Hcreate as <-. done.
    - injection Hcreate as <-. apply positive_length in Hany. rewrite Hany.
      simpl. by rewrite app_nil_r. }
  apply bind_inr in Hrun as ([] & w3 & Hloop & Hrun).
  apply skill_loop_inr in Hloop as (Hwh3 & Hwa3 & Hus3).
  apply bind_inr in Hrun as ([] & w4 & Hdelete & Hret).
  injection Hret as <- <-.
  apply call_inr in Hdelete as [Hdelete _]. injection Hdelete as <-. simpl.
  rewrite Hwh3, Hwa3, Hus3, Hwh2, Hwa2, Hus2.
  split; [exists r0; split; [done |]; split; done |].
  split; [by rewrite <- Hd1 |]. split; [| by rewrite <- Hd1].
  exists (Client.newAchievements (db w1) p uniqueNew).
  split; [| split; [apply newAchievements_descriptions | by rewrite <- Hd1]].
  apply Forall_forall. intros a Ha.
  apply elem_of_lookup_imap_1 in Ha as (i & x & -> & _). reflexivity.
Qed.

End MergeTransaction.

Lemma bind_Permutation_ext {A B} (f g : A → list B) (l k : list A) :
  l ≡ₚ k → (∀ x, f x ≡ₚ g x) → l ≫= f ≡ₚ k ≫= g.
Proof.
  intros Hlk Hfg. rewrite <- Hlk. clear k Hlk.
  induction l as [|x l IH]; [done |]. simpl. by rewrite (Hfg x), IH.
Qed.

Section MergePost.

Variable newDate : string → JS.Date.
Variable listed : ∀ A : Type, list A → list A.
Variables (u p : string) (sec : list string) (md : MergedDetails.t).

Hypothesis Hlisted : arrangement listed.

Lemma mergeRecordsAttempt_inl w e w' :
  mergeRecordsAttempt newDate listed u p sec md w = (inl e, w') → db w' = db w.
Proof.
  unfold mergeRecordsAttempt, Client.workHistory_findMany. intros Hrun.
  apply bind_inl in Hrun as [Hrun | (whs & w1 & Hfind & Hrun)].
  { by apply call_inl in Hrun. }
  apply query_inr in Hfind as [_ <-].
  destruct (negb _) in Hrun; [by injection Hrun as _ <- |].
  destruct (head _) in Hrun; [| by injection Hrun as _ <-].
  apply bind_inl in Hrun as [Hrun | (r & w2 & _ & Hrun)]; [| discriminate].
  by apply transaction_inl in Hrun.
Qed.

Lemma secondary_owned (d : DB) (r : WorkHistory.t) :
  NoDup (WorkHistory.id <$> workHistories d) → selected u p sec d →
  r ∈ workHistories d → WorkHistory.id r ∈ sec → WorkHistory.userId r = u.
Proof.
  intros Hkeys [_ Hall] Hr Hsec.
  destruct (Hall (WorkHistory.id r)) as (r' & Hr' & Hid & Hu); [by right |].
  by rewrite <- (key_inj WorkHistory.id _ r' r Hkeys Hr' Hr Hid).
Qed.

Lemma mergedRow_id r : WorkHistory.id (mergedRow newDate p md r) = WorkHistory.id r.
Proof. unfold mergedRow. by destruct (decide _). Qed.

Lemma mergedRow_userId r :
  WorkHistory.userId (mergedRow newDate p md r) = WorkHistory.userId r.
Proof. unfold mergedRow. by destruct (decide _). Qed.

Lemma gone_iff (d : DB) (h : string) :
  NoDup (WorkHistory.id <$> workHistories d) → selected u p sec d →
  h ∈ WorkHistory.id
        <$> filter (λ r, WorkHistory.id r ∈ sec ∧ WorkHistory.userId r = u)
                   (mergedRow newDate p md <$> workHistories d)
  ↔ h ∈ sec.
Proof.
  intros Hkeys Hsel. split.
  - intros Hh. apply list_elem_of_fmap in Hh as (r & -> & Hr).
    apply list_elem_of_filter in Hr. tauto.
  - intros Hh. destruct Hsel as [_ Hall].
    destruct (Hall h) as (r & Hr & Hid & Hu); [by right |].
    apply list_elem_of_fmap. exists (mergedRow newDate p md r).
    rewrite mergedRow_id. split; [done |].
    apply list_elem_of_filter. rewrite mergedRow_id, mergedRow_userId.
    split; [by rewrite Hid |]. apply list_elem_of_fmap. by exists r.
Qed.

Lemma remaining_histories (d : DB) :
  NoDup (WorkHistory.id <$> workHistories d) → selected u p sec d →
  filter (λ r, ¬ (WorkHistory.id r ∈ sec ∧ WorkHistory.userId r = u))
         (mergedRow newDate p md <$> workHistories d)
  = mergedRow newDate p md <$> filter (λ r, WorkHistory.id r ∉ sec) (workHistories d).
Proof.
  intros Hkeys Hsel. apply filter_fmap_in. intros r Hr.
  rewrite mergedRow_id, mergedRow_userId. split; [| tauto].
  intros Hno Hsec. apply Hno. split; [done |].
  by apply (secondary_owned d r).
Qed.

Lemma secondary_records (d : DB) :
  filter (λ wh, WorkHistory.id (Included.record wh) ∈ sec)
         (Client.withRelations listed true d
            <$> listed _
                  (filter (λ r, WorkHistory.id r ∈ p :: sec ∧ WorkHistory.userId r = u)
                          (workHistories d)))
  = Client.withRelations listed true d
      <$> filter (λ r, WorkHistory.id r ∈ sec)
                 (listed _
                    (filter (λ r, WorkHistory.id r ∈ p :: sec
                                  ∧ WorkHistory.userId r = u)
                            (workHistories d))).
Proof. by apply filter_fmap_in. Qed.

Lemma secondary_listed (d : DB) :
  NoDup (WorkHistory.id <$> workHistories d) → selected u p sec d →
  filter (λ r, WorkHistory.id r ∈ sec)
         (listed _
            (filter (λ r, WorkHistory.id r ∈ p :: sec ∧ WorkHistory.userId r = u)
                    (workHistories d)))
  ≡ₚ filter (λ r, WorkHistory.id r ∈ sec) (workHistories d).
Proof.
  intros Hkeys Hsel. rewrite (Hlisted _ _), list_filter_filter.
  rewrite (filter_ext_in _ (λ r, WorkHistory.id r ∈ sec)); [done |].
  intros r Hr. split; [tauto |]. intros Hsec. split; [done |].
  split; [by right |]. by apply (secondary_owned d r).
Qed.

Lemma detach_merged (d : DB) (gone : list string) :
  p ∉ sec → (∀ h, h ∈ gone → h ∈ sec) →
  Client.detachFrom gone <$> omap (mergedSkill d p sec) (userSkills d)
  = omap (mergedSkill d p sec) (userSkills d).
Proof.
  intros Hp Hgone. rewrite list_fmap_omap. apply omap_ext_in. intros t _.
  unfold mergedSkill, Client.detachFrom.
  destruct (UserSkill.workHistoryId t) as [h|] eqn:Hwh; simpl; [| by rewrite Hwh].
  destruct (decide (h ∈ sec)) as [Hh | Hh].
  - destruct (decide (UserSkill.skillId t ∈ _)); [done |]. simpl.
    destruct (decide (p ∈ gone)) as [Hin | _]; [| done].
    by destruct (Hp (Hgone p Hin)).
  - simpl. rewrite Hwh.
    destruct (decide (h ∈ gone)) as [Hin | _]; [| done].
    by destruct (Hh (Hgone h Hin)).
Qed.

Lemma mergeRecordsAttempt_inr w res w' :
  mergeRecordsAttempt newDate listed u p sec md w = (inr res, w') →
  Merge.success res = true
  ∧ Merge.mergedRecord res
    = MergedRecord.mk p (MergedDetails.companyName md) (MergedDetails.jobTitle md)
        (newDate (MergedDetails.startDate md)) (endDateOf newDate md)
  ∧ (wellKeyed (db w) →
     selected u p sec (db w) ∧ mergedInto newDate p sec md (db w) (db w')).
Proof.
  unfold mergeRecordsAttempt, Client.workHistory_findMany. intros Hrun.
  apply bind_inr in Hrun as (whs & w1 & Hfind & Hrun).
  apply query_inr in Hfind as [-> Hdb1].
  destruct (negb _) eqn:Hlen in Hrun; [discriminate |].
  apply negb_false_iff, Nat.eqb_eq in Hlen.
  rewrite length_fmap, (Permutation_length (Hlisted _ _)) in Hlen.
  destruct (head _) as [pr|] eqn:Hhead in Hrun; [| discriminate].
  apply bind_inr in Hrun as (result & w2 & Htx & Hret).
  injection Hret as <- <-.
  apply transaction_inr in Htx as (wa & wb & Hstart & Hbody & Hend).
  apply mergeInTransaction_inr in Hbody
    as ((r0 & Hr0 & Hid0 & ->) & Hwh & (rows & Hrows & Hdescr & Hwa) & Hus).
  rewrite Hstart, Hdb1 in Hwh, Hwa, Hus. rewrite Hend. clear Hstart Hend Hr0.
  split; [done |].
  split; [unfold asMergedRecord, withMergedDetails; simpl; by rewrite Hid0 |].
  intros [Hkeys Hskills].
  assert (selected u p sec (db w)) as Hsel by by apply selected_all.
  split; [done |].
  pose proof (proj1 Hsel) as Hnd. apply NoDup_cons in Hnd as [Hp Hsec].
  apply head_filter_elem in Hhead as [Hpr Hprid].
  apply list_elem_of_fmap in Hpr as (rp & -> & _). simpl in Hprid.
  rewrite secondary_records in Hdescr, Hus.
  rewrite list_fmap_bind in Hdescr, Hus. simpl in Hdescr, Hus.
  rewrite Hprid in Hdescr, Hus.
  unfold mergedInto. split; [| split].
  - rewrite Hwh. by apply remaining_histories.
  - exists rows. split; [| split; [done |]].
    + rewrite Hwa, filter_app. f_equal.
      * apply list_filter_iff. intros a. by rewrite gone_iff.
      * apply filter_all. eapply Forall_impl; [exact Hrows |].
        intros a ->. by rewrite gone_iff.
    + rewrite Hdescr.
      rewrite (list_filter_iff _
                 (λ x, x ∉ WorkAchievement.description
                             <$> Client.achievementsOf (db w) p)).
      2:{ intros x. by rewrite (Hlisted _ _). }
      apply filter_Permutation. unfold secondaryDescriptions.
      apply bind_Permutation_ext; [by apply secondary_listed |].
      intros r. simpl. by rewrite (Hlisted _ _).
  - rewrite Hus.
    etrans; [| apply (detach_merged (db w)); [done | intros h; by rewrite gone_iff]].
    f_equal. apply (merged_skills (db w) p sec); [done | |].
    + intros x. rewrite elem_of_list_to_set. by rewrite (Hlisted _ _).
    + intros s. rewrite list_elem_of_bind. split.
      * intros (r & Hs & Hr). simpl in Hs. rewrite (Hlisted _ _) in Hs.
        apply list_elem_of_filter in Hs as [Hs Hin].
        apply list_elem_of_filter in Hr as [Hr _].
        split; [done |]. by exists (WorkHistory.id r).
      * intros [Hin (h & Hh & Hs)].
        destruct (proj2 Hsel h) as (r & Hr & Hrid & Hu); [by right |].
        exists r. split.
        -- simpl. rewrite (Hlisted _ _). apply list_elem_of_filter.
           split; [congruence | done].
        -- apply list_elem_of_filter. split; [congruence |].
           rewrite (Hlisted _ _). apply list_elem_of_filter.
           split; [| done]. split; [| done]. rewrite Hrid. by right.
Qed.

End MergePost.

(** ** Returning runs pass no fault *)

Lemma Forall_take_add {A} (P : A → Prop) (n m : nat) (l : list A) :
  Forall P (take n l) → Forall P (take m (drop n l)) → Forall P (take (n + m) l).
Proof.
  revert l. induction n as [|n IH]; intros [|x l]; simpl; try done.
  intros Hx Hrest. apply Forall_cons in Hx as [Hx Hl].
  constructor; [done | by apply IH].
Qed.

#[global] Instance faultsPassed_preorder : PreOrder faultsPassed.
Proof.
  split.
  - intros w. exists 0%nat. split; [done | constructor].
  - intros w1 w2 w3 (n & Hn & Hfree) (m & Hm & Hfree').
    exists (n + m)%nat. rewrite Hm, Hn, drop_drop. split; [done |].
    rewrite Hn in Hfree'. by apply Forall_take_add.
Qed.

Section OnReturn.

Context (R : World → World → Prop) `{!PreOrder R}.

Lemma onReturn_ret {A} (a : A) : onReturn R (mret a).
Proof. intros w a' w' [= _ <-]. reflexivity. Qed.

Lemma onReturn_throw {A} (e : Exn) : onReturn R (throw (A := A) e).
Proof. intros w a w' Hrun. discriminate. Qed.

Lemma onReturn_bind {A B} (m : M A) (k : A → M B) :
  onReturn R m → (∀ a, onReturn R (k a)) → onReturn R (m ≫= k).
Proof.
  intros Hm Hk w b w'' Hrun. apply bind_inr in Hrun as (a & w' & Hrun & Hrest).
  etrans; [by eapply Hm | by eapply Hk].
Qed.

Lemma onReturn_forEach {A} (xs : list A) (body : A → M unit) :
  (∀ x, onReturn R (body x)) → onReturn R (forEach xs body).
Proof.
  intros Hbody. induction xs as [|x xs IH]; simpl.
  - apply onReturn_ret.
  - apply onReturn_bind; [apply Hbody | intros _; apply IH].
Qed.

End OnReturn.

Lemma faultsPassed_step (w w' : World) :
  (faults w = [] ∨ ∃ rest, faults w = None :: rest) →
  faults w' = tail (faults w) → faultsPassed w w'.
Proof.
  intros Hhead Htail. exists 1%nat. rewrite Htail.
  destruct Hhead as [-> | [rest ->]]; simpl.
  - split; [done | constructor].
  - rewrite drop_0, take_0. split; [done | by constructor].
Qed.

Lemma call_passes {A} (m : Model) (a : Action) (f : DB → Exn + A * DB) :
  onReturn faultsPassed (call m a f).
Proof.
  intros w x w'. rewrite call_run. simpl.
  destruct (faults w) as [|[e|] rest] eqn:Hfaults; try discriminate;
    destruct (f (db w)) as [e' | [y d]]; try discriminate;
    intros [= _ <-]; apply faultsPassed_step; simpl; rewrite Hfaults; eauto.
Qed.

Lemma transaction_passes {A} (body : M A) :
  onReturn faultsPassed body → onReturn faultsPassed (transaction body).
Proof.
  intros Hbody w x w' Hrun. rewrite transaction_run in Hrun.
  remember (mkWorld (db w) (trace w ++ [TxBegin]) (llm w) (tail (faults w)))
    as w0 eqn:Hw0.
  assert ((faults w = [] ∨ ∃ rest, faults w = None :: rest) → faultsPassed w w0)
    as Hbegin.
  { intros Hhead. apply faultsPassed_step; [done | by rewrite Hw0]. }
  assert (∀ w1, (faults w1 = [] ∨ ∃ rest, faults w1 = None :: rest) →
                faultsPassed w1 (mkWorld (db w1) (trace w1 ++ [TxCommit]) (llm w1)
                                         (tail (faults w1)))) as Hcommit.
  { intros w1 Hhead. by apply faultsPassed_step. }
  destruct (faults w) as [|[e|] rest]; try discriminate;
    destruct (body w0) as [[e1 | r] w1] eqn:Hrun0; try discriminate;
    pose proof (Hcommit w1) as Hc;
    destruct (faults w1) as [|[e2|] rest2]; try discriminate;
    injection Hrun as _ <-;
    (etrans; [apply Hbegin; eauto |]);
    (etrans; [exact (Hbody _ _ _ Hrun0) |]);
    apply Hc; eauto.
Qed.

Lemma mergeRecordsAttempt_passes newDate listed u p sec md :
  onReturn faultsPassed (mergeRecordsAttempt newDate listed u p sec md).
Proof.
  unfold mergeRecordsAttempt, Client.workHistory_findMany, query.
  apply onReturn_bind; [apply _ | apply call_passes |]. intros whs.
  destruct (negb _); [apply onReturn_throw |].
  destruct (head _) as [pr|]; [| apply onReturn_throw].
  apply onReturn_bind; [apply _ | | intros r; apply onReturn_ret; apply _].
  apply transaction_passes. unfold mergeInTransaction.
  apply onReturn_bind; [apply _ | apply call_passes |]. intros updated.
  apply onReturn_bind; [apply _ | |].
  { destruct (0 <? _)%nat; [apply call_passes | apply onReturn_ret; apply _]. }
  intros _. apply onReturn_bind; [apply _ | |].
  { apply onReturn_forEach; [apply _ |]. intros s.
    destruct (decide _); apply call_passes. }
  intros _. apply onReturn_bind; [apply _ | apply call_passes |].
  intros _. apply onReturn_ret; apply _.
Qed.

(** ** Runs in which no call fails *)

Lemma faultless_next (w : World) (t : list Event) (d : DB) :
  faultless w → faultless (mkWorld d t (llm w) (tail (faults w))).
Proof.
  unfold faultless. simpl. destruct (faults w) as [|f rest]; [done |].
  intros Hfl. by apply Forall_cons in Hfl as [_ ?].
Qed.

Lemma succeeds_ret {A} (P : DB → Prop) (Q : A → DB → Prop) (a : A) :
  (∀ d, P d → Q a d) → succeeds P (mret a) Q.
Proof. intros HPQ w Hfl HP. exists a, w. split; [done |]. split; [done | by apply HPQ]. Qed.

Lemma succeeds_bind {A B} (P : DB → Prop) (Q : A → DB → Prop) (R : B → DB → Prop)
    (m : M A) (k : A → M B) :
  succeeds P m Q → (∀ a, succeeds (Q a) (k a) R) → succeeds P (m ≫= k) R.
Proof.
  intros Hm Hk w Hfl HP. destruct (Hm w Hfl HP) as (a & w1 & Hrun & Hfl1 & HQ).
  destruct (Hk a w1 Hfl1 HQ) as (b & w2 & Hrun2 & Hfl2 & HR).
  exists b, w2. rewrite bind_run, Hrun. done.
Qed.

Lemma succeeds_call {A} (P : DB → Prop) (Q : A → DB → Prop)
    (m : Model) (a : Action) (f : DB → Exn + A * DB) :
  (∀ d, P d → ∃ x d', f d = inr (x, d') ∧ Q x d') → succeeds P (call m a f) Q.
Proof.
  intros Hf w Hfl HP. destruct (Hf _ HP) as (x & d' & Hfd & HQ).
  exists x, (mkWorld d' (trace w ++ [Prisma m a]) (llm w) (tail (faults w))).
  split; [| split; [by apply faultless_next | done]].
  rewrite call_run. simpl. rewrite Hfd.
  destruct (faults w) as [|[e|] rest] eqn:Hfaults; [done | | done].
  unfold faultless in Hfl. rewrite Hfaults in Hfl.
  apply Forall_cons in Hfl as [? _]. discriminate.
Qed.

Lemma succeeds_transaction {A} (P : DB → Prop) (Q : A → DB → Prop) (body : M A) :
  succeeds P body Q → succeeds P (transaction body) Q.
Proof.
  intros Hbody w Hfl HP.
  destruct (Hbody (mkWorld (db w) (trace w ++ [TxBegin]) (llm w) (tail (faults w))))
    as (r & w1 & Hrun & Hfl1 & HQ); [by apply faultless_next | done |].
  exists r, (mkWorld (db w1) (trace w1 ++ [TxCommit]) (llm w1) (tail (faults w1))).
  split; [| split; [by apply faultless_next | done]].
  rewrite transaction_run.
  destruct (faults w) as [|[e|] rest] eqn:Hfaults.
  - rewrite Hrun. destruct (faults w1) as [|[e|] rest1] eqn:Hfaults1; [done | | done].
    unfold faultless in Hfl1. rewrite Hfaults1 in Hfl1.
    apply Forall_cons in Hfl1 as [? _]. discriminate.
  - unfold faultless in Hfl. rewrite Hfaults in Hfl.
    apply Forall_cons in Hfl as [? _]. discriminate.
  - rewrite Hrun. destruct (faults w1) as [|[e|] rest1] eqn:Hfaults1; [done | | done].
    unfold faultless in Hfl1. rewrite Hfaults1 in Hfl1.
    apply Forall_cons in Hfl1 as [? _]. discriminate.
Qed.

Lemma succeeds_forEach {A} (I : list A → DB → Prop) (body : A → M unit)
    (xs : list A) :
  (∀ x rest, succeeds (I (x :: rest)) (body x) (λ _, I rest)) →
  succeeds (I xs) (forEach xs body) (λ _, I []).
Proof.
  intros Hbody. induction xs as [|x xs IH]; [by apply succeeds_ret |].
  simpl. eapply succeeds_bind; [apply Hbody | intros []; exact IH].
Qed.

Lemma updated_ids {A K} `{EqDecision K} (key : A → K) (k : K) (f : A → A)
    (l : list A) :
  (∀ x, key (f x) = key x) →
  key <$> ((λ x, if decide (key x = k) then f x else x) <$> l) = key <$> l.
Proof.
  intros Hkey. rewrite <- list_fmap_compose. apply list_fmap_ext.
  intros i x _. simpl. by destruct (decide _).
Qed.

Lemma head_of_key {A K} `{EqDecision K} (key : A → K) (k : K) (l : list A) :
  k ∈ key <$> l → is_Some (head (filter (λ x, key x = k) l)).
Proof.
  intros (x & -> & Hx)%list_elem_of_fmap. by apply (head_filter_is_Some _ _ x).
Qed.

(** The skills of records with distinct ids are distinct rows. *)
Lemma skills_of_distinct (us : list UserSkill.t) (rs : list WorkHistory.t) :
  NoDup (WorkHistory.id <$> rs) → NoDup (UserSkill.id <$> us) →
  NoDup (UserSkill.id
           <$> (rs ≫= (λ r, filter (λ s, UserSkill.workHistoryId s
                                          = Some (WorkHistory.id r)) us))).
Proof.
  intros Hrs Hus. induction rs as [|r rs IH]; [constructor |].
  simpl in Hrs. apply NoDup_cons in Hrs as [Hr Hrs]. simpl.
  rewrite fmap_app. apply NoDup_app. split; [| split; [| by apply IH]].
  - eapply sublist_NoDup; [exact Hus |]. apply fmap_sublist, sublist_filter.
  - intros x (s1 & Hx1 & Hs1)%list_elem_of_fmap (s2 & Hx2 & Hs2)%list_elem_of_fmap.
    apply list_elem_of_filter in Hs1 as [Hwh1 Hin1].
    apply list_elem_of_bind in Hs2 as (r' & Hs2 & Hr').
    apply list_elem_of_filter in Hs2 as [Hwh2 Hin2].
    assert (s1 = s2) as ->.
    { apply (key_inj UserSkill.id us s1 s2 Hus Hin1 Hin2). congruence. }
    apply Hr. rewrite Hwh1 in Hwh2. injection Hwh2 as ->.
    apply list_elem_of_fmap. by exists r'.
Qed.

Section MergeSucceeds.

Variable newDate : string → JS.Date.
Variable listed : ∀ A : Type, list A → list A.
Variables (u p : string) (sec : list string) (md : MergedDetails.t).

Hypothesis Hlisted : arrangement listed.
Hypothesis Hvalid : validMergedDates newDate md.

(** What the loop over the skills of the secondary records needs of the
    skills it has still to meet: they are distinct rows, and rows of the
    table. *)
Let pending (S : list UserSkill.t) (d : DB) : Prop :=
  p ∈ WorkHistory.id <$> workHistories d
  ∧ NoDup (UserSkill.id <$> S)
  ∧ ∀ s, s ∈ S → UserSkill.id s ∈ UserSkill.id <$> userSkills d.

Lemma skill_loop_succeeds (P : gset string) (S : list UserSkill.t) :
  succeeds (pending S)
    (forEach S (λ userSkill,
       if decide (UserSkill.skillId userSkill ∉ P)
       then Client.userSkill_update (UserSkill.id userSkill)
              (UserSkill.withWorkHistory (Some p))
       else Client.userSkill_delete (UserSkill.id userSkill)))
    (λ _, pending []).
Proof.
  apply (succeeds_forEach pending). intros x rest.
  destruct (decide _); apply succeeds_call; intros d (Hp & Hnd & Hin);
    simpl in Hnd; apply NoDup_cons in Hnd as [Hx Hnd];
    destruct (head_of_key UserSkill.id (UserSkill.id x) (userSkills d))
      as [s0 Hs0]; try (apply Hin; by left); rewrite Hs0.
  - simpl. unfold Client.hasWorkHistory. rewrite bool_decide_eq_true_2 by done.
    eexists _, _. split; [reflexivity |]. split; [done |]. split; [done |].
    intros s Hs. simpl. rewrite updated_ids by done. apply Hin. by right.
  - eexists _, _. split; [reflexivity |]. split; [done |]. split; [done |].
    intros s Hs. simpl.
    assert (UserSkill.id s ∈ UserSkill.id <$> userSkills d) as Hmem
      by (apply Hin; by right).
    apply list_elem_of_fmap in Hmem as (s' & Hid & Hs').
    apply list_elem_of_fmap. exists s'. split; [done |].
    apply list_elem_of_filter. split; [| done].
    intros Heq. apply Hx. apply list_elem_of_fmap. exists s. split; [congruence | done].
Qed.

Lemma mergeInTransaction_succeeds (pr : Included.t) (srs : list Included.t) :
  succeeds (pending (srs ≫= Included.userSkills))
    (mergeInTransaction newDate u p sec md pr srs) (λ _ _, True).
Proof.
  unfold mergeInTransaction.
  apply (succeeds_bind _ (λ _, pending (srs ≫= Included.userSkills))).
  { apply succeeds_call. intros d (Hp & Hnd & Hin).
    destruct (head_of_key WorkHistory.id p (workHistories d)) as [r Hr]; [done |].
    rewrite Hr. destruct Hvalid as [Hstart Hend].
    unfold Client.validDates, withMergedDetails. simpl. rewrite Hstart, Hend. simpl.
    eexists _, _. split; [reflexivity |]. split; [| done]. simpl.
    by rewrite updated_ids. }
  intros updatedPrimary.
  apply (succeeds_bind _ (λ _, pending (srs ≫= Included.userSkills))).
  { destruct (0 <? _)%nat; [| by apply succeeds_ret].
    apply succeeds_call. intros d (Hp & Hnd & Hin).
    unfold Client.hasWorkHistory. rewrite bool_decide_eq_true_2 by done. simpl.
    eexists _, _. split; [reflexivity |]. done. }
  intros [].
  apply (succeeds_bind _ (λ _, pending [])); [apply skill_loop_succeeds |].
  intros []. apply (succeeds_bind _ (λ _ _, True)).
  { apply succeeds_call. intros d _. by eexists _, _. }
  intros []. by apply succeeds_ret.
Qed.

(** As many records are found as ids were asked for, when the ids are
    distinct records of the user. *)
Lemma selected_count (d : DB) :
  NoDup (WorkHistory.id <$> workHistories d) → selected u p sec d →
  length (filter (λ r, WorkHistory.id r ∈ p :: sec ∧ WorkHistory.userId r = u)
                 (workHistories d))
  = length (p :: sec).
Proof.
  intros Hkeys [Hnd Hall].
  rewrite <- (length_fmap WorkHistory.id). apply Permutation_length.
  apply NoDup_Permutation; [| done |].
  - eapply sublist_NoDup; [exact Hkeys |]. apply fmap_sublist, sublist_filter.
  - intros i. split.
    + intros (r & -> & Hr)%list_elem_of_fmap.
      apply list_elem_of_filter in Hr. tauto.
    + intros Hi. destruct (Hall i Hi) as (r & Hr & Hid & Hu).
      apply list_elem_of_fmap. exists r. split; [done |].
      apply list_elem_of_filter. rewrite Hid. done.
Qed.

Lemma mergeRecordsAttempt_succeeds :
  succeeds (λ d, wellKeyed d ∧ selected u p sec d)
    (mergeRecordsAttempt newDate listed u p sec md)
    (λ res _, Merge.success res = true).
Proof.
  unfold mergeRecordsAttempt, Client.workHistory_findMany, query.
  apply (succeeds_bind _
           (λ whs d,
              wellKeyed d ∧ selected u p sec d
              ∧ whs = Client.withRelations listed true d
                        <$> listed _
                              (filter (λ r, WorkHistory.id r ∈ p :: sec
                                            ∧ WorkHistory.userId r = u)
                                      (workHistories d)))).
  { apply succeeds_call. intros d [Hkeys Hsel]. by eexists _, _. }
  intros whs w Hfl ([Hkeys Hskills] & Hsel & ->).
  rewrite length_fmap, (Permutation_length (Hlisted _ _)),
    (selected_count (db w) Hkeys Hsel), Nat.eqb_refl.
  simpl negb. cbv iota.
  destruct (proj2 Hsel p) as (rp & Hrp & Hid & Hu); [by left |].
  destruct (head_filter_is_Some
              (λ wh, WorkHistory.id (Included.record wh) = p)
              (Client.withRelations listed true (db w)
                 <$> listed _
                       (filter (λ r, WorkHistory.id r ∈ p :: sec
                                     ∧ WorkHistory.userId r = u)
                               (workHistories (db w))))
              (Client.withRelations listed true (db w) rp)) as [pr Hpr];
    [| done |].
  { apply list_elem_of_fmap. exists rp. split; [done |].
    rewrite (Hlisted _ _). apply list_elem_of_filter. rewrite Hid, Hu.
    split; [| done]. split; [by left | done]. }
  rewrite Hpr.
  refine (succeeds_bind (pending _) (λ _ _, True)
            (λ res _, Merge.success res = true) _ _ _ _ w Hfl _).
  - apply succeeds_transaction, mergeInTransaction_succeeds.
  - intros result. by apply succeeds_ret.
  - rewrite secondary_records, list_fmap_bind.
    assert (filter (λ r, WorkHistory.id r ∈ sec)
                   (listed _
                      (filter (λ r, WorkHistory.id r ∈ p :: sec
                                    ∧ WorkHistory.userId r = u)
                              (workHistories (db w))))
              ≫= (Included.userSkills ∘ Client.withRelations listed true (db w))
            ≡ₚ filter (λ r, WorkHistory.id r ∈ sec) (workHistories (db w))
                 ≫= (λ r, Client.userSkillsOf (db w) (WorkHistory.id r))) as Hperm.
    { apply bind_Permutation_ext; [by apply secondary_listed |].
      intros r. simpl. apply Hlisted. }
    split; [| split].
    + apply list_elem_of_fmap. by exists rp.
    + rewrite Hperm. apply skills_of_distinct; [| done].
      eapply sublist_NoDup; [exact Hkeys |]. apply fmap_sublist, sublist_filter.
    + intros s Hs. rewrite Hperm in Hs.
      apply list_elem_of_bind in Hs as (r & Hs & _).
      apply list_elem_of_filter in Hs as [_ Hs].
      apply list_elem_of_fmap. by exists s.
Qed.

End MergeSucceeds.

(** C5. [mergeWorkHistoryRecords] always returns, never throws. When a call
    to the database fails (or the records are not all found), it returns
    [success = false] with a message and the database is the one it found:
    the transaction has rolled back. When it returns [success = true], no
    call has failed, and (the tables having primary keys) the ids handed in
    were distinct work histories of the user and they are merged: the
    primary row carries the merged details, it has a new achievement for
    each secondary description it did not have, the secondary skills moved
    to it unless it had the skill, and the secondary rows are deleted. And
    it does return [success = true] when no call fails, the ids handed in
    are distinct work histories of the user and the merged dates are
    valid. The order in which the database lists rows is any. *)
Theorem mergeWorkHistoryRecords_atomic (newDate : string → JS.Date)
    (listed : ∀ A : Type, list A → list A)
    (userId primaryRecordId : string) (secondaryRecordIds : list string)
    (mergedDetails : MergedDetails.t) (w : World)
    (Hlisted : arrangement listed) :
  ∃ res w',
    mergeWorkHistoryRecords newDate listed userId primaryRecordId
      secondaryRecordIds mergedDetails w = (inr res, w')
    ∧ ((Merge.success res = false
        ∧ (∃ e, Merge.message res
                = "Failed to merge work history records: " +:+ message e)
        ∧ db w' = db w)
       ∨ (Merge.success res = true
          ∧ faultsPassed w w'
          ∧ Merge.mergedRecord res
            = MergedRecord.mk primaryRecordId
                (MergedDetails.companyName mergedDetails)
                (MergedDetails.jobTitle mergedDetails)
                (newDate (MergedDetails.startDate mergedDetails))
                (endDateOf newDate mergedDetails)
          ∧ (wellKeyed (db w) →
             selected userId primaryRecordId secondaryRecordIds (db w)
             ∧ mergedInto newDate primaryRecordId secondaryRecordIds
                          mergedDetails (db w) (db w'))))
    ∧ (faultless w → wellKeyed (db w) →
       selected userId primaryRecordId secondaryRecordIds (db w) →
       validMergedDates newDate mergedDetails →
       Merge.success res = true).
Proof.
  unfold mergeWorkHistoryRecords. rewrite tryCatch_run.
  destruct (mergeRecordsAttempt newDate listed userId primaryRecordId
              secondaryRecordIds mergedDetails w) as [[e | res] w1] eqn:Hrun.
  - rewrite bind_run. simpl. eexists _, _. split; [reflexivity |]. split.
    + left. split; [done |]. split; [by exists e |]. simpl.
      by apply mergeRecordsAttempt_inl in Hrun.
    + intros Hfl Hkeys Hsel Hvalid. exfalso.
      destruct (mergeRecordsAttempt_succeeds newDate listed userId primaryRecordId
                  secondaryRecordIds mergedDetails Hlisted Hvalid w Hfl)
        as (res & w' & Hreturns & _); [done |].
      rewrite Hrun in Hreturns. discriminate.
  - exists res, w1. split; [done |].
    pose proof (mergeRecordsAttempt_passes _ _ _ _ _ _ _ _ _ Hrun) as Hpassed.
    apply mergeRecordsAttempt_inr in Hrun as (Hsuccess & Hrecord & Hmerged);
      [| done].
    split; [| done]. right. done.
Qed.

(** The merge of the two sample records of user u1 goes through the
    theorem: no call fails, so it succeeds and leaves the merged state. *)
Lemma mergeWorkHistoryRecords_atomic_witness :
  ∃ res w',
    mergeWorkHistoryRecords Sample.parse Sample.asStored "u1" "wh1" ["wh2"]
      Sample.details (Sample.serving [] []) = (inr res, w')
    ∧ Merge.success res = true
    ∧ mergedInto Sample.parse "wh1" ["wh2"] Sample.details Sample.store (db w').
Proof.
  assert (arrangement Sample.asStored) as Hlisted by (intros A l; reflexivity).
  assert (wellKeyed Sample.store) as Hkeys.
  { split; apply (bool_decide_unpack _); vm_compute; reflexivity. }
  destruct (mergeWorkHistoryRecords_atomic Sample.parse Sample.asStored
              "u1" "wh1" ["wh2"] Sample.details (Sample.serving [] []) Hlisted)
    as (res & w' & Hrun & Hcases & Hprogress).
  exists res, w'. split; [exact Hrun |].
  assert (Merge.success res = true) as Hsuccess.
  { apply Hprogress; [constructor | exact Hkeys | | split; reflexivity].
    split; [apply (bool_decide_unpack _); vm_compute; reflexivity |].
    intros i Hi. apply elem_of_cons in Hi as [-> | Hi].
    - exists (WorkHistory.mk "wh1" "u1" "Acme Corp" "Engineer"
                Sample.january2020 None).
      split; [left | split; reflexivity].
    - apply list_elem_of_singleton in Hi as ->.
      exists (WorkHistory.mk "wh2" "u1" "ACME corp." "Senior Engineer"
                (JS.LocalDate 2021 5 0) None).
      split; [right; left | split; reflexivity]. }
  split; [exact Hsuccess |].
  destruct Hcases as [[Hfailed _] | (_ & _ & _ & Hmerged)]; [congruence |].
  by apply Hmerged.
Defined.

(** ** The order of the stages *)

Section Phases.

Variable rank : Event → option nat.

Lemma phase_nil lo hi : phase rank lo hi [].
Proof. split; constructor. Qed.

Lemma phase_weaken lo hi lo' hi' t :
  phase rank lo hi t → (lo' ≤ lo)%nat → (hi ≤ hi')%nat → phase rank lo' hi' t.
Proof.
  intros [Hsorted Hbounds] Hlo Hhi. split; [done |].
  eapply Forall_impl; [exact Hbounds |]. simpl. lia.
Qed.

Lemma phase_app a b c t1 t2 :
  (a ≤ b)%nat → (b ≤ c)%nat →
  phase rank a b t1 → phase rank b c t2 → phase rank a c (t1 ++ t2).
Proof.
  intros Hab Hbc [Hs1 Hb1] [Hs2 Hb2]. unfold phase, inOrder in *.
  rewrite omap_app. split.
  - generalize dependent (omap rank t1). intros l1 Hs1 Hb1.
    induction Hs1 as [|x l1 Hs1 IH Hx]; [done |].
    apply Forall_cons in Hb1 as [Hxb Hb1]. simpl. constructor; [by apply IH |].
    apply Forall_app. split; [done |].
    eapply Forall_impl; [exact Hb2 |]. simpl. lia.
  - apply Forall_app. split.
    + eapply Forall_impl; [exact Hb1 |]. simpl. lia.
    + eapply Forall_impl; [exact Hb2 |]. simpl. lia.
Qed.

Lemma phase_silent lo hi ev : rank ev = None → phase rank lo hi [ev].
Proof. intros Hev. unfold phase, inOrder. simpl. rewrite Hev. split; constructor. Qed.

Lemma phase_single lo hi ev r :
  rank ev = Some r → (lo ≤ r ≤ hi)%nat → phase rank lo hi [ev].
Proof.
  intros Hev Hr. unfold phase, inOrder. simpl. rewrite Hev. split.
  - constructor; constructor.
  - constructor; [done | constructor].
Qed.

Lemma phase_event lo hi ev :
  from_option (λ r, (lo ≤ r ≤ hi)%nat) True (rank ev) → phase rank lo hi [ev].
Proof.
  destruct (rank ev) as [r|] eqn:Hev; simpl.
  - by apply phase_single.
  - intros _. by apply phase_silent.
Qed.

Lemma emits_weaken {A} (P Q : list Event → Prop) (m : M A) :
  (∀ t, P t → Q t) → emits P m → emits Q m.
Proof. intros HPQ Hm w. destruct (Hm w) as (t & Ht & HP). exists t. auto. Qed.

Lemma emits_ret {A} (P : list Event → Prop) (a : A) : P [] → emits P (mret a).
Proof. intros HP w. exists []. simpl. by rewrite app_nil_r. Qed.

Lemma emits_throw {A} (P : list Event → Prop) (e : Exn) :
  P [] → emits P (throw (A := A) e).
Proof. intros HP w. exists []. simpl. by rewrite app_nil_r. Qed.

Lemma emits_await {A} (P : list Event → Prop) (r : Exn + A) :
  P [] → emits P (await r).
Proof. intros HP w. exists []. simpl. by rewrite app_nil_r. Qed.

Lemma emits_emit (P : list Event → Prop) (ev : Event) : P [ev] → emits P (emit ev).
Proof. intros HP w. by exists [ev]. Qed.

Lemma emits_call {A} (P : list Event → Prop) (m : Model) (a : Action)
    (f : DB → Exn + A * DB) :
  P [Prisma m a] → emits P (call m a f).
Proof.
  intros HP w. exists [Prisma m a]. split; [| done]. rewrite call_run. simpl.
  destruct (faults w) as [|[e|] rest]; try done;
    destruct (f (db w)) as [e' | [x d]]; done.
Qed.

Lemma emits_bind {A B} (P1 P2 P : list Event → Prop) (m : M A) (k : A → M B) :
  emits P1 m → (∀ a, emits P2 (k a)) →
  (∀ t1, P1 t1 → P t1) → (∀ t1 t2, P1 t1 → P2 t2 → P (t1 ++ t2)) →
  emits P (m ≫= k).
Proof.
  intros Hm Hk Hstop Hboth w. rewrite bind_run.
  destruct (Hm w) as (t1 & Ht1 & HP1).
  destruct (m w) as [[e | a] w1]; simpl in *.
  - exists t1. auto.
  - destruct (Hk a w1) as (t2 & Ht2 & HP2).
    exists (t1 ++ t2). rewrite Ht2, Ht1, app_assoc. auto.
Qed.

Lemma emits_tryCatch {A} (P1 P2 P : list Event → Prop) (body : M A)
    (handler : Exn → M A) :
  emits P1 body → (∀ e, emits P2 (handler e)) →
  (∀ t1, P1 t1 → P t1) → (∀ t1 t2, P1 t1 → P2 t2 → P (t1 ++ t2)) →
  emits P (tryCatch body handler).
Proof.
  intros Hb Hh Hstop Hboth w. rewrite tryCatch_run.
  destruct (Hb w) as (t1 & Ht1 & HP1).
  destruct (body w) as [[e | a] w1]; simpl in *.
  - destruct (Hh e w1) as (t2 & Ht2 & HP2).
    exists (t1 ++ t2). rewrite Ht2, Ht1, app_assoc. auto.
  - exists t1. auto.
Qed.

(** Sequencing two phases. *)
Lemma phase_bind {A B} (a b c : nat) (m : M A) (k : A → M B) :
  (a ≤ b)%nat → (b ≤ c)%nat →
  emits (phase rank a b) m → (∀ x, emits (phase rank b c) (k x)) →
  emits (phase rank a c) (m ≫= k).
Proof.
  intros Hab Hbc Hm Hk. eapply emits_bind; [exact Hm | exact Hk | |].
  - intros t1 Ht1. by apply (phase_weaken a b).
  - intros t1 t2. by apply phase_app.
Qed.

Lemma phase_forEach {A} (a : nat) (xs : list A) (body : A → M unit) :
  (∀ x, emits (phase rank a a) (body x)) →
  emits (phase rank a a) (forEach xs body).
Proof.
  intros Hbody. induction xs as [|x xs IH]; simpl.
  - apply emits_ret, phase_nil.
  - by apply (phase_bind a a a).
Qed.

Lemma phase_transaction {A} (a b : nat) (body : M A) :
  rank TxBegin = None → rank TxCommit = None → rank TxRollback = None →
  emits (phase rank a b) body → emits (phase rank a b) (transaction body).
Proof.
  intros Hbegin Hcommit Hrollback Hbody w. rewrite transaction_run.
  assert (∀ t pre post,
            Forall (λ ev, rank ev = None) pre → Forall (λ ev, rank ev = None) post →
            phase rank a b t → phase rank a b (pre ++ t ++ post)) as Hpad.
  { intros t pre post Hpre Hpost Ht. unfold phase, inOrder in *.
    rewrite !omap_app.
    assert (∀ l, Forall (λ ev, rank ev = None) l → omap rank l = []) as Hnone.
    { induction 1 as [|ev l Hev _ IH]; [done |]. simpl. by rewrite Hev. }
    by rewrite (Hnone pre), (Hnone post), app_nil_r. }
  destruct (faults w) as [|[e|] rest]; simpl;
    try (exists [TxBegin]; split; [done | by apply phase_silent]);
    match goal with |- context [body ?w0] =>
      destruct (Hbody w0) as (t & Ht & HP);
      destruct (body w0) as [[e1 | r] w1] end; simpl in *;
    try (exists ([TxBegin] ++ t ++ [TxRollback]);
         split; [rewrite Ht, <- !app_assoc; done
                | apply Hpad; [by repeat constructor .. | done]]);
    destruct (faults w1) as [|[e2|] rest2]; simpl;
    try (exists ([TxBegin] ++ t ++ [TxCommit]);
         split; [rewrite Ht, <- !app_assoc; done
                | apply Hpad; [by repeat constructor .. | done]]);
    exists ([TxBegin] ++ t ++ [TxCommit; TxRollback]);
    (split; [rewrite Ht, <- !app_assoc; done
            | apply Hpad; [by repeat constructor .. | done]]).
Qed.

End Phases.

(** A computation that makes one call or emits one event, or none. *)
Ltac leaf :=
  first
    [ apply emits_ret, phase_nil
    | apply emits_throw, phase_nil
    | apply emits_await, phase_nil
    | apply emits_emit, phase_event; simpl; try exact I; lia
    | apply emits_call, phase_event; simpl; try exact I; lia ].

(** Sequencing, the first part ending at rank [b]. *)
Ltac upto b := apply (phase_bind _ _ b _); [lia | lia | | intros ?].

Tactic Notation "binding" ident(x) "upto" constr(b) :=
  apply (phase_bind _ _ b _); [lia | lia | | intros x].

Section ProcessOrder.

Variable mergeWorkAchievements : list string → list string → Exn + list string.
Variable normalizeSkills : list string → Exn + list NormalizedSkill.t.
Variable now : JS.Date.
Variable toLowerCase : list Z → list Z.

Lemma processSkills_phase userId workHistoryId exp :
  emits (phase entryRank 3 4) (processSkills normalizeSkills userId workHistoryId exp).
Proof.
  unfold processSkills. destruct (0 <? _)%nat; [| leaf].
  upto 3%nat; [leaf |]. upto 4%nat; [leaf |].
  apply phase_forEach. intros normalizedSkill.
  unfold Client.userSkill_findFirst, query.
  binding found upto 4%nat; [leaf |].
  destruct found as [existingUserSkill|].
  - destruct (unlinked existingUserSkill); [unfold Client.userSkill_update |]; leaf.
  - unfold Client.userSkill_create. leaf.
Qed.

Lemma achievements_phase whId (descriptions : list string) :
  emits (phase entryRank 2 2)
        (forEach descriptions (Client.workAchievement_create whId)).
Proof.
  apply phase_forEach. intros d. unfold Client.workAchievement_create. leaf.
Qed.

Lemma processEntry_segment userId existingWorkHistory exp :
  emits entrySegment
        (processEntry mergeWorkAchievements normalizeSkills now toLowerCase userId
                      existingWorkHistory exp).
Proof.
  unfold processEntry.
  set (matchingRecord := List.find _ existingWorkHistory).
  set (found := (λ m, WorkHistory.id (Included.record m)) <$> matchingRecord).
  eapply (emits_bind (λ t, t = [Match found]) (phase entryRank 0 4)).
  - intros w. by exists [Match found].
  - intros _. upto 2%nat.
    2:{ eapply emits_weaken; [| apply processSkills_phase].
        intros t Ht. apply (phase_weaken _ 3 4); [done | lia | lia]. }
    destruct matchingRecord as [m|].
    + upto 0%nat; [leaf |]. upto 1%nat; [leaf |]. upto 1%nat; [leaf |].
      upto 2%nat; [unfold Client.workHistory_update; leaf |].
      upto 2%nat; [apply achievements_phase | leaf].
    + upto 2%nat; [unfold Client.workHistory_create; leaf |].
      upto 2%nat; [apply achievements_phase | leaf].
  - intros t ->. split; [by eexists _, _ |]. repeat constructor.
  - intros t1 t2 -> [Hsorted Hbounds]. split; [by eexists _, _ |].
    unfold inOrder in *. simpl. constructor; [done |].
    eapply Forall_impl; [exact Hbounds |]. simpl. lia.
Qed.

(** The events of a batch: the segments of the entries handled, one after
    the other. *)
Lemma entries_segmented userId existingWorkHistory workExperience :
  emits (λ t, ∃ segments, t = concat segments ∧ Forall entrySegment segments
                           ∧ (length segments ≤ length workExperience)%nat)
        (forEach workExperience
           (processEntry mergeWorkAchievements normalizeSkills now toLowerCase userId
                         existingWorkHistory)).
Proof.
  induction workExperience as [|exp rest IH]; simpl.
  { apply emits_ret. exists []. split; [done |]. split; [constructor | done]. }
  eapply emits_bind; [apply processEntry_segment | intros _; exact IH | |].
  - intros t Ht. exists [t]. simpl. rewrite app_nil_r.
    split; [done |]. split; [by constructor | lia].
  - intros t1 t2 Ht1 (segments & -> & Hsegments & Hlen).
    exists (t1 :: segments). split; [done |].
    split; [by constructor | simpl; lia].
Qed.

End ProcessOrder.

Lemma nextReply_phase : emits (phase dedupeRank 1 1) nextReply.
Proof.
  intros w. exists []. split; [| apply phase_nil]. unfold nextReply.
  rewrite app_nil_r. by destruct (llm w) as [|[e | r] rest].
Qed.

Lemma collectIndices_phase finals s :
  emits (phase dedupeRank 1 1) (collectIndices finals s).
Proof.
  intros w. exists []. split; [| apply phase_nil]. rewrite app_nil_r.
  pose proof (collectIndices_spec finals s w) as H.
  destruct (collectIndices finals s w) as [[e | all] w']; simpl;
    by destruct H as [-> _].
Qed.

Lemma mergeWorkAchievementsWithAI_phase achievements :
  emits (phase dedupeRank 1 1) (mergeWorkAchievementsWithAI achievements).
Proof.
  unfold mergeWorkAchievementsWithAI.
  destruct (length achievements <=? 1)%nat; [leaf |].
  eapply emits_tryCatch with (P1 := phase dedupeRank 1 1)
                             (P2 := phase dedupeRank 1 1).
  - unfold mergeAttempt, invoke.
    upto 1%nat; [upto 1%nat; [leaf | apply nextReply_phase] |].
    unfold validated. destruct (finalAchievements _); [| leaf].
    upto 1%nat; [apply collectIndices_phase |].
    destruct (0 <? _)%nat; (upto 1%nat; [leaf | leaf]).
  - intros e. upto 1%nat; [leaf | leaf].
  - done.
  - intros t1 t2. by apply phase_app.
Qed.

Lemma deduplicateAndMergeWorkAchievements_phase toLowerCase userId workHistoryId dryRun :
  emits (phase dedupeRank 0 2)
        (deduplicateAndMergeWorkAchievements toLowerCase userId workHistoryId dryRun).
Proof.
  unfold deduplicateAndMergeWorkAchievements, Client.workHistory_findFirst,
    Client.workAchievement_findMany, query.
  binding workHistory upto 0%nat; [leaf |].
  destruct workHistory as [found|]; [| leaf].
  binding achievements upto 0%nat; [leaf |].
  destruct (length achievements <=? 1)%nat; [leaf |].
  upto 0%nat; [leaf |].
  destruct (removeExactDuplicateWorkAchievements toLowerCase achievements) as [kept removed].
  destruct (length kept <=? 1)%nat.
  - upto 2%nat; [| leaf].
    destruct (negb dryRun && _); [| leaf].
    apply phase_transaction; [done .. |].
    unfold Client.workAchievement_deleteMany. leaf.
  - binding mergeResult upto 1%nat.
    { eapply emits_weaken; [| apply mergeWorkAchievementsWithAI_phase].
      intros t Ht. apply (phase_weaken _ 1 1); [done | lia | lia]. }
    destruct dryRun; [leaf |].
    upto 2%nat; [| leaf].
    apply phase_transaction; [done .. |].
    unfold Client.workAchievement_deleteMany, Client.workAchievement_createMany.
    upto 2%nat; [leaf | leaf].
Qed.

(** The claim C6 fails on the code: for a parsed entry that matches an
    existing record and names skills, the achievements are merged and
    written before the skills are normalised. *)
Lemma processWorkExperience_not_in_stated_order :
  ¬ statedOrder
      (omap stageOf
         (trace (processWorkExperience Sample.concatenating Sample.verbatim
                   Sample.january2020 JS.asciiToLowerCase Sample.asStored
                   [Sample.parsedAcme] "u1"
                   (Sample.serving [] [])).2)).
Proof.
  intros (_ & Hnormalize & _).
  assert (7 < 1)%nat; [| lia].
  apply Hnormalize; [| right]; vm_compute; reflexivity.
Qed.

(** C6, as the code has it. [processWorkExperience] reads the existing
    records once and then handles the parsed entries one after the other;
    for each entry it first matches, then (on a match) has the LLM merge the
    achievements, then writes the work history and its achievements, then
    normalises the skills, then writes the user skills.
    [deduplicateAndMergeWorkAchievements] is a workflow of its own: exact
    de-duplication, then the merge by the LLM, then the writes. *)
Theorem workflow_order
    (mergeWorkAchievements : list string → list string → Exn + list string)
    (normalizeSkills : list string → Exn + list NormalizedSkill.t)
    (now : JS.Date) (toLowerCase : list Z → list Z)
    (listed : ∀ A : Type, list A → list A) (workExperience : list Parsed.t)
    (userId workHistoryId : string) (dryRun : bool) (w : World) :
  (∃ segments,
      trace (processWorkExperience mergeWorkAchievements normalizeSkills now
               toLowerCase listed workExperience userId w).2
      = trace w ++ Prisma WorkHistoryModel FindMany :: concat segments
      ∧ Forall entrySegment segments
      ∧ (length segments ≤ length workExperience)%nat)
  ∧ (∃ t,
        trace (deduplicateAndMergeWorkAchievements toLowerCase
                 userId workHistoryId dryRun w).2
        = trace w ++ t
        ∧ inOrder dedupeRank t).
Proof.
  split.
  - assert (emits (λ t, ∃ segments,
                       t = Prisma WorkHistoryModel FindMany :: concat segments
                       ∧ Forall entrySegment segments
                       ∧ (length segments ≤ length workExperience)%nat)
              (processWorkExperience mergeWorkAchievements normalizeSkills now
                 toLowerCase listed workExperience userId)) as Hemits.
    { unfold processWorkExperience, Client.workHistory_findMany, query.
      eapply emits_bind.
      - apply (emits_call (λ t, t = [Prisma WorkHistoryModel FindMany])). done.
      - intros existing. apply entries_segmented.
      - intros t ->. exists []. split; [done |]. split; [constructor | simpl; lia].
      - intros t1 t2 -> (segments & -> & Hsegments & Hlen). by exists segments. }
    destruct (Hemits w) as (t & Ht & segments & -> & Hsegments & Hlen).
    by exists segments.
  - destruct (deduplicateAndMergeWorkAchievements_phase toLowerCase userId workHistoryId
                dryRun w) as (t & Ht & Hsorted & _).
    by exists t.
Qed.

(** ** The properties at work on the sample data *)

Lemma deduplicateAndMergeWorkAchievements_nothing_to_do_witness :
  ∃ w',
    deduplicateAndMergeWorkAchievements JS.asciiToLowerCase "u2" "wh9" false
      (mkWorld Sample.small [] [] [])
    = (inr (Deduplication.mk true
              "No deduplication needed - this work history has 1 or fewer achievements."
              1 1 0 0 []), w')
    ∧ db w' = Sample.small
    ∧ llm w' = []
    ∧ trace w' = [Prisma WorkHistoryModel FindFirst;
                  Prisma WorkAchievementModel FindMany].
Proof.
  apply (deduplicateAndMergeWorkAchievements_nothing_to_do JS.asciiToLowerCase "u2" "wh9" false
           (mkWorld Sample.small [] [] [])
           (WorkHistory.mk "wh9" "u2" "Initech" "Analyst" Sample.january2020 None)).
  - simpl. left.
  - reflexivity.
  - reflexivity.
  - vm_compute. lia.
  - constructor.
Defined.


(** A merge that goes through, and the same merge with the fifth call to
    the database failing. *)
Example mergeWorkHistoryRecords_sample :
  let run := mergeWorkHistoryRecords Sample.parse Sample.asStored "u1" "wh1" ["wh2"] Sample.details
               (Sample.serving [] []) in
  sum_map id Merge.success run.1 = inr true
  ∧ WorkHistory.id <$> workHistories (db run.2) = ["wh1"]
  ∧ (λ a, (WorkAchievement.description a, WorkAchievement.workHistoryId a))
      <$> workAchievements (db run.2)
    = [ ("Increased revenue by 20%", "wh1");
        ("  increased revenue BY 20% ", "wh1");
        ("Led a team of 5", "wh1");
        ("Shipped the billing service", "wh1") ]
  ∧ (λ s, (UserSkill.skillId s, UserSkill.workHistoryId s)) <$> userSkills (db run.2)
    = [ ("rust", Some "wh1"); ("go", Some "wh1") ].
Proof. vm_compute. done. Qed.

Example mergeWorkHistoryRecords_sample_fault :
  let run := mergeWorkHistoryRecords Sample.parse Sample.asStored "u1" "wh1" ["wh2"] Sample.details
               (Sample.serving [] [None; None; None; None; Some (Error "deadlock")]) in
  run.1 = inr (Merge.mk false "Failed to merge work history records: deadlock"
                 (MergedRecord.mk "wh1" "Acme Corporation" "Staff Engineer"
                    Sample.january2020 None))
  ∧ db run.2 = Sample.store.
Proof. vm_compute. done. Qed.

(** * Further properties of the router *)

(** ** The Levenshtein distance *)

Lemma distance_nil_l (b : list Z) : distance [] b = length b.
Proof. reflexivity. Qed.

Lemma distance_nil_r (a : list Z) : distance a [] = length a.
Proof. by destruct a. Qed.

Lemma distance_cons (x y : Z) (a b : list Z) :
  distance (x :: a) (y :: b)
  = Nat.min (Nat.min (S (distance a (y :: b))) (S (distance (x :: a) b)))
            ((if (x =? y)%Z then 0 else 1) + distance a b)%nat.
Proof. reflexivity. Qed.

Lemma distance_lengths (a b : list Z) :
  (length a ≤ length b + distance a b)%nat
  ∧ (length b ≤ length a + distance a b)%nat
  ∧ (distance a b ≤ Nat.max (length a) (length b))%nat.
Proof.
  revert b. induction a as [|x a IHa]; intros b.
  { simpl. lia. }
  induction b as [|y b IHb].
  { rewrite distance_nil_r. simpl. lia. }
  rewrite distance_cons.
  pose proof (IHa (y :: b)) as H1. pose proof (IHa b) as H2.
  set (d1 := distance a (y :: b)) in *.
  set (d2 := distance (x :: a) b) in *.
  set (d3 := distance a b) in *.
  clearbody d1 d2 d3. cbn [length] in *. destruct (x =? y); lia.
Qed.

Lemma distance_refl (a : list Z) : distance a a = 0%nat.
Proof.
  induction a as [|x a IH]; [done |].
  rewrite distance_cons, Z.eqb_refl, IH. lia.
Qed.

Lemma distance_zero (a b : list Z) : distance a b = 0%nat → a = b.
Proof.
  revert b. induction a as [|x a IHa]; intros [|y b]; simpl; try done.
  change (distance (x :: a) (y :: b) = 0%nat → x :: a = y :: b).
  rewrite distance_cons. destruct (Z.eqb_spec x y) as [-> | Hne].
  - intros Hd. f_equal. apply IHa. lia.
  - lia.
Qed.

Lemma distance_sym (a b : list Z) : distance a b = distance b a.
Proof.
  revert b. induction a as [|x a IHa]; intros b.
  { by rewrite distance_nil_r. }
  induction b as [|y b IHb]; [done |].
  rewrite !distance_cons, IHb, (IHa (y :: b)), (IHa b).
  rewrite (Z.eqb_sym y x). lia.
Qed.

(** X1. The distance handed to the matcher behaves as an edit distance: it
    is 0 exactly between equal strings, it is symmetric, and it lies
    between the difference of the two lengths and the greater of them. *)
Theorem distance_edit_distance (a b : list Z) :
  (distance a b = 0%nat ↔ a = b)
  ∧ distance a b = distance b a
  ∧ (length a - length b ≤ distance a b)%nat
  ∧ (length b - length a ≤ distance a b)%nat
  ∧ (distance a b ≤ Nat.max (length a) (length b))%nat.
Proof.
  split; [split; [apply distance_zero | intros ->; apply distance_refl] |].
  split; [apply distance_sym |].
  pose proof (distance_lengths a b). lia.
Qed.

Lemma nullish_default {A} (o : option A) (d : A) : JS.nullish o d = default d o.
Proof. by destruct o. Qed.

(** X2. Two company names whose normalised forms differ in length by more
    than 5 code units never match, whatever the dates. *)
Theorem doWorkHistoryRecordsMatch_length_gap (toLowerCase : list Z → list Z)
    (existing : Existing.t) (newRecord : Parsed.t)
    (Hgap : (length (normalizeCompany toLowerCase (Existing.companyName existing)) + 5
             < length (normalizeCompany toLowerCase
                         (default "" (Parsed.company newRecord))))%nat
            ∨ (length (normalizeCompany toLowerCase
                         (default "" (Parsed.company newRecord))) + 5
               < length (normalizeCompany toLowerCase
                           (Existing.companyName existing)))%nat) :
  doWorkHistoryRecordsMatch toLowerCase existing newRecord = false.
Proof.
  unfold doWorkHistoryRecordsMatch. rewrite nullish_default.
  pose proof (distance_lengths
                (normalizeCompany toLowerCase (Existing.companyName existing))
                (normalizeCompany toLowerCase
                   (default "" (Parsed.company newRecord)))) as Hd.
  destruct (Nat.ltb_spec 5
              (distance
                 (normalizeCompany toLowerCase (Existing.companyName existing))
                 (normalizeCompany toLowerCase
                    (default "" (Parsed.company newRecord)))));
    [done | lia].
Qed.

Lemma doWorkHistoryRecordsMatch_length_gap_witness :
  doWorkHistoryRecordsMatch JS.asciiToLowerCase Sample.acme
    (Parsed.mk (Some "Acme Corporation of America") None
               (Some Sample.january2020) None None None) = false.
Proof.
  apply doWorkHistoryRecordsMatch_length_gap. left. vm_compute. lia.
Defined.

Lemma monthIndex_same (d d' : JS.Date) :
  sameCalendarMonth d d' → JS.strict_eq (monthIndex d) (monthIndex d') = true.
Proof.
  destruct d as [|y m r], d' as [|y' m' r']; simpl; try done.
  intros [-> ->]. apply Z.eqb_refl.
Qed.

(** X3. A record matches every parsed entry whose company name has the same
    normalised form (the same up to letter case and white space) and whose
    start and end fall in the same calendar months: importing the same
    position again finds the record. *)
Theorem doWorkHistoryRecordsMatch_same_position (toLowerCase : list Z → list Z)
    (existing : Existing.t) (newRecord : Parsed.t) (newStart : JS.Date)
    (Hname : normalizeCompany toLowerCase (default "" (Parsed.company newRecord))
             = normalizeCompany toLowerCase (Existing.companyName existing))
    (Hstart : Parsed.startDate newRecord = Some newStart)
    (Hsame : sameCalendarMonth (Existing.startDate existing) newStart)
    (Hend : match Existing.endDate existing, Parsed.endDate newRecord with
            | None, None => True
            | Some e, Some e' => sameCalendarMonth e e'
            | _, _ => False
            end) :
  doWorkHistoryRecordsMatch toLowerCase existing newRecord = true.
Proof.
  unfold doWorkHistoryRecordsMatch, JS.strict_neq. rewrite nullish_default.
  rewrite Hname, distance_refl, Hstart. simpl.
  rewrite (monthIndex_same _ _ Hsame). simpl.
  destruct (Existing.endDate existing), (Parsed.endDate newRecord); try done.
  by apply monthIndex_same.
Qed.

Lemma doWorkHistoryRecordsMatch_same_position_witness :
  doWorkHistoryRecordsMatch JS.asciiToLowerCase Sample.acme
    (Parsed.mk (Some " ACME corp ") None (Some Sample.lateJanuary2020) None None None)
  = true.
Proof.
  apply (doWorkHistoryRecordsMatch_same_position JS.asciiToLowerCase
           Sample.acme _ Sample.lateJanuary2020);
    [reflexivity | reflexivity | by split | exact I].
Defined.

Lemma distance_suffix (a t : list Z) : (distance a (a ++ t) ≤ length t)%nat.
Proof.
  induction a as [|x a IH]; [done |].
  change ((x :: a) ++ t) with (x :: (a ++ t)).
  rewrite distance_cons, Z.eqb_refl. lia.
Qed.

(** X4. Up to five code units more at the end of the normalised name, such
    as those of ", Inc.", do not prevent the match: a record matches the
    entry whose normalised company name is its own followed by at most five
    code units and whose months are the same. *)
Theorem doWorkHistoryRecordsMatch_suffix (toLowerCase : list Z → list Z)
    (existing : Existing.t) (newRecord : Parsed.t)
    (suffix : list Z) (newStart : JS.Date)
    (Hname : normalizeCompany toLowerCase (default "" (Parsed.company newRecord))
             = normalizeCompany toLowerCase (Existing.companyName existing)
               ++ suffix)
    (Hshort : (length suffix ≤ 5)%nat)
    (Hstart : Parsed.startDate newRecord = Some newStart)
    (Hsame : sameCalendarMonth (Existing.startDate existing) newStart)
    (Hend : match Existing.endDate existing, Parsed.endDate newRecord with
            | None, None => True
            | Some e, Some e' => sameCalendarMonth e e'
            | _, _ => False
            end) :
  doWorkHistoryRecordsMatch toLowerCase existing newRecord = true.
Proof.
  unfold doWorkHistoryRecordsMatch, JS.strict_neq. rewrite nullish_default, Hname.
  pose proof (distance_suffix
                (normalizeCompany toLowerCase (Existing.companyName existing))
                suffix) as Hd.
  destruct (Nat.ltb_spec 5
              (distance
                 (normalizeCompany toLowerCase (Existing.companyName existing))
                 (normalizeCompany toLowerCase (Existing.companyName existing)
                  ++ suffix))); [lia |].
  rewrite Hstart. simpl. rewrite (monthIndex_same _ _ Hsame). simpl.
  destruct (Existing.endDate existing), (Parsed.endDate newRecord); try done.
  by apply monthIndex_same.
Qed.

Lemma doWorkHistoryRecordsMatch_suffix_witness :
  doWorkHistoryRecordsMatch JS.asciiToLowerCase Sample.acme
    (Parsed.mk (Some "Acme Corp, Inc.") None
               (Some Sample.lateJanuary2020) None None None) = true.
Proof.
  apply (doWorkHistoryRecordsMatch_suffix JS.asciiToLowerCase Sample.acme _
           (JS.codeUnits ",inc.") Sample.lateJanuary2020);
    [reflexivity | vm_compute; lia | reflexivity | by split | exact I].
Defined.

(** ** More on exact de-duplication *)

Lemma firstOccurrences_sublist (toLowerCase : list Z → list Z)
    (l : list WorkAchievement.t) :
  firstOccurrences toLowerCase l `sublist_of` l.
Proof.
  induction l as [|a l IH] using rev_ind; [done |].
  rewrite firstOccurrences_snoc. apply sublist_app; [done |].
  destruct (decide _); [apply sublist_nil_l | done].
Qed.

Lemma firstOccurrences_cover (toLowerCase : list Z → list Z)
    (l : list WorkAchievement.t) (a : WorkAchievement.t) :
  a ∈ l →
  ∃ b, b ∈ firstOccurrences toLowerCase l
       ∧ compared toLowerCase b = compared toLowerCase a.
Proof.
  revert a. induction l as [|a0 l IH] using rev_ind; intros a;
    [by intros ?%elem_of_nil |].
  rewrite firstOccurrences_snoc. intros Ha.
  assert (∀ c, c ∈ l → ∃ b, b ∈ firstOccurrences toLowerCase l ++
                                 (if decide (compared toLowerCase a0
                                             ∈ compared toLowerCase <$> l)
                                  then [] else [a0])
                            ∧ compared toLowerCase b = compared toLowerCase c)
    as Hold.
  { intros c Hc. destruct (IH c Hc) as (b & Hb & Hbc). exists b.
    split; [apply elem_of_app; by left | done]. }
  apply elem_of_app in Ha as [Ha | Ha]; [by apply Hold |].
  apply list_elem_of_singleton in Ha as ->.
  destruct (decide (compared toLowerCase a0 ∈ compared toLowerCase <$> l))
    as [Hseen | Hnew].
  - apply list_elem_of_fmap in Hseen as (c & Hc & Hin).
    destruct (IH c Hin) as (b & Hb & Hbc). exists b.
    split; [apply elem_of_app; by left | congruence].
  - exists a0. split; [| done]. apply elem_of_app. right. by left.
Qed.

Lemma firstOccurrences_oldest (toLowerCase : list Z → list Z)
    (l : list WorkAchievement.t) :
  StronglySorted Client.createdNotAfter l →
  ∀ a, a ∈ l →
    ∃ b, b ∈ firstOccurrences toLowerCase l
         ∧ compared toLowerCase b = compared toLowerCase a
         ∧ WorkAchievement.createdAt b ≤ WorkAchievement.createdAt a.
Proof.
  induction l as [|a0 l IH] using rev_ind; [by intros _ a ?%elem_of_nil |].
  intros Hsorted a Ha. rewrite firstOccurrences_snoc.
  pose proof (StronglySorted_app_1_l _ _ _ Hsorted) as Hprefix.
  assert (∀ c, c ∈ l →
            ∃ b, b ∈ firstOccurrences toLowerCase l ++
                       (if decide (compared toLowerCase a0
                                   ∈ compared toLowerCase <$> l)
                        then [] else [a0])
                 ∧ compared toLowerCase b = compared toLowerCase c
                 ∧ WorkAchievement.createdAt b ≤ WorkAchievement.createdAt c)
    as Hold.
  { intros c Hc. destruct (IH Hprefix c Hc) as (b & Hb & Hbc & Hle). exists b.
    split; [apply elem_of_app; by left | done]. }
  apply elem_of_app in Ha as [Ha | Ha]; [by apply Hold |].
  apply list_elem_of_singleton in Ha as ->.
  destruct (decide (compared toLowerCase a0 ∈ compared toLowerCase <$> l))
    as [Hseen | Hnew].
  - apply list_elem_of_fmap in Hseen as (c & Hc & Hin).
    destruct (IH Hprefix c Hin) as (b & Hb & Hbc & Hle). exists b.
    split; [apply elem_of_app; by left |]. split; [congruence |].
    assert (Client.createdNotAfter c a0) as Hca.
    { eapply StronglySorted_app_1_elem_of; [exact Hsorted | done | by left]. }
    unfold Client.createdNotAfter in Hca. lia.
  - exists a0. split; [apply elem_of_app; right; by left |]. split; [done | lia].
Qed.

Lemma occurrences_NoDup (toLowerCase : list Z → list Z)
    (l : list WorkAchievement.t) :
  NoDup (compared toLowerCase <$> l) ↔ laterOccurrences toLowerCase l = 0%nat.
Proof.
  induction l as [|a l IH] using rev_ind; [split; [done | constructor] |].
  rewrite laterOccurrences_snoc, fmap_app, NoDup_app. simpl. split.
  - intros (Hl & Hnew & _). apply IH in Hl. rewrite Hl.
    destruct (decide _) as [Hseen | _]; [| done].
    exfalso. apply (Hnew _ Hseen). by left.
  - destruct (decide _) as [Hseen | Hnew]; [lia |]. intros Hzero.
    split; [apply IH; lia |]. split; [| apply NoDup_singleton].
    intros x Hx ->%list_elem_of_singleton. done.
Qed.

Lemma firstOccurrences_all (toLowerCase : list Z → list Z)
    (l : list WorkAchievement.t) :
  NoDup (compared toLowerCase <$> l) → firstOccurrences toLowerCase l = l.
Proof.
  induction l as [|a l IH] using rev_ind; [done |].
  rewrite fmap_app, NoDup_app, firstOccurrences_snoc. intros (Hl & Hnew & _).
  rewrite (IH Hl). destruct (decide _) as [Hseen | _]; [| done].
  exfalso. apply (Hnew _ Hseen). by left.
Qed.

(** X5. What [removeExactDuplicateWorkAchievements] keeps is taken from its
    input in input order, and every input achievement is represented: some
    kept achievement has the same description up to trimming and case. *)
Theorem removeExactDuplicateWorkAchievements_represents
    (toLowerCase : list Z → list Z)
    (achievements : list WorkAchievement.t) :
  (removeExactDuplicateWorkAchievements toLowerCase achievements).1 `sublist_of` achievements
  ∧ ∀ a, a ∈ achievements →
      ∃ b, b ∈ (removeExactDuplicateWorkAchievements toLowerCase achievements).1
           ∧ compared toLowerCase b = compared toLowerCase a.
Proof.
  unfold removeExactDuplicateWorkAchievements. rewrite scan_invariant. simpl.
  split; [apply firstOccurrences_sublist | apply firstOccurrences_cover].
Qed.

(** X6. Nothing is counted as removed exactly when the normalised
    descriptions of the input are pairwise distinct, and then the input is
    returned as it is. *)
Theorem removeExactDuplicateWorkAchievements_nothing_removed
    (toLowerCase : list Z → list Z)
    (achievements : list WorkAchievement.t) :
  ((removeExactDuplicateWorkAchievements toLowerCase achievements).2 = 0%nat
   ↔ NoDup (compared toLowerCase <$> achievements))
  ∧ (NoDup (compared toLowerCase <$> achievements) →
     removeExactDuplicateWorkAchievements toLowerCase achievements = (achievements, 0%nat)).
Proof.
  unfold removeExactDuplicateWorkAchievements. rewrite scan_invariant. simpl.
  split; [symmetry; apply occurrences_NoDup |].
  intros Hnd. by rewrite firstOccurrences_all, (proj1 (occurrences_NoDup _ _) Hnd).
Qed.

(** X7. De-duplicating is idempotent: what was kept has no exact
    duplicates left. *)
Theorem removeExactDuplicateWorkAchievements_idempotent
    (toLowerCase : list Z → list Z)
    (achievements : list WorkAchievement.t) :
  removeExactDuplicateWorkAchievements toLowerCase
    (removeExactDuplicateWorkAchievements toLowerCase achievements).1
  = ((removeExactDuplicateWorkAchievements toLowerCase achievements).1, 0%nat).
Proof.
  unfold removeExactDuplicateWorkAchievements. rewrite !scan_invariant. simpl.
  pose proof (firstOccurrences_NoDup toLowerCase achievements) as Hnd.
  by rewrite firstOccurrences_all, (proj1 (occurrences_NoDup _ _) Hnd).
Qed.

(** X8. "Keeping the oldest one": on a list in the order of creation, as
    [deduplicateAndMergeWorkAchievements] reads it, every achievement is
    represented by a kept one that was not created after it. *)
Theorem removeExactDuplicateWorkAchievements_keeps_oldest
    (toLowerCase : list Z → list Z)
    (achievements : list WorkAchievement.t)
    (Hsorted : StronglySorted Client.createdNotAfter achievements) :
  ∀ a, a ∈ achievements →
    ∃ b, b ∈ (removeExactDuplicateWorkAchievements toLowerCase achievements).1
         ∧ compared toLowerCase b = compared toLowerCase a
         ∧ WorkAchievement.createdAt b ≤ WorkAchievement.createdAt a.
Proof.
  unfold removeExactDuplicateWorkAchievements. rewrite scan_invariant. simpl.
  by apply firstOccurrences_oldest.
Qed.

#[global] Instance createdNotAfter_total : Total Client.createdNotAfter.
Proof. intros a b. unfold Client.createdNotAfter. lia. Qed.

#[global] Instance createdNotAfter_trans : Transitive Client.createdNotAfter.
Proof. intros a b c. unfold Client.createdNotAfter. lia. Qed.

Lemma removeExactDuplicateWorkAchievements_keeps_oldest_witness :
  ∃ b, b ∈ (removeExactDuplicateWorkAchievements JS.asciiToLowerCase
              (merge_sort Client.createdNotAfter
                 (Client.achievementsOf Sample.store "wh1"))).1
       ∧ compared JS.asciiToLowerCase b
         = compared JS.asciiToLowerCase
             (Sample.achievement "a2" "  increased revenue BY 20% " 2 "wh1")
       ∧ WorkAchievement.createdAt b ≤ 2.
Proof.
  apply (removeExactDuplicateWorkAchievements_keeps_oldest JS.asciiToLowerCase
           (merge_sort Client.createdNotAfter
              (Client.achievementsOf Sample.store "wh1"))
           (StronglySorted_merge_sort _ _)
           (Sample.achievement "a2" "  increased revenue BY 20% " 2 "wh1")).
  vm_compute. right. left.
Defined.

(** ** More on the merge by the LLM *)

Lemma mergeAttempt_inr achievements w out w' :
  mergeAttempt achievements w = (inr out, w') →
  ∃ r finals,
    head (llm w) = Some (Replies r)
    ∧ finalAchievements r = Some finals
    ∧ accountsForAll (length achievements) finals
    ∧ out = Merged.mk (FinalAchievement.description <$> finals)
              (length achievements - length finals).
Proof.
  intros Hattempt. destruct (llm w) as [|[e | r] rest] eqn:Hllm.
  - unfold mergeAttempt, invoke in Hattempt. rewrite !bind_run in Hattempt.
    simpl in Hattempt. unfold nextReply in Hattempt. simpl in Hattempt.
    rewrite Hllm in Hattempt. discriminate.
  - rewrite (mergeAttempt_throws _ _ _ _ Hllm) in Hattempt. discriminate.
  - rewrite (mergeAttempt_replies _ _ _ _ Hllm) in Hattempt.
    pose proof (validated_spec achievements r (afterInvoke achievements w)) as Hv.
    rewrite Hattempt in Hv. destruct Hv as (finals & Hf & Hall & ->).
    by exists r, finals.
Qed.

(** X9. Given at least one achievement, [mergeWorkAchievementsWithAI]
    returns at least one, and reports fewer merged groups than it was given
    achievements: it never empties the list, whatever the LLM replies. *)
Theorem mergeWorkAchievementsWithAI_never_empties
    (achievements : list WorkAchievement.t) (w : World)
    (Hsome : achievements ≠ []) :
  ∃ out w',
    mergeWorkAchievementsWithAI achievements w = (inr out, w')
    ∧ Merged.finalAchievements out ≠ []
    ∧ (Merged.groupsMerged out < length achievements)%nat.
Proof.
  destruct (mergeWorkAchievementsWithAI_cases achievements w)
    as (out & w' & Hrun & [-> | [Hn Hattempt]]);
    eexists _, _; (split; [exact Hrun |]).
  - simpl. destruct achievements; [done |]. split; [done | simpl; lia].
  - apply mergeAttempt_inr in Hattempt
      as (r & finals & _ & _ & [_ Hcover] & ->). simpl.
    destruct (Hcover 1) as (fa & ix & Hfa & _); [lia |].
    destruct finals; [by apply elem_of_nil in Hfa |]. split; [done | simpl; lia].
Qed.

Lemma mergeWorkAchievementsWithAI_never_empties_witness :
  ∃ out w',
    mergeWorkAchievementsWithAI Sample.bullets
      (Sample.answering [Replies Sample.complete]) = (inr out, w')
    ∧ Merged.finalAchievements out ≠ []
    ∧ (Merged.groupsMerged out < 2)%nat.
Proof.
  apply (mergeWorkAchievementsWithAI_never_empties Sample.bullets
           (Sample.answering [Replies Sample.complete])).
  discriminate.
Defined.

#[global] Instance onlyTraced_preorder : PreOrder onlyTraced.
Proof.
  split; [by intros w |].
  intros w1 w2 w3 (? & ? & ?) (? & ? & ?). unfold onlyTraced. split_and!; congruence.
Qed.

Lemma onlyTraced_emit (ev : Event) : sat onlyTraced (emit ev).
Proof. by intros w. Qed.

Lemma onlyTraced_validated achievements r : sat onlyTraced (validated achievements r).
Proof.
  unfold validated. destruct (finalAchievements r); [| apply sat_throw; apply _].
  apply sat_bind; [apply _ | |].
  { intros w. pose proof (collectIndices_spec l ∅ w) as H.
    destruct (collectIndices l ∅ w) as [[e | all] w']; simpl;
      destruct H as [-> _]; reflexivity. }
  intros all. destruct (0 <? _)%nat.
  - apply sat_bind; [apply _ | apply onlyTraced_emit |].
    intros _. apply sat_throw; apply _.
  - apply sat_bind; [apply _ | apply onlyTraced_emit |].
    intros _. apply sat_ret; apply _.
Qed.

(** X10. [mergeWorkAchievementsWithAI] makes no call to the database (the
    database and its pending faults are as before) and asks the LLM exactly
    once when it is given two achievements or more, and not at all
    otherwise. *)
Theorem mergeWorkAchievementsWithAI_one_call
    (achievements : list WorkAchievement.t) (w : World) :
  let w' := (mergeWorkAchievementsWithAI achievements w).2 in
  db w' = db w
  ∧ faults w' = faults w
  ∧ llm w' = (if (length achievements <=? 1)%nat then llm w else tail (llm w)).
Proof.
  unfold mergeWorkAchievementsWithAI.
  destruct (length achievements <=? 1)%nat; [done |].
  rewrite tryCatch_run.
  assert (∀ r w0, onlyTraced w0 (validated achievements r w0).2) as Hvalidated.
  { intros r w0. apply onlyTraced_validated. }
  unfold mergeAttempt, invoke. rewrite !bind_run. simpl. unfold nextReply. simpl.
  destruct (llm w) as [|[e | r] rest] eqn:Hllm; simpl; try done.
  match goal with |- context [validated achievements r ?w0] =>
    specialize (Hvalidated r w0);
    destruct (validated achievements r w0) as [[e | out] w1] end;
    destruct Hvalidated as (Hdb & Hl & Hf); simpl in *; done.
Qed.

(** ** Throwing runs leave the database alone *)

#[global] Instance sameDb_preorder : PreOrder sameDb.
Proof.
  split; [by intros w |]. intros w1 w2 w3. unfold sameDb. congruence.
Qed.

Lemma sat_weaken {A} (R Q : World → World → Prop) (m : M A) :
  (∀ w w', R w w' → Q w w') → sat R m → sat Q m.
Proof. intros HRQ Hm w. apply HRQ, Hm. Qed.

Lemma sameDb_of_readOnly {A} (m : M A) : sat readOnly m → sat sameDb m.
Proof. apply sat_weaken. by intros w w' [? _]. Qed.

Lemma onThrow_ret {A} (R : World → World → Prop) (a : A) : onThrow R (mret a).
Proof. intros w e w' Hrun. discriminate. Qed.

Lemma onThrow_throw {A} (R : World → World → Prop) `{!Reflexive R} (e : Exn) :
  onThrow R (throw (A := A) e).
Proof. intros w e' w' [= _ <-]. reflexivity. Qed.

Lemma onThrow_bind {A B} (R : World → World → Prop) `{!PreOrder R}
    (m : M A) (k : A → M B) :
  sat R m → (∀ a, onThrow R (k a)) → onThrow R (m ≫= k).
Proof.
  intros Hm Hk w e w'' Hrun. specialize (Hm w).
  apply bind_inl in Hrun as [Hrun | (a & w' & Hrun & Hrest)];
    rewrite Hrun in Hm; simpl in Hm; [done |].
  etrans; [exact Hm | by eapply Hk].
Qed.

(** [m] followed by a plain [return]. *)
Lemma onThrow_returning {A B} (R : World → World → Prop) (m : M A) (f : A → B) :
  onThrow R m → onThrow R (m ≫= λ x, mret (f x)).
Proof.
  intros Hm w e w'' Hrun.
  apply bind_inl in Hrun as [Hrun | (a & w' & _ & Hrest)]; [| discriminate].
  by eapply Hm.
Qed.

Lemma onThrow_transaction {A} (body : M A) : onThrow sameDb (transaction body).
Proof. intros w e w' Hrun. by apply transaction_inl in Hrun. Qed.

Lemma deduplicateAndMergeWorkAchievements_onThrow toLowerCase userId workHistoryId dryRun :
  onThrow sameDb (deduplicateAndMergeWorkAchievements toLowerCase userId workHistoryId dryRun).
Proof.
  unfold deduplicateAndMergeWorkAchievements, Client.workHistory_findFirst,
    Client.workAchievement_findMany.
  apply onThrow_bind; [apply _ | by apply sameDb_of_readOnly, readOnly_query |].
  intros [found|]; [| apply onThrow_throw; apply _].
  apply onThrow_bind; [apply _ | by apply sameDb_of_readOnly, readOnly_query |].
  intros achievements.
  destruct (length achievements <=? 1)%nat; [apply onThrow_ret |].
  apply onThrow_bind; [apply _ | by apply sameDb_of_readOnly, readOnly_emit |].
  intros _.
  destruct (removeExactDuplicateWorkAchievements toLowerCase achievements) as [kept removed].
  destruct (length kept <=? 1)%nat.
  - apply onThrow_returning.
    destruct (negb dryRun && _); [apply onThrow_transaction | apply onThrow_ret].
  - apply onThrow_bind;
      [apply _
      | apply sameDb_of_readOnly, readOnly_mergeWorkAchievementsWithAI |].
    intros mergeResult. destruct dryRun; [apply onThrow_ret |].
    apply onThrow_returning, onThrow_transaction.
Qed.

(** X11. [deduplicateAndMergeWorkAchievements] throws when no work history
    with the given id belongs to the user, be it a dry run or not, and
    leaves the database as it is. *)
Theorem deduplicateAndMergeWorkAchievements_access_denied
    (toLowerCase : list Z → list Z) (userId workHistoryId : string) (dryRun : bool) (w : World)
    (Hnone : ∀ r, r ∈ workHistories (db w) →
                  ¬ (WorkHistory.id r = workHistoryId
                     ∧ WorkHistory.userId r = userId)) :
  ∃ e w', deduplicateAndMergeWorkAchievements toLowerCase userId workHistoryId dryRun w
          = (inl e, w')
          ∧ db w' = db w.
Proof.
  destruct (deduplicateAndMergeWorkAchievements toLowerCase userId workHistoryId dryRun w)
    as [[e | res] w'] eqn:Hrun.
  - exists e, w'. split; [done |].
    by apply deduplicateAndMergeWorkAchievements_onThrow in Hrun.
  - exfalso.
    unfold deduplicateAndMergeWorkAchievements, Client.workHistory_findFirst in Hrun.
    apply bind_inr in Hrun as (found & w1 & Hfind & Hrun).
    apply query_inr in Hfind as [-> Hdb].
    destruct (head _) as [found|] eqn:Hhead; [| discriminate].
    apply head_filter_elem in Hhead as [Hin HP]. by destruct (Hnone _ Hin).
Qed.

Lemma deduplicateAndMergeWorkAchievements_access_denied_witness :
  ∃ e w', deduplicateAndMergeWorkAchievements JS.asciiToLowerCase "u2" "wh1" false
            (Sample.serving [] []) = (inl e, w')
          ∧ db w' = Sample.store.
Proof.
  apply (deduplicateAndMergeWorkAchievements_access_denied JS.asciiToLowerCase "u2" "wh1" false
           (Sample.serving [] [])).
  intros r Hr [Hid Hu]. simpl in Hr.
  repeat (apply elem_of_cons in Hr as [-> | Hr]; [discriminate |]).
  by apply elem_of_nil in Hr.
Defined.

(** X12. [deduplicateAndMergeWorkAchievements] is all-or-nothing: whenever
    it throws (a failed read, a failed write, a transaction that does not
    commit), the database is the one it found. *)
Theorem deduplicateAndMergeWorkAchievements_throw_keeps_database
    (toLowerCase : list Z → list Z) (userId workHistoryId : string) (dryRun : bool) (w : World)
    (e : Exn) (w' : World)
    (Hthrow : deduplicateAndMergeWorkAchievements toLowerCase userId workHistoryId dryRun w
              = (inl e, w')) :
  db w' = db w.
Proof. by apply deduplicateAndMergeWorkAchievements_onThrow in Hthrow. Qed.

Lemma deduplicateAndMergeWorkAchievements_throw_keeps_database_witness :
  db (deduplicateAndMergeWorkAchievements JS.asciiToLowerCase "u1" "wh1" false
        (Sample.serving [Replies Sample.complete]
                        [None; None; None; None; Some (Error "timeout")])).2
  = Sample.store.
Proof.
  apply (deduplicateAndMergeWorkAchievements_throw_keeps_database JS.asciiToLowerCase
           "u1" "wh1" false
           (Sample.serving [Replies Sample.complete]
                           [None; None; None; None; Some (Error "timeout")])
           (Error "timeout")).
  vm_compute. reflexivity.
Defined.

(** X13. [applyApprovedWorkAchievements] is all-or-nothing as well: whenever
    it throws, no achievement has been deleted or created. *)
Theorem applyApprovedWorkAchievements_throw_keeps_database
    (userId workHistoryId : string) (approvedAchievements : list string)
    (w : World) (e : Exn) (w' : World)
    (Hthrow : applyApprovedWorkAchievements userId workHistoryId
                approvedAchievements w = (inl e, w')) :
  db w' = db w.
Proof.
  revert Hthrow. unfold applyApprovedWorkAchievements, Client.workHistory_findFirst.
  apply (onThrow_bind sameDb); [by apply sameDb_of_readOnly, readOnly_query |].
  intros [found|]; [| apply onThrow_throw; apply _].
  apply onThrow_returning, onThrow_transaction.
Qed.

Lemma applyApprovedWorkAchievements_throw_keeps_database_witness :
  db (applyApprovedWorkAchievements "u1" "wh1" ["Led a team of 5"]
        (Sample.serving [] [None; None; None; Some (Error "timeout")])).2
  = Sample.store.
Proof.
  apply (applyApprovedWorkAchievements_throw_keeps_database "u1" "wh1"
           ["Led a team of 5"]
           (Sample.serving [] [None; None; None; Some (Error "timeout")])
           (Error "timeout")).
  vm_compute. reflexivity.
Defined.

(** ** What a returning run of the de-duplication has done *)

Lemma fst_tagged {A B C} (f : A → B) (c : C) (l : list A) :
  fst <$> ((λ a, (f a, c)) <$> l) = f <$> l.
Proof.
  induction l as [|x l IH]; [done |]. rewrite !fmap_cons, IH. done.
Qed.

Section DeduplicateReturns.

Variable toLowerCase : list Z → list Z.
Variables (userId workHistoryId : string) (dryRun : bool) (w : World).

Let stored := Client.achievementsOf (db w) workHistoryId.
Let achievements := merge_sort Client.createdNotAfter stored.
Let kept := (removeExactDuplicateWorkAchievements toLowerCase achievements).1.
Let removed := (removeExactDuplicateWorkAchievements toLowerCase achievements).2.
Let duplicateIds :=
  WorkAchievement.id
    <$> filter (λ a, WorkAchievement.id a ∉ WorkAchievement.id <$> kept) achievements.

Lemma deduplicateAndMergeWorkAchievements_inr res w' :
  deduplicateAndMergeWorkAchievements toLowerCase userId workHistoryId dryRun w = (inr res, w') →
  Deduplication.success res = true
  ∧ Deduplication.originalCount res = length achievements
  ∧ (((length achievements ≤ 1)%nat
      ∧ Deduplication.finalCount res = length achievements
      ∧ Deduplication.exactDuplicatesRemoved res = 0%nat
      ∧ Deduplication.similarGroupsMerged res = 0%nat
      ∧ Deduplication.preview res = []
      ∧ db w' = db w)
     ∨ ((1 < length achievements)%nat ∧ (length kept ≤ 1)%nat
        ∧ Deduplication.finalCount res = length kept
        ∧ Deduplication.exactDuplicatesRemoved res = removed
        ∧ Deduplication.similarGroupsMerged res = 0%nat
        ∧ fst <$> Deduplication.preview res = WorkAchievement.description <$> kept
        ∧ workHistories (db w') = workHistories (db w)
        ∧ userSkills (db w') = userSkills (db w)
        ∧ workAchievements (db w')
          = if negb dryRun && (0 <? removed)%nat
            then filter (λ a, ¬ (WorkAchievement.id a ∈ duplicateIds
                                 ∧ WorkAchievement.workHistoryId a = workHistoryId))
                        (workAchievements (db w))
            else workAchievements (db w))
     ∨ ((1 < length achievements)%nat ∧ (1 < length kept)%nat
        ∧ ∃ mergeResult w1 w2,
            db w1 = db w
            ∧ mergeWorkAchievementsWithAI kept w1 = (inr mergeResult, w2)
            ∧ Deduplication.finalCount res
              = length (Merged.finalAchievements mergeResult)
            ∧ Deduplication.exactDuplicatesRemoved res = removed
            ∧ Deduplication.similarGroupsMerged res = Merged.groupsMerged mergeResult
            ∧ fst <$> Deduplication.preview res = Merged.finalAchievements mergeResult
            ∧ workHistories (db w') = workHistories (db w)
            ∧ userSkills (db w') = userSkills (db w)
            ∧ if dryRun then workAchievements (db w') = workAchievements (db w)
              else ∃ rows,
                  workAchievements (db w')
                  = filter (λ a, WorkAchievement.workHistoryId a ≠ workHistoryId)
                           (workAchievements (db w)) ++ rows
                  ∧ Client.achievementsOf (db w') workHistoryId = rows
                  ∧ WorkAchievement.description <$> rows
                    = Merged.finalAchievements mergeResult)).
Proof.
  unfold deduplicateAndMergeWorkAchievements, Client.workHistory_findFirst,
    Client.workAchievement_findMany. intros Hrun.
  apply bind_inr in Hrun as (found & w1 & Hfind & Hrun).
  apply query_inr in Hfind as [-> Hdb1].
  destruct (head _) as [found|] in Hrun; [| discriminate].
  apply bind_inr in Hrun as (achs & w2 & Hfind & Hrun).
  apply query_inr in Hfind as [-> Hdb2]. rewrite Hdb1 in Hdb2, Hrun.
  fold stored achievements in Hrun. clear Hdb1 w1.
  destruct (Nat.leb_spec (length achievements) 1) as [Hfew | Hmany].
  { injection Hrun as <- <-. simpl. split; [done |]. split; [done |]. left. done. }
  apply bind_inr in Hrun as ([] & w3 & Hemit & Hrun).
  injection Hemit as <-.
  fold kept removed in Hrun.
  destruct (removeExactDuplicateWorkAchievements toLowerCase achievements) as [k r] eqn:Hscan.
  subst kept removed. simpl in *.
  destruct (Nat.leb_spec (length k) 1) as [Hone | Hmore].
  - apply bind_inr in Hrun as ([] & w4 & Hdelete & Hret).
    injection Hret as <- <-. simpl. split; [done |]. split; [done |]. right. left.
    split; [done |]. split; [done |]. split; [done |]. split; [done |].
    split; [done |].
    split; [apply fst_tagged |].
    destruct (negb dryRun && (0 <? r)%nat).
    + apply transaction_inr in Hdelete as (wa & wb & Hstart & Hbody & Hend).
      apply call_inr in Hbody as [Hbody _]. injection Hbody as Hbody.
      rewrite Hend, <- Hbody, Hstart. simpl. by rewrite Hdb2.
    + injection Hdelete as <-. simpl. by rewrite Hdb2.
  - apply bind_inr in Hrun as (mergeResult & w4 & Hmerge & Hrun).
    split; [by destruct dryRun; [injection Hrun as <- | apply bind_inr in Hrun
      as ([] & w5 & _ & [= <- _])] |].
    split; [by destruct dryRun; [injection Hrun as <- | apply bind_inr in Hrun
      as ([] & w5 & _ & [= <- _])] |].
    right. right. split; [done |]. split; [done |].
    assert (db w4 = db w) as Hdb4.
    { pose proof (readOnly_mergeWorkAchievementsWithAI k
                    (mkWorld (db w2) (trace w2 ++ [Dedupe]) (llm w2) (faults w2)))
        as [Hsame _].
      rewrite Hmerge in Hsame. simpl in Hsame. congruence. }
    eexists mergeResult, _, w4. split; [| split; [exact Hmerge |]]; [done |].
    destruct dryRun.
    + injection Hrun as <- <-. simpl. rewrite Hdb4.
      split; [done |]. split; [done |]. split; [done |].
      split; [by rewrite (fst_tagged id), list_fmap_id |]. done.
    + apply bind_inr in Hrun as ([] & w5 & Htx & Hret).
      injection Hret as <- <-. simpl.
      split; [done |]. split; [done |]. split; [done |].
      split; [by rewrite (fst_tagged id), list_fmap_id |].
      apply transaction_inr in Htx as (wa & wb & Hstart & Hbody & Hend).
      apply replace_achievements_inr in Hbody
        as (rows & Htable & Hrows & Hdescr & Hwh & Hus).
      rewrite Hstart, Hdb4 in Htable, Hwh, Hus.
      unfold Client.achievementsOf in *.
      rewrite <- Hend in Htable, Hrows, Hwh, Hus.
      split; [done |]. split; [done |]. by exists rows.
Qed.

End DeduplicateReturns.

Lemma mergeWorkAchievementsWithAI_counts achievements w out w' :
  mergeWorkAchievementsWithAI achievements w = (inr out, w') →
  (length achievements
   ≤ length (Merged.finalAchievements out) + Merged.groupsMerged out)%nat
  ∧ (achievements ≠ [] → Merged.finalAchievements out ≠ []).
Proof.
  intros Hrun.
  destruct (mergeWorkAchievementsWithAI_cases achievements w)
    as (out' & w'' & Hrun' & Hcases).
  rewrite Hrun in Hrun'. injection Hrun' as <- <-.
  destruct Hcases as [-> | [Hn Hattempt]].
  - simpl. rewrite length_fmap. split; [lia |]. by destruct achievements.
  - apply mergeAttempt_inr in Hattempt
      as (r & finals & _ & _ & [_ Hcover] & ->). simpl.
    rewrite length_fmap. split; [lia |]. intros _.
    destruct (Hcover 1) as (fa & ix & Hfa & _); [lia |].
    destruct finals; [by apply elem_of_nil in Hfa | done].
Qed.

Lemma kept_counts (toLowerCase : list Z → list Z)
    (achievements : list WorkAchievement.t) :
  (length (removeExactDuplicateWorkAchievements toLowerCase achievements).1
   + (removeExactDuplicateWorkAchievements toLowerCase achievements).2
   = length achievements)%nat
  ∧ (achievements ≠ [] →
     (removeExactDuplicateWorkAchievements toLowerCase achievements).1 ≠ []).
Proof.
  unfold removeExactDuplicateWorkAchievements. rewrite scan_invariant. simpl.
  split; [apply occurrences_length |].
  destruct achievements as [|a l]; [done |]. intros _ Hnil.
  destruct (firstOccurrences_cover toLowerCase (a :: l) a) as (b & Hb & _); [by left |].
  rewrite Hnil in Hb. by apply elem_of_nil in Hb.
Qed.

(** X14. The figures a returning run of
    [deduplicateAndMergeWorkAchievements] reports add up: [originalCount] is
    the number of achievements stored for the work history; every original
    is accounted for by a final one, an exact duplicate removed or a group
    merged; a non-empty list never becomes empty; and from two achievements
    on, the preview has [finalCount] entries. *)
Theorem deduplicateAndMergeWorkAchievements_counts
    (toLowerCase : list Z → list Z) (userId workHistoryId : string) (dryRun : bool) (w : World)
    (res : Deduplication.t) (w' : World)
    (Hrun : deduplicateAndMergeWorkAchievements toLowerCase userId workHistoryId dryRun w
            = (inr res, w')) :
  Deduplication.success res = true
  ∧ Deduplication.originalCount res
    = length (Client.achievementsOf (db w) workHistoryId)
  ∧ (Deduplication.originalCount res
     ≤ Deduplication.finalCount res + Deduplication.exactDuplicatesRemoved res
       + Deduplication.similarGroupsMerged res)%nat
  ∧ ((1 ≤ Deduplication.originalCount res)%nat →
     (1 ≤ Deduplication.finalCount res)%nat)
  ∧ ((2 ≤ Deduplication.originalCount res)%nat →
     length (Deduplication.preview res) = Deduplication.finalCount res).
Proof.
  apply deduplicateAndMergeWorkAchievements_inr in Hrun
    as (Hsuccess & Horiginal & Hpaths).
  rewrite findMany_length in Horiginal.
  split; [done |]. split; [done |]. rewrite Horiginal.
  rewrite findMany_length in Hpaths.
  set (achievements := merge_sort Client.createdNotAfter
                         (Client.achievementsOf (db w) workHistoryId)) in *.
  assert (length achievements = length (Client.achievementsOf (db w) workHistoryId))
    as Hlen by apply findMany_length.
  destruct (kept_counts toLowerCase achievements) as [Hsum Hkept].
  destruct Hpaths as [(Hfew & -> & -> & -> & Hpreview & _)
                     | [(Hmany & Hone & -> & -> & -> & Hpreview & _)
                       | (Hmany & Hmore & mr & w1 & w2 & _ & Hmerge
                          & -> & -> & -> & Hpreview & _)]].
  - split; [lia |]. split; [lia |]. lia.
  - split; [lia |]. split.
    + intros _. destruct (removeExactDuplicateWorkAchievements toLowerCase achievements).1;
        [| simpl; lia].
      exfalso. apply Hkept; [| done]. intros Hnil. rewrite Hnil in Hlen.
      simpl in Hlen. lia.
    + intros _. rewrite <- (length_fmap fst), Hpreview. by rewrite length_fmap.
  - apply mergeWorkAchievementsWithAI_counts in Hmerge as [Hcount Hsome].
    split; [lia |]. split.
    + intros _. destruct (Merged.finalAchievements mr); [| simpl; lia].
      exfalso. apply Hsome; [| done]. intros Hnil. rewrite Hnil in Hmore.
      simpl in Hmore. lia.
    + intros _. by rewrite <- (length_fmap fst), Hpreview.
Qed.

Lemma deduplicateAndMergeWorkAchievements_counts_witness :
  ∃ res w',
    deduplicateAndMergeWorkAchievements JS.asciiToLowerCase "u1" "wh1" true
      (Sample.serving [Replies Sample.complete] []) = (inr res, w')
    ∧ Deduplication.originalCount res = 3%nat
    ∧ (3 ≤ Deduplication.finalCount res + Deduplication.exactDuplicatesRemoved res
           + Deduplication.similarGroupsMerged res)%nat.
Proof.
  destruct (deduplicateAndMergeWorkAchievements JS.asciiToLowerCase "u1" "wh1" true
              (Sample.serving [Replies Sample.complete] []))
    as [[e | res] w'] eqn:Hrun; [vm_compute in Hrun; discriminate |].
  exists res, w'. split; [done |].
  destruct (deduplicateAndMergeWorkAchievements_counts _ _ _ _ _ _ _ Hrun)
    as (_ & Horiginal & Hsum & _).
  rewrite Horiginal in Hsum |- *. split; [reflexivity | exact Hsum].
Defined.





(** X16. The preview foretells the real run: when
    [deduplicateAndMergeWorkAchievements] returns without [dryRun], the dry
    run started in the same state returns as well, reports the same four
    counts, previews the same descriptions in the same order, and leaves the
    database as it found it. *)
Theorem deduplicateAndMergeWorkAchievements_dryRun_foretells
    (toLowerCase : list Z → list Z) (userId workHistoryId : string) (w : World)
    (res : Deduplication.t) (w' : World)
    (Hrun : deduplicateAndMergeWorkAchievements toLowerCase userId workHistoryId false w
            = (inr res, w')) :
  ∃ res0 w0,
    deduplicateAndMergeWorkAchievements toLowerCase userId workHistoryId true w = (inr res0, w0)
    ∧ Deduplication.originalCount res0 = Deduplication.originalCount res
    ∧ Deduplication.finalCount res0 = Deduplication.finalCount res
    ∧ Deduplication.exactDuplicatesRemoved res0
      = Deduplication.exactDuplicatesRemoved res
    ∧ Deduplication.similarGroupsMerged res0 = Deduplication.similarGroupsMerged res
    ∧ fst <$> Deduplication.preview res0 = fst <$> Deduplication.preview res
    ∧ db w0 = db w.
Proof.
  revert Hrun. unfold deduplicateAndMergeWorkAchievements. intros Hrun.
  apply bind_inr in Hrun as (found & w1 & Hfind & Hrun).
  rewrite bind_run, Hfind.
  pose proof Hfind as [_ Hdb1]%query_inr.
  destruct found as [found|]; [| discriminate].
  apply bind_inr in Hrun as (achievements & w2 & Hmany & Hrun).
  rewrite bind_run, Hmany.
  pose proof Hmany as [_ Hdb2]%query_inr.
  destruct (length achievements <=? 1)%nat.
  { injection Hrun as <- <-. eexists _, _. split; [reflexivity |].
    simpl. repeat (split; [done |]). congruence. }
  apply bind_inr in Hrun as ([] & w3 & Hemit & Hrun).
  rewrite bind_run, Hemit.
  assert (db w3 = db w) as Hdb3 by (injection Hemit as <-; simpl; congruence).
  destruct (removeExactDuplicateWorkAchievements toLowerCase achievements) as [kept removed].
  destruct (length kept <=? 1)%nat.
  - apply bind_inr in Hrun as ([] & w4 & _ & Hret). injection Hret as <- _.
    eexists _, _. simpl. split; [reflexivity |]. simpl. done.
  - apply bind_inr in Hrun as (mergeResult & w4 & Hmerge & Hrun).
    rewrite bind_run, Hmerge.
    apply bind_inr in Hrun as ([] & w5 & _ & Hret). injection Hret as <- _.
    eexists _, _. split; [reflexivity |]. simpl.
    repeat (split; [done |]).
    split; [by rewrite !(fst_tagged id) |].
    pose proof (readOnly_mergeWorkAchievementsWithAI kept w3) as [Hsame _].
    rewrite Hmerge in Hsame. simpl in Hsame. congruence.
Qed.

Lemma deduplicateAndMergeWorkAchievements_dryRun_foretells_witness :
  ∃ res w' res0 w0,
    deduplicateAndMergeWorkAchievements JS.asciiToLowerCase "u1" "wh1" false
      (Sample.serving [Replies Sample.complete] []) = (inr res, w')
    ∧ deduplicateAndMergeWorkAchievements JS.asciiToLowerCase "u1" "wh1" true
        (Sample.serving [Replies Sample.complete] []) = (inr res0, w0)
    ∧ Deduplication.finalCount res0 = Deduplication.finalCount res
    ∧ db w0 = Sample.store.
Proof.
  destruct (deduplicateAndMergeWorkAchievements JS.asciiToLowerCase "u1" "wh1" false
              (Sample.serving [Replies Sample.complete] []))
    as [[e | res] w'] eqn:Hrun; [vm_compute in Hrun; discriminate |].
  destruct (deduplicateAndMergeWorkAchievements_dryRun_foretells JS.asciiToLowerCase
              "u1" "wh1" (Sample.serving [Replies Sample.complete] []) res w' Hrun)
    as (res0 & w0 & Hdry & _ & Hfinal & _ & _ & _ & Hdb).
  exists res, w', res0, w0.
  split; [reflexivity |]. split; [exact Hdry |]. split; [exact Hfinal |]. exact Hdb.
Defined.

(** ** More on the merge of work-history records *)

Lemma mergeWorkHistoryRecords_inr newDate listed u p sec md w res w' :
  mergeWorkHistoryRecords newDate listed u p sec md w = (inr res, w') →
  Merge.success res = true →
  mergeRecordsAttempt newDate listed u p sec md w = (inr res, w').
Proof.
  unfold mergeWorkHistoryRecords. rewrite tryCatch_run.
  destruct (mergeRecordsAttempt newDate listed u p sec md w) as [[e | r] w1]; [| done].
  rewrite bind_run. simpl. intros [= <- _]. discriminate.
Qed.

(** X17. [mergeWorkHistoryRecords] refuses ids that are not pairwise
    distinct work histories of the user (an id of another user, an unknown
    id, the primary id among the secondary ones, an id given twice): it
    returns [success = false] and the database is untouched; when the read
    itself did not fail, the message says that records were not found. *)
Theorem mergeWorkHistoryRecords_refuses (newDate : string → JS.Date)
    (listed : ∀ A : Type, list A → list A)
    (userId primaryRecordId : string) (secondaryRecordIds : list string)
    (mergedDetails : MergedDetails.t) (w : World)
    (Hlisted : arrangement listed)
    (Hkeys : wellKeyed (db w))
    (Hnot : ¬ selected userId primaryRecordId secondaryRecordIds (db w)) :
  ∃ res w',
    mergeWorkHistoryRecords newDate listed userId primaryRecordId
      secondaryRecordIds mergedDetails w = (inr res, w')
    ∧ Merge.success res = false
    ∧ db w' = db w
    ∧ (faultFree 1 w →
       Merge.message res
       = "Failed to merge work history records: "
         +:+ "One or more work history records not found or don't belong to user").
Proof.
  unfold mergeWorkHistoryRecords. rewrite tryCatch_run.
  destruct (mergeRecordsAttempt newDate listed userId primaryRecordId
              secondaryRecordIds mergedDetails w) as [[e | res] w1] eqn:Hrun.
  - rewrite bind_run. simpl. eexists _, _. split; [reflexivity |]. simpl.
    split; [done |].
    split; [by apply (mergeRecordsAttempt_inl newDate listed) in Hrun |].
    intros Hread. revert Hrun.
    unfold mergeRecordsAttempt, Client.workHistory_findMany.
    rewrite bind_run.
    destruct (query_ok WorkHistoryModel FindMany
                (λ d, Client.withRelations listed true d
                        <$> listed _
                              (filter (λ r, WorkHistory.id r
                                            ∈ primaryRecordId :: secondaryRecordIds
                                            ∧ WorkHistory.userId r = userId)
                                      (workHistories d)))
                0 w Hread) as [-> _].
    destruct (negb _) eqn:Hlen; [by intros [= <- _] |].
    exfalso. apply Hnot.
    apply negb_false_iff, Nat.eqb_eq in Hlen.
    rewrite length_fmap, (Permutation_length (Hlisted _ _)) in Hlen.
    apply selected_all; [apply Hkeys | exact Hlen].
  - exfalso. apply Hnot.
    by apply (mergeRecordsAttempt_inr newDate listed _ _ _ _ Hlisted) in Hrun
      as (_ & _ & [? _]).
Qed.

Lemma mergeWorkHistoryRecords_refuses_witness :
  ∃ res w',
    mergeWorkHistoryRecords Sample.parse Sample.asStored "u1" "wh1" ["wh2"; "wh2"]
      Sample.details (Sample.serving [] []) = (inr res, w')
    ∧ Merge.success res = false
    ∧ db w' = Sample.store.
Proof.
  destruct (mergeWorkHistoryRecords_refuses Sample.parse Sample.asStored
              "u1" "wh1" ["wh2"; "wh2"] Sample.details (Sample.serving [] []))
    as (res & w' & Hrun & Hfailed & Hdb & _).
  - intros A l. reflexivity.
  - split; apply (bool_decide_unpack _); vm_compute; reflexivity.
  - intros [Hnd _]. apply NoDup_cons in Hnd as [_ Hnd].
    apply NoDup_cons in Hnd as [Hin _]. apply Hin. by left.
  - by exists res, w'.
Defined.

(** X18. A merge that succeeds loses no achievement and leaves no reference
    to a deleted record (the tables having primary keys): the achievements
    of the primary record are still its achievements, every description of
    an achievement of a secondary record is now the description of one of
    the primary record, and no work history, achievement or user skill
    carries the id of a secondary record any more. *)
Theorem mergeWorkHistoryRecords_loses_nothing (newDate : string → JS.Date)
    (listed : ∀ A : Type, list A → list A)
    (userId primaryRecordId : string) (secondaryRecordIds : list string)
    (mergedDetails : MergedDetails.t) (w : World) (res : Merge.t) (w' : World)
    (Hlisted : arrangement listed)
    (Hkeys : wellKeyed (db w))
    (Hrun : mergeWorkHistoryRecords newDate listed userId primaryRecordId
              secondaryRecordIds mergedDetails w = (inr res, w'))
    (Hsuccess : Merge.success res = true) :
  (∀ a, a ∈ Client.achievementsOf (db w) primaryRecordId →
        a ∈ Client.achievementsOf (db w') primaryRecordId)
  ∧ (∀ x, x ∈ secondaryDescriptions (db w) secondaryRecordIds →
          x ∈ WorkAchievement.description
                <$> Client.achievementsOf (db w') primaryRecordId)
  ∧ (∀ r, r ∈ workHistories (db w') → WorkHistory.id r ∉ secondaryRecordIds)
  ∧ (∀ a, a ∈ workAchievements (db w') →
          WorkAchievement.workHistoryId a ∉ secondaryRecordIds)
  ∧ (∀ s h, s ∈ userSkills (db w') → UserSkill.workHistoryId s = Some h →
            h ∉ secondaryRecordIds).
Proof.
  apply mergeWorkHistoryRecords_inr in Hrun; [| done].
  apply (mergeRecordsAttempt_inr newDate listed _ _ _ _ Hlisted) in Hrun
    as (_ & _ & Hmerged).
  destruct (Hmerged Hkeys)
    as ([Hnd _] & Hwh & (rows & Hwa & Hrows & Hdescr) & Hus).
  apply NoDup_cons in Hnd as [Hp _].
  assert (∀ a, a ∈ Client.achievementsOf (db w) primaryRecordId →
               a ∈ Client.achievementsOf (db w') primaryRecordId) as Hkept.
  { intros a Ha. apply list_elem_of_filter in Ha as [Hpa Ha].
    apply list_elem_of_filter. split; [done |]. rewrite Hwa.
    apply elem_of_app. left. apply list_elem_of_filter. split; [| done].
    by rewrite Hpa. }
  split; [exact Hkept |]. split; [| split; [| split]].
  - intros x Hx.
    destruct (decide (x ∈ WorkAchievement.description
                            <$> Client.achievementsOf (db w) primaryRecordId))
      as [Hold | Hnew].
    + apply list_elem_of_fmap in Hold as (a & -> & Ha).
      apply list_elem_of_fmap. exists a. split; [done | by apply Hkept].
    + assert (x ∈ WorkAchievement.description <$> rows) as Hrow.
      { rewrite Hdescr. by apply list_elem_of_filter. }
      apply list_elem_of_fmap in Hrow as (a & -> & Ha).
      apply list_elem_of_fmap. exists a. split; [done |].
      apply list_elem_of_filter. split.
      * by apply (proj1 (Forall_forall _ _) Hrows).
      * rewrite Hwa. apply elem_of_app. by right.
  - intros r. rewrite Hwh. intros (r0 & -> & Hr0)%list_elem_of_fmap.
    apply list_elem_of_filter in Hr0 as [Hr0 _].
    unfold mergedRow. by destruct (decide _).
  - intros a. rewrite Hwa. intros [Ha | Ha]%elem_of_app.
    + by apply list_elem_of_filter in Ha as [? _].
    + by rewrite (proj1 (Forall_forall _ _) Hrows a Ha).
  - intros s h. rewrite Hus. intros (t & Ht & Hs)%list_elem_of_omap Hh.
    unfold mergedSkill in Hs.
    destruct (UserSkill.workHistoryId t) as [h0|] eqn:Hwt.
    + destruct (decide (h0 ∈ secondaryRecordIds)) as [Hin | Hout].
      * destruct (decide (UserSkill.skillId t ∈ _)); [discriminate |].
        injection Hs as <-. simpl in Hh. by injection Hh as <-.
      * injection Hs as <-. congruence.
    + injection Hs as <-. congruence.
Qed.

Lemma mergeWorkHistoryRecords_loses_nothing_witness :
  ∃ res w',
    mergeWorkHistoryRecords Sample.parse Sample.asStored "u1" "wh1" ["wh2"]
      Sample.details (Sample.serving [] []) = (inr res, w')
    ∧ "Shipped the billing service"
      ∈ WorkAchievement.description <$> Client.achievementsOf (db w') "wh1".
Proof.
  destruct (mergeWorkHistoryRecords Sample.parse Sample.asStored "u1" "wh1" ["wh2"]
              Sample.details (Sample.serving [] []))
    as [[e | res] w'] eqn:Hrun; [vm_compute in Hrun; discriminate |].
  exists res, w'. split; [reflexivity |].
  apply (mergeWorkHistoryRecords_loses_nothing Sample.parse Sample.asStored
           "u1" "wh1" ["wh2"] Sample.details (Sample.serving [] []) res w').
  - intros A l. reflexivity.
  - split; apply (bool_decide_unpack _); vm_compute; reflexivity.
  - exact Hrun.
  - vm_compute in Hrun. by injection Hrun as <- _.
  - vm_compute. left.
Defined.

(** ** What [processWorkExperience] keeps *)

#[global] Instance keptIn_preorder : PreOrder keptIn.
Proof.
  split.
  - intros d. by repeat split.
  - intros d1 d2 d3 (Ha & Hh & Hs) (Ha' & Hh' & Hs').
    repeat split; by etrans.
Qed.

#[global] Instance keepsRows_preorder : PreOrder keepsRows.
Proof.
  split.
  - intros w. unfold keepsRows. reflexivity.
  - intros w1 w2 w3. unfold keepsRows. apply transitivity.
Qed.

Lemma keepsRows_same (w w' : World) : db w' = db w → keepsRows w w'.
Proof. unfold keepsRows. intros ->. reflexivity. Qed.

Lemma keepsRows_emit (ev : Event) : sat keepsRows (emit ev).
Proof. intros w. by apply keepsRows_same. Qed.

Lemma keepsRows_await {A} (r : Exn + A) : sat keepsRows (await r).
Proof. intros w. by apply keepsRows_same. Qed.

Lemma keepsRows_call {A} (m : Model) (a : Action) (f : DB → Exn + A * DB) :
  (∀ d x d', f d = inr (x, d') → keptIn d d') → sat keepsRows (call m a f).
Proof.
  intros Hf w. rewrite call_run. simpl.
  destruct (faults w) as [|[e|] rest]; try (by apply keepsRows_same);
    destruct (f (db w)) as [e' | [x d']] eqn:Hfd;
    try (by apply keepsRows_same); exact (Hf _ _ _ Hfd).
Qed.

Lemma keepsRows_query {A} (m : Model) (a : Action) (f : DB → A) :
  sat keepsRows (query m a f).
Proof.
  apply keepsRows_call. intros d x d' [= _ <-]. reflexivity.
Qed.

Lemma keepsRows_workHistory_update (whId : string) (data : WorkHistory.t → WorkHistory.t) :
  (∀ r, WorkHistory.id (data r) = WorkHistory.id r) →
  sat keepsRows (Client.workHistory_update whId data).
Proof.
  intros Hid. apply keepsRows_call. intros d x d' Hf.
  destruct (head _) in Hf; [| discriminate].
  destruct (Client.validDates _) in Hf; [| discriminate].
  injection Hf as _ <-. split; [done |]. split; [| done]. simpl.
  by rewrite updated_ids.
Qed.

Lemma keepsRows_workHistory_create (data : string → WorkHistory.t) :
  sat keepsRows (Client.workHistory_create data).
Proof.
  apply keepsRows_call. intros d x d' Hf. simpl in Hf.
  destruct (Client.validDates _) in Hf; [| discriminate].
  injection Hf as _ <-. split; [done |]. split; [| done]. simpl.
  rewrite fmap_app. by apply prefix_app_r.
Qed.

Lemma keepsRows_workAchievement_create (whId description : string) :
  sat keepsRows (Client.workAchievement_create whId description).
Proof.
  apply keepsRows_call. intros d x d' Hf.
  destruct (Client.hasWorkHistory _ _) in Hf; [| discriminate].
  injection Hf as _ <-. split; [| split; simpl; reflexivity].
  simpl. by apply prefix_app_r.
Qed.

Lemma keepsRows_userSkill_update (usId : string) (data : UserSkill.t → UserSkill.t) :
  (∀ s, UserSkill.id (data s) = UserSkill.id s) →
  sat keepsRows (Client.userSkill_update usId data).
Proof.
  intros Hid. apply keepsRows_call. intros d x d' Hf.
  destruct (head _) in Hf; [| discriminate].
  destruct (from_option _ _ _) in Hf; [| discriminate].
  injection Hf as _ <-. split; [done |]. split; [done |]. simpl.
  by rewrite updated_ids.
Qed.

Lemma keepsRows_userSkill_create (data : string → UserSkill.t) :
  sat keepsRows (Client.userSkill_create data).
Proof.
  apply keepsRows_call. intros d x d' Hf. simpl in Hf.
  destruct (bool_decide _) in Hf; [discriminate |].
  destruct (from_option _ _ _) in Hf; [| discriminate].
  injection Hf as _ <-. split; [done |]. split; [done |]. simpl.
  rewrite fmap_app. by apply prefix_app_r.
Qed.

Section KeptRows.

Variable mergeWorkAchievements : list string → list string → Exn + list string.
Variable normalizeSkills : list string → Exn + list NormalizedSkill.t.
Variable now : JS.Date.
Variable toLowerCase : list Z → list Z.
Variable listed : ∀ A : Type, list A → list A.

Lemma keepsRows_processSkills userId workHistoryId exp :
  sat keepsRows (processSkills normalizeSkills userId workHistoryId exp).
Proof.
  unfold processSkills. destruct (0 <? _)%nat; [| apply sat_ret; apply _].
  apply sat_bind; [apply _ | apply keepsRows_emit |]. intros _.
  apply sat_bind; [apply _ | apply keepsRows_await |]. intros normalizedSkills.
  apply sat_forEach; [apply _ |]. intros normalizedSkill.
  apply sat_bind; [apply _ | apply keepsRows_query |].
  intros [existing|]; [| apply keepsRows_userSkill_create].
  destruct (unlinked existing); [| apply sat_ret; apply _].
  by apply keepsRows_userSkill_update.
Qed.

Lemma keepsRows_processEntry userId existingWorkHistory exp :
  sat keepsRows
    (processEntry mergeWorkAchievements normalizeSkills now toLowerCase
       userId existingWorkHistory exp).
Proof.
  unfold processEntry.
  apply sat_bind; [apply _ | apply keepsRows_emit |]. intros _.
  apply sat_bind; [apply _ | | intros ?; apply keepsRows_processSkills].
  destruct (List.find _ _) as [found|].
  - apply sat_bind; [apply _ | apply keepsRows_emit |]. intros _.
    apply sat_bind; [apply _ | apply keepsRows_emit |]. intros _.
    apply sat_bind; [apply _ | apply keepsRows_await |]. intros merged.
    apply sat_bind; [apply _ | by apply keepsRows_workHistory_update |]. intros _.
    apply sat_bind; [apply _ | | intros _; apply sat_ret; apply _].
    apply sat_forEach; [apply _ |]. intros x.
    apply keepsRows_workAchievement_create.
  - apply sat_bind; [apply _ | apply keepsRows_workHistory_create |]. intros wh.
    apply sat_bind; [apply _ | | intros _; apply sat_ret; apply _].
    apply sat_forEach; [apply _ |]. intros x.
    apply keepsRows_workAchievement_create.
Qed.

End KeptRows.

(** X19. An import never deletes or rewrites an achievement and never
    deletes a work history or a user skill: whatever the parsed entries,
    the services and the faults, and whether [processWorkExperience]
    returns or throws, the achievements stored before are the first rows of
    the table after, as they were, and so are the ids of the work histories
    and of the user skills. In particular the achievements of a matching
    record stay beside the merged ones written for it. *)
Theorem processWorkExperience_keeps_rows
    (mergeWorkAchievements : list string → list string → Exn + list string)
    (normalizeSkills : list string → Exn + list NormalizedSkill.t)
    (now : JS.Date) (toLowerCase : list Z → list Z)
    (listed : ∀ A : Type, list A → list A)
    (workExperience : list Parsed.t) (userId : string) (w : World) :
  let w' := (processWorkExperience mergeWorkAchievements normalizeSkills now
               toLowerCase listed workExperience userId w).2 in
  workAchievements (db w) `prefix_of` workAchievements (db w')
  ∧ WorkHistory.id <$> workHistories (db w)
    `prefix_of` WorkHistory.id <$> workHistories (db w')
  ∧ UserSkill.id <$> userSkills (db w)
    `prefix_of` UserSkill.id <$> userSkills (db w').
Proof.
  assert (sat keepsRows
            (processWorkExperience mergeWorkAchievements normalizeSkills now
               toLowerCase listed workExperience userId)) as Hsat.
  { unfold processWorkExperience, Client.workHistory_findMany.
    apply sat_bind; [apply _ | apply keepsRows_query |]. intros existing.
    apply sat_forEach; [apply _ |]. intros exp. apply keepsRows_processEntry. }
  exact (Hsat w).
Qed.
